(** * JSONOptimizer (dist/index.cjs): a shallow embedding and its properties

    The class [JSONOptimizer] inspects a JavaScript value and reports shapes
    that keep [JSON.stringify] off V8's fast path.  This development embeds
    [validate], [_validateObject], [_generateSummary], [optimize],
    [stringify] and [benchmark] as functions over
    - a tree model of JavaScript values (own properties with their
      descriptors, prototypes, arrays with holes),
    - a store of warning arrays, so that the aliasing between
      [this.warnings] and a returned result is visible,
    - IEEE 754 binary64 numbers, for the test
      [!isNaN(num) && num >= 0 && String(num) === key]. *)

From Stdlib Require Import ZArith String Ascii List Bool Lia DecimalString.
From Stdlib Require DecimalPos.
From Stdlib Require Import Floats.SpecFloat.
From stdpp Require Import gmap strings list.

Local Open Scope string_scope.
Local Open Scope Z_scope.
Local Open Scope list_scope.

(** ** Numbers

    A JavaScript Number is a binary64 value; [spec_float] of the standard
    library is its specification-level representation, with [prec = 53] and
    [emax = 1024].  Every finite value built below is in canonical form, so
    two Numbers are the same value iff the terms are equal (apart from the
    two zeros). *)

Definition number := spec_float.

#[global] Instance number_eq_dec : EqDecision number.
Proof. solve_decision. Defined.

Definition prec64 : Z := 53.
Definition emax64 : Z := 1024.

(** The Number nearest to [m * 10^e] (ties to even), for [m >= 0]. *)
Definition round_decimal (m e : Z) : number :=
  match m with
  | Zpos p =>
      if 0 <=? e then binary_normalize prec64 emax64 (m * 10 ^ e) 0 false
      else SFdiv prec64 emax64 (S754_finite false p 0)
                 (S754_finite false (Z.to_pos (10 ^ (- e))) 0)
  | _ => S754_zero false
  end.

(** [isNaN(num)] and [num >= 0] on Numbers. *)
Definition js_isNaN (x : number) : bool :=
  match x with S754_nan => true | _ => false end.

Definition js_ge_zero (x : number) : bool :=
  SFleb (S754_zero false) x.

(** *** Characters *)

Definition digit_of (base : Z) (c : ascii) : option Z :=
  let n := Z.of_nat (nat_of_ascii c) in
  let v := if (48 <=? n) && (n <=? 57) then n - 48
           else if (97 <=? n) && (n <=? 102) then n - 87
           else if (65 <=? n) && (n <=? 70) then n - 55
           else 99 in
  if v <? base then Some v else None.

(** StrWhiteSpaceChar, restricted to the code units a [string] can hold:
    TAB, LF, VT, FF, CR, SP and NBSP. *)
Definition is_white (c : ascii) : bool :=
  let n := nat_of_ascii c in
  (Nat.eqb n 9 || Nat.eqb n 10 || Nat.eqb n 11 || Nat.eqb n 12
   || Nat.eqb n 13 || Nat.eqb n 32 || Nat.eqb n 160)%bool.

Fixpoint drop_white (l : list ascii) : list ascii :=
  match l with
  | c :: r => if is_white c then drop_white r else l
  | [] => []
  end.

Definition trim_white (l : list ascii) : list ascii :=
  rev (drop_white (rev (drop_white l))).

(** Reads the longest prefix of digits in [base]: the value accumulated on
    top of [acc], the number of digits read, and the rest. *)
Fixpoint take_digits (base : Z) (l : list ascii) (acc : Z) (n : nat)
  : Z * nat * list ascii :=
  match l with
  | c :: r =>
      match digit_of base c with
      | Some d => take_digits base r (acc * base + d) (S n)
      | None => (acc, n, l)
      end
  | [] => (acc, n, [])
  end.

(** *** StringToNumber: [Number(key)] for a string [key] *)

(** ExponentPart_opt at the end of a decimal literal: the exponent, or
    [None] when what is left is not an exponent part. *)
Definition parse_exponent (l : list ascii) : option Z :=
  match l with
  | [] => Some 0
  | c :: r =>
      if (Ascii.eqb c "e" || Ascii.eqb c "E")%bool then
        let '(neg, r') :=
          match r with
          | s :: r' =>
              if Ascii.eqb s "-" then (true, r')
              else if Ascii.eqb s "+" then (false, r')
              else (false, r)
          | [] => (false, r)
          end in
        match take_digits 10 r' 0 0 with
        | (v, S _, []) => Some (if neg then - v else v)
        | _ => None
        end
      else None
  end.

(** StrUnsignedDecimalLiteral other than [Infinity]: mantissa and decimal
    exponent of the mathematical value. *)
Definition parse_unsigned_decimal (l : list ascii) : option (Z * Z) :=
  let '(ip, ni, r1) := take_digits 10 l 0 0 in
  let '(m, nf, r2) :=
    match r1 with
    | c :: r =>
        if Ascii.eqb c "." then take_digits 10 r ip 0 else (ip, 0%nat, r1)
    | [] => (ip, 0%nat, r1)
    end in
  match (ni + nf)%nat with
  | O => None
  | S _ =>
      match parse_exponent r2 with
      | Some e => Some (m, e - Z.of_nat nf)
      | None => None
      end
  end.

Definition Infinity_chars : list ascii := list_ascii_of_string "Infinity".

Definition parse_str_decimal (l : list ascii) : number :=
  let '(neg, body) :=
    match l with
    | c :: r =>
        if Ascii.eqb c "-" then (true, r)
        else if Ascii.eqb c "+" then (false, r)
        else (false, l)
    | [] => (false, l)
    end in
  if decide (body = Infinity_chars) then S754_infinity neg
  else
    match parse_unsigned_decimal body with
    | Some (m, e) =>
        match round_decimal m e with
        | S754_zero _ => S754_zero neg
        | x => if neg then SFopp x else x
        end
    | None => S754_nan
    end.

(** NonDecimalIntegerLiteral: [0x], [0o] and [0b] literals carry no sign. *)
Definition parse_non_decimal (l : list ascii) : option number :=
  match l with
  | z :: p :: r =>
      let base :=
        if (Ascii.eqb p "x" || Ascii.eqb p "X")%bool then Some 16
        else if (Ascii.eqb p "o" || Ascii.eqb p "O")%bool then Some 8
        else if (Ascii.eqb p "b" || Ascii.eqb p "B")%bool then Some 2
        else None in
      match base with
      | Some b =>
          if Ascii.eqb z "0" then
            match take_digits b r 0 0 with
            | (v, S _, []) => Some (round_decimal v 0)
            | _ => Some S754_nan
            end
          else None
      | None => None
      end
  | _ => None
  end.

Definition js_Number (key : string) : number :=
  match trim_white (list_ascii_of_string key) with
  | [] => S754_zero false
  | l =>
      match parse_non_decimal l with
      | Some x => x
      | None => parse_str_decimal l
      end
  end.

(** *** Number::toString: [String(num)] *)

Definition string_of_Z (z : Z) : string :=
  NilEmpty.string_of_uint (N.to_uint (Z.to_N z)).

Definition string_of_nat (n : nat) : string := string_of_Z (Z.of_nat n).

Fixpoint zeros (n : nat) : string :=
  match n with O => "" | S n' => "0" +:+ zeros n' end.

(** The number of decimal digits of a positive integer. *)
Fixpoint digits10_aux (fuel : nat) (q : Z) : Z :=
  match fuel with
  | O => 0
  | S f => if q <? 10 then 1 else 1 + digits10_aux f (q / 10)
  end.

Definition digits10 (q : Z) : Z := digits10_aux (S (Z.to_nat (Z.log2 q))) q.

(** For [0 < a < b]: the least [j >= 1] with [a * 10^j >= b]. *)
Fixpoint scale_up (fuel : nat) (a b : Z) : Z :=
  match fuel with
  | O => 1
  | S f => if b <=? a * 10 then 1 else 1 + scale_up f (a * 10) b
  end.

(** The [n] of Number::toString for the positive rational [a / b]:
    [10^(n-1) <= a / b < 10^n]. *)
Definition decimal_exponent (a b : Z) : Z :=
  if b <=? a then digits10 (a / b)
  else 1 - scale_up (S (Z.to_nat (Z.log2 b))) a b.

(** The [k]-digit candidates [s] with [s * 10^(n-k)] next to [a / b], best
    first: the one below and the one above, the closer one first (the even
    one on a tie).  A candidate that reaches [10^k] is renormalised to
    [10^(k-1)] with [n + 1]. *)
Definition candidates (a b n k : Z) : list (Z * Z) :=
  let '(a', b') := if n <=? k then (a * 10 ^ (k - n), b)
                   else (a, b * 10 ^ (n - k)) in
  let lo := a' / b' in
  let r := a' mod b' in
  let hi := if lo + 1 =? 10 ^ k then (10 ^ (k - 1), n + 1)
            else (lo + 1, n) in
  if r =? 0 then [(lo, n)]
  else
    match 2 * r ?= b' with
    | Lt => [(lo, n); hi]
    | Gt => [hi; (lo, n)]
    | Eq => if Z.even lo then [(lo, n); hi] else [hi; (lo, n)]
    end.

(** The shortest digits: least [k] for which a candidate rounds to [x]. *)
Fixpoint shortest_digits (fuel : nat) (x : number) (a b n k : Z)
  : Z * Z * Z :=
  match
    List.find (fun c => bool_decide (round_decimal (fst c) (snd c - k) = x))
              (candidates a b n k)
  with
  | Some (s, n') => (s, n', k)
  | None =>
      match fuel with
      | O => (a / b, n, k)
      | S f => shortest_digits f x a b n (k + 1)
      end
  end.

(** Steps 6 to 11 of Number::toString, from digits [s], their number [k]
    and the decimal exponent [n]. *)
Definition format_digits (s n k : Z) : string :=
  let ds := string_of_Z s in
  if (-5 <=? n) && (n <=? 21) then
    if k <=? n then ds +:+ zeros (Z.to_nat (n - k))
    else if 0 <? n then
      substring 0 (Z.to_nat n) ds +:+ "." +:+
      substring (Z.to_nat n) (Z.to_nat (k - n)) ds
    else "0." +:+ zeros (Z.to_nat (- n)) +:+ ds
  else
    let e := (if n <? 0 then "-" else "+") +:+ string_of_Z (Z.abs (n - 1)) in
    if k =? 1 then ds +:+ "e" +:+ e
    else substring 0 1 ds +:+ "." +:+ substring 1 (Z.to_nat (k - 1)) ds
         +:+ "e" +:+ e.

Definition js_String (x : number) : string :=
  match x with
  | S754_nan => "NaN"
  | S754_zero _ => "0"
  | S754_infinity s => if s then "-Infinity" else "Infinity"
  | S754_finite sg m e =>
      let '(a, b) := if 0 <=? e then (Zpos m * 2 ^ e, 1)
                     else (Zpos m, 2 ^ (- e)) in
      let n := decimal_exponent a b in
      let '(s, n', k) := shortest_digits 20 (S754_finite false m e) a b n 1 in
      (if sg then "-" else "") +:+ format_digits s n' k
  end.

(** The test shared by [_validateObject] (line 93) and [optimize] (line 168):
    [!isNaN(num) && num >= 0 && String(num) === key] with
    [num = Number(key)]. *)
Definition isIndexedKey (key : string) : bool :=
  let num := js_Number key in
  negb (js_isNaN num) && js_ge_zero num && bool_decide (js_String num = key).

(** ** Values

    A value is a tree: primitives, opaque function objects, arrays (a list
    of elements, [None] being a hole) and ordinary objects (a list of own
    properties, in the order [OrdinaryOwnPropertyKeys] lists them).  The
    first component of an array or object is its prototype: [VNull] or an
    object.  [VObjectPrototype] and [VArrayPrototype] stand for the two
    intrinsics the code compares prototypes with; their identity is what
    [proto !== Object.prototype] tests, so they are constructors of their
    own.  A tree has no sharing and no cycle. *)

Inductive key : Type :=
| KString (s : string)
| KSymbol (id : nat).

(** Function objects: the intrinsics the code reaches, and functions
    supplied by the caller (replacers, [toJSON] hooks, constructors). *)
Inductive fn : Type :=
| Builtin (name : string)
| UserFn (id : nat).

Inductive exn : Type :=
| TypeError (msg : string)
| UserError (tag : string).

(** What an own property holds: a data value, or an accessor, abstracted to
    what reading it does (its getter returns a value, or throws). *)
Inductive slot (V : Type) : Type :=
| Data (v : V)
| Accessor (v : V)
| AccessorThrows (e : exn).
Arguments Data {V} v.
Arguments Accessor {V} v.
Arguments AccessorThrows {V} e.

Inductive property (V : Type) : Type :=
| mkProp (k : key) (enumerable : bool) (s : slot V).
Arguments mkProp {V} k enumerable s.

Definition pkey {V} (p : property V) : key :=
  match p with mkProp k _ _ => k end.
Definition penumerable {V} (p : property V) : bool :=
  match p with mkProp _ e _ => e end.
Definition pslot {V} (p : property V) : slot V :=
  match p with mkProp _ _ s => s end.

Unset Elimination Schemes.
Inductive value : Type :=
| VUndefined
| VNull
| VBool (b : bool)
| VNumber (x : number)
| VString (s : string)
| VSymbol (id : nat)
| VBigInt (z : Z)
| VFunction (f : fn)
| VArray (proto : value) (elems : list (option value))
| VObject (proto : value) (props : list (property value))
| VObjectPrototype
| VArrayPrototype.
Set Elimination Schemes.

#[global] Instance key_eq_dec : EqDecision key.
Proof. solve_decision. Defined.
#[global] Instance fn_eq_dec : EqDecision fn.
Proof. solve_decision. Defined.
#[global] Instance exn_eq_dec : EqDecision exn.
Proof. solve_decision. Defined.

(** *** Outcomes

    A JavaScript operation completes normally or throws.  [Unmodelled] marks
    the runs that leave this model: the code would call a function supplied
    by the caller, or read an array hole through the prototype chain. *)
Inductive outcome (A : Type) : Type :=
| Normal (a : A)
| Throw (e : exn)
| Unmodelled.
Arguments Normal {A} a.
Arguments Throw {A} e.
Arguments Unmodelled {A}.

(** *** typeof, Array.isArray, prototypes *)

Definition typeof (v : value) : string :=
  match v with
  | VUndefined => "undefined"
  | VNull => "object"
  | VBool _ => "boolean"
  | VNumber _ => "number"
  | VString _ => "string"
  | VSymbol _ => "symbol"
  | VBigInt _ => "bigint"
  | VFunction _ => "function"
  | VArray _ _ | VObject _ _ | VObjectPrototype | VArrayPrototype => "object"
  end.

Definition Array_isArray (v : value) : bool :=
  match v with
  | VArray _ _ | VArrayPrototype => true
  | _ => false
  end.

Definition Object_getPrototypeOf (v : value) : value :=
  match v with
  | VArray p _ | VObject p _ => p
  | VArrayPrototype => VObjectPrototype
  | _ => VNull
  end.

Definition is_object (v : value) : bool :=
  match v with
  | VFunction _ | VArray _ _ | VObject _ _
  | VObjectPrototype | VArrayPrototype => true
  | _ => false
  end.

(** *** Own properties *)

(** The own property names of [Object.prototype], as V8 lists them; all are
    non-enumerable. *)
Definition ObjectPrototype_names : list string :=
  ["constructor"; "__defineGetter__"; "__defineSetter__"; "hasOwnProperty";
   "__lookupGetter__"; "__lookupSetter__"; "isPrototypeOf";
   "propertyIsEnumerable"; "toString"; "valueOf"; "__proto__";
   "toLocaleString"].

(** The methods of [Array.prototype]. *)
Definition ArrayPrototype_methods : list string :=
  ["at"; "concat"; "copyWithin"; "fill"; "find"; "findIndex"; "findLast";
   "findLastIndex"; "lastIndexOf"; "pop"; "push"; "reverse"; "shift";
   "unshift"; "slice"; "sort"; "splice"; "includes"; "indexOf"; "join";
   "keys"; "entries"; "values"; "forEach"; "filter"; "flat"; "flatMap";
   "map"; "every"; "some"; "reduce"; "reduceRight"; "toLocaleString";
   "toString"; "toReversed"; "toSorted"; "toSpliced"; "with"].

Definition own_props (v : value) : list (property value) :=
  match v with
  | VObject _ props => props
  | VObjectPrototype =>
      List.map (fun n => mkProp (KString n) false
                           (Data (VFunction (Builtin ("Object.prototype." +:+ n)))))
               ObjectPrototype_names
  | _ => []
  end.

Fixpoint find_prop {V} (k : key) (ps : list (property V))
  : option (property V) :=
  match ps with
  | [] => None
  | p :: r => if decide (pkey p = k) then Some p else find_prop k r
  end.

Definition string_keys {V} (ps : list (property V)) : list string :=
  omap (fun p => match pkey p with KString s => Some s | _ => None end) ps.

(** [Object.keys(obj)]: the own enumerable string keys. *)
Definition Object_keys (v : value) : list string :=
  string_keys (List.filter penumerable (own_props v)).

(** [Object.getOwnPropertySymbols(obj)]. *)
Definition Object_getOwnPropertySymbols (v : value) : list nat :=
  omap (fun p => match pkey p with KSymbol i => Some i | _ => None end)
       (own_props v).

(** [Object.getOwnPropertyNames(obj)]: the own string keys, enumerable or
    not. *)
Definition Object_getOwnPropertyNames (v : value) : list string :=
  string_keys (own_props v).

(** [Object.getOwnPropertyDescriptor(obj, key)], reduced to the one field
    the code reads: [Some enumerable] for an own property. *)
Definition Object_getOwnPropertyDescriptor (v : value) (k : string)
  : option bool :=
  penumerable <$> find_prop (KString k) (own_props v).

(** *** Property reads *)

Definition read_slot {V} (s : slot V) : outcome V :=
  match s with
  | Data v | Accessor v => Normal v
  | AccessorThrows e => Throw e
  end.

(** An array index: the canonical numeric string of an integer below
    [2^32 - 1]. *)
Definition array_index (s : string) : option Z :=
  match take_digits 10 (list_ascii_of_string s) 0 0 with
  | (v, S _, []) =>
      if bool_decide (string_of_Z v = s) && (v <? 4294967295) then Some v
      else None
  | _ => None
  end.

(** A read that reaches [Object.prototype]; its [__proto__] accessor
    answers with the prototype of the receiver. *)
Definition get_ObjectPrototype (receiver : value) (k : key) : outcome value :=
  match k with
  | KString s =>
      if decide (s = "__proto__") then Normal (Object_getPrototypeOf receiver)
      else if bool_decide (s ∈ ObjectPrototype_names)
      then Normal (VFunction (Builtin ("Object.prototype." +:+ s)))
      else Normal VUndefined
  | KSymbol _ => Normal VUndefined
  end.

(** [[Get]]: the own property, else the prototype chain.  The properties
    of a function object are not modelled. *)
Fixpoint get_from (receiver v : value) (k : key) : outcome value :=
  match v with
  | VObject proto props =>
      match find_prop k props with
      | Some p => read_slot (pslot p)
      | None => get_from receiver proto k
      end
  | VArray proto elems =>
      match k with
      | KString s =>
          if decide (s = "length")
          then Normal (VNumber (round_decimal (Z.of_nat (length elems)) 0))
          else
            match array_index s with
            | Some i =>
                match nth_error elems (Z.to_nat i) with
                | Some (Some e) => Normal e
                | _ => get_from receiver proto k
                end
            | None => get_from receiver proto k
            end
      | KSymbol _ => get_from receiver proto k
      end
  | VArrayPrototype =>
      match k with
      | KString s =>
          if decide (s = "constructor") then Normal (VFunction (Builtin "Array"))
          else if decide (s = "length") then Normal (VNumber (S754_zero false))
          else if bool_decide (s ∈ ArrayPrototype_methods)
          then Normal (VFunction (Builtin ("Array.prototype." +:+ s)))
          else get_ObjectPrototype receiver k
      | KSymbol _ => Normal VUndefined
      end
  | VObjectPrototype => get_ObjectPrototype receiver k
  | VFunction _ => Unmodelled
  | _ => Normal VUndefined
  end.

(** [obj[key]] and [obj.name]. *)
Definition get (obj : value) (k : key) : outcome value := get_from obj obj k.

(** HasProperty along the prototype chain. *)
Fixpoint has_property (v : value) (k : key) : bool :=
  match v with
  | VObject proto props =>
      match find_prop k props with
      | Some _ => true
      | None => has_property proto k
      end
  | VArray proto elems =>
      match k with
      | KString s =>
          if decide (s = "length") then true
          else
            match array_index s with
            | Some i =>
                match nth_error elems (Z.to_nat i) with
                | Some (Some _) => true
                | _ => has_property proto k
                end
            | None => has_property proto k
            end
      | KSymbol _ => has_property proto k
      end
  | VArrayPrototype =>
      match k with
      | KString s =>
          bool_decide (s ∈ "constructor" :: "length" :: ArrayPrototype_methods)
          || bool_decide (s ∈ ObjectPrototype_names)
      | KSymbol _ => false
      end
  | VObjectPrototype =>
      match k with
      | KString s => bool_decide (s ∈ ObjectPrototype_names)
      | KSymbol _ => false
      end
  | _ => false
  end.

(** ** The validator instance and the store

    [this.warnings] holds a reference to an array of warnings; the arrays
    live in [heap].  A Validation Result holds a reference as well, so the
    model shows which array a result shares with the instance.  [console]
    collects what [console.warn] prints, and [serializer_calls] the
    arguments of the calls to [JSON.stringify]. *)

Module Warning.
Record t : Type := mk {
  type : string;
  path : option string;
  message : string;
  impact : string;
  suggestion : string
}.
End Warning.

#[global] Instance warning_eq_dec : EqDecision Warning.t.
Proof. solve_decision. Defined.

Definition loc := nat.

Record state : Type := mkState {
  heap : gmap loc (list Warning.t);
  this_warnings : loc;
  this_strictMode : bool;
  console : list string;
  serializer_calls : list (value * value * value)
}.

(** A computation of the class: it reads and updates the state, and
    completes with an outcome. *)
Definition M (A : Type) : Type := state → outcome A * state.

Definition ret {A} (a : A) : M A := fun st => (Normal a, st).
Definition throw {A} (e : exn) : M A := fun st => (Throw e, st).
Definition unmodelled {A} : M A := fun st => (Unmodelled, st).

Definition bind {A B} (m : M A) (f : A → M B) : M B :=
  fun st =>
    match m st with
    | (Normal a, st') => f a st'
    | (Throw e, st') => (Throw e, st')
    | (Unmodelled, st') => (Unmodelled, st')
    end.

Definition lift {A} (o : outcome A) : M A := fun st => (o, st).

#[global] Instance M_ret : MRet M := @ret.
#[global] Instance M_bind : MBind M := fun A B f m => bind m f.

(** The array a reference points to. *)
Definition deref (st : state) (l : loc) : list Warning.t :=
  default [] (heap st !! l).

(** [this.warnings = []] : a fresh array, and the field rebound to it. *)
Definition reset_warnings : M unit := fun st =>
  let l := fresh (dom (heap st)) in
  (Normal tt,
   mkState (<[l := []]> (heap st)) l (this_strictMode st) (console st)
           (serializer_calls st)).

(** [this.warnings.push(w)] : the array is updated in place. *)
Definition push (w : Warning.t) : M unit := fun st =>
  let l := this_warnings st in
  (Normal tt,
   mkState (<[l := deref st l ++ [w]]> (heap st)) l (this_strictMode st)
           (console st) (serializer_calls st)).

(** [this.warnings], the reference and the array behind it. *)
Definition read_this_warnings : M loc := fun st => (Normal (this_warnings st), st).
Definition read_warnings : M (list Warning.t) := fun st =>
  (Normal (deref st (this_warnings st)), st).

Definition console_warn (s : string) : M unit := fun st =>
  (Normal tt,
   mkState (heap st) (this_warnings st) (this_strictMode st)
           (console st ++ [s]) (serializer_calls st)).

Definition when (b : bool) (m : M unit) : M unit := if b then m else ret tt.

(** [constructor(options = {})]: [this.warnings = []] and
    [this.strictMode = options.strict || false], on an empty store. *)
Definition constructor (strict : bool) : state :=
  mkState {[ 0%nat := [] ]} 0%nat strict [] [].

(** ** Helpers of the embedding *)

(** A parameter with a default initialiser: an argument that is missing or
    [undefined] is bound to the default. *)
Definition default_param (arg dflt : value) : value :=
  match arg with VUndefined => dflt | _ => arg end.

Definition is_null (v : value) : bool :=
  match v with VNull => true | _ => false end.
Definition is_undefined (v : value) : bool :=
  match v with VUndefined => true | _ => false end.

(** ToBoolean. *)
Definition truthy (v : value) : bool :=
  match v with
  | VUndefined | VNull | VBool false => false
  | VNumber (S754_zero _) | VNumber S754_nan => false
  | VString "" => false
  | VBigInt 0 => false
  | _ => true
  end.

Definition is_ObjectPrototype (v : value) : bool :=
  match v with VObjectPrototype => true | _ => false end.
Definition is_ArrayPrototype (v : value) : bool :=
  match v with VArrayPrototype => true | _ => false end.

(** [typeof v === 'function'] *)
Definition is_function (v : value) : bool :=
  bool_decide (typeof v = "function").

Definition is_builtin (name : string) (v : value) : bool :=
  match v with
  | VFunction (Builtin n) => bool_decide (n = name)
  | _ => false
  end.

(** [xs.join(sep)] on strings. *)
Fixpoint join (sep : string) (xs : list string) : string :=
  match xs with
  | [] => ""
  | [x] => x
  | x :: r => x +:+ sep +:+ join sep r
  end.

(** ** The warnings *)

Definition replacer_warning : Warning.t :=
  Warning.mk "replacer" None
    "Replacer function prevents fast path optimization" "high"
    "Remove replacer if possible, or transform data before serialization".

Definition space_warning : Warning.t :=
  Warning.mk "space" None
    "Space/gap argument prevents fast path optimization" "high"
    "Remove space parameter for compact serialization, or format after serialization".

Definition toJSON_warning (path : string) : Warning.t :=
  Warning.mk "toJSON" (Some path)
    ("Custom toJSON() method found at " +:+ path) "high"
    "Remove toJSON() or call it manually before serialization".

Definition prototype_toJSON_warning (path : string) : Warning.t :=
  Warning.mk "prototype-toJSON" (Some path)
    ("Prototype has custom toJSON() at " +:+ path) "high"
    "Use plain objects without custom prototypes".

Definition indexed_properties_warning (path : string) : Warning.t :=
  Warning.mk "indexed-properties" (Some path)
    ("Object has indexed properties at " +:+ path) "medium"
    "Use arrays for indexed data or rename keys to non-numeric strings".

Definition symbol_keys_warning (path : string) : Warning.t :=
  Warning.mk "symbol-keys" (Some path)
    ("Object has Symbol keys at " +:+ path) "low"
    "Symbols are ignored in JSON but slow down serialization".

Definition non_enumerable_warning (path : string) (names : list string)
  : Warning.t :=
  Warning.mk "non-enumerable" (Some path)
    ("Non-enumerable properties found at " +:+ path +:+ ": "
     +:+ join ", " names) "low"
    "These properties slow down serialization even though they're not included".

(** ** _validateObject (lines 52-137) *)

(** Lines 67-131: the checks on one object node, before its children are
    visited. *)
Definition node_checks (obj : value) (path : string) : M unit :=
  toJSON ← lift (get obj (KString "toJSON"));
  when (is_function toJSON) (push (toJSON_warning path));;
  let proto := Object_getPrototypeOf obj in
  (if truthy proto && negb (is_ObjectPrototype proto)
      && negb (is_ArrayPrototype proto)
   then
     ptoJSON ← lift (get proto (KString "toJSON"));
     when (is_function ptoJSON) (push (prototype_toJSON_warning path))
   else ret tt);;
  let keys := Object_keys obj in
  let hasIndexedProps := existsb isIndexedKey keys in
  when (hasIndexedProps && negb (Array_isArray obj))
       (push (indexed_properties_warning path));;
  let symbolKeys := Object_getOwnPropertySymbols obj in
  when (bool_decide (0 < length symbolKeys)%nat)
       (push (symbol_keys_warning path));;
  let allKeys := Object_getOwnPropertyNames obj in
  let nonEnumerable :=
    List.filter (fun key =>
                   match Object_getOwnPropertyDescriptor obj key with
                   | Some enumerable => negb enumerable
                   | None => false
                   end) allKeys in
  when (bool_decide (0 < length nonEnumerable)%nat)
       (push (non_enumerable_warning path nonEnumerable)).

Fixpoint _validateObject (obj : value) (path : string) : M unit :=
  match obj with
  | VUndefined | VNull => ret tt
  | VString _ | VNumber _ | VBool _ => ret tt
  | VArray proto elems =>
      forEach ← lift (get obj (KString "forEach"));
      if is_builtin "Array.prototype.forEach" forEach then
        (fix each (l : list (option value)) (idx : nat) : M unit :=
           match l with
           | [] => ret tt
           | Some item :: r =>
               _validateObject item
                 (path +:+ "[" +:+ string_of_nat idx +:+ "]");;
               each r (S idx)
           | None :: r =>
               if has_property proto (KString (string_of_nat idx))
               then unmodelled
               else each r (S idx)
           end) elems 0%nat
      else if is_function forEach then unmodelled
      else throw (TypeError "obj.forEach is not a function")
  | VArrayPrototype => ret tt
  | VObject _ props =>
      node_checks obj path;;
      (fix each (ps : list (property value)) : M unit :=
         match ps with
         | [] => ret tt
         | mkProp (KString key) true s :: r =>
             match s with
             | Data v | Accessor v =>
                 _validateObject v (path +:+ "." +:+ key)
             | AccessorThrows e => throw e
             end;;
             each r
         | _ :: r => each r
         end) props
  | VObjectPrototype => node_checks obj path
  | VSymbol _ | VBigInt _ | VFunction _ => ret tt
  end.

(** ** _generateSummary (lines 139-149) *)

Definition has_impact (tier : string) (w : Warning.t) : bool :=
  bool_decide (Warning.impact w = tier).

Definition summary_of (ws : list Warning.t) : string :=
  let highImpact := length (List.filter (has_impact "high") ws) in
  let mediumImpact := length (List.filter (has_impact "medium") ws) in
  let lowImpact := length (List.filter (has_impact "low") ws) in
  if Nat.eqb (length ws) 0 then "Object is fully optimized for V8 fast path"
  else
    "Found " +:+ string_of_nat (length ws) +:+ " issue(s): "
    +:+ string_of_nat highImpact +:+ " high, "
    +:+ string_of_nat mediumImpact +:+ " medium, "
    +:+ string_of_nat lowImpact +:+ " low impact".

Definition _generateSummary : M string :=
  ws ← read_warnings;
  ret (summary_of ws).

(** ** validate (lines 21-50) *)

Module Result.
Record t : Type := mk {
  isOptimized : bool;
  canUseFastPath : bool;
  warnings : loc;
  summary : string
}.
End Result.

Definition validate (obj replacer space : value) : M Result.t :=
  let replacer := default_param replacer VNull in
  let space := default_param space VNull in
  reset_warnings;;
  when (negb (is_null replacer)) (push replacer_warning);;
  when (negb (is_null space) && negb (is_undefined space))
       (push space_warning);;
  _validateObject obj "root";;
  ws ← read_warnings;
  ws_high ← read_warnings;
  warnings ← read_this_warnings;
  summary ← _generateSummary;
  ret (Result.mk (Nat.eqb (length ws) 0)
                 (Nat.eqb (length (List.filter (has_impact "high") ws_high)) 0)
                 warnings summary).

(** ** optimize (lines 156-177) *)

(** The well-known symbol [Symbol.species]. *)
Definition Symbol_species : nat := 0%nat.

(** ArraySpeciesCreate, as [Array.prototype.map] runs it on [obj] before it
    visits the elements: with the default constructor the result is a fresh
    ordinary array. *)
Definition ArraySpeciesCreate (obj : value) : outcome unit :=
  match get obj (KString "constructor") with
  | Normal C =>
      if is_builtin "Array" C then Normal tt
      else
        match C with
        | VUndefined => Normal tt
        | VFunction _ => Unmodelled
        | VArray _ _ | VObject _ _ | VObjectPrototype | VArrayPrototype =>
            match get C (KSymbol Symbol_species) with
            | Normal species =>
                if is_builtin "Array" species then Normal tt
                else
                  match species with
                  | VUndefined | VNull => Normal tt
                  | VFunction _ => Unmodelled
                  | _ => Throw (TypeError "object.constructor[Symbol.species] is not a constructor")
                  end
            | Throw e => Throw e
            | Unmodelled => Unmodelled
            end
        | _ => Throw (TypeError "object.constructor is not a constructor")
        end
  | Throw e => Throw e
  | Unmodelled => Unmodelled
  end.

(** Where a new own property goes in the list of own properties: an array
    index among the indices, in ascending order; another string after the
    strings, before the symbols. *)
Fixpoint insert_index (i : Z) (p : property value)
  (ps : list (property value)) : list (property value) :=
  match ps with
  | [] => [p]
  | q :: r =>
      match pkey q with
      | KString s =>
          match array_index s with
          | Some j => if j <? i then q :: insert_index i p r else p :: ps
          | None => p :: ps
          end
      | KSymbol _ => p :: ps
      end
  end.

Fixpoint insert_string (p : property value) (ps : list (property value))
  : list (property value) :=
  match ps with
  | [] => [p]
  | q :: r =>
      match pkey q with
      | KString _ => q :: insert_string p r
      | KSymbol _ => p :: ps
      end
  end.

Definition insert_prop (ps : list (property value)) (key : string)
  (v : value) : list (property value) :=
  let p := mkProp (KString key) true (Data v) in
  match array_index key with
  | Some i => insert_index i p ps
  | None => insert_string p ps
  end.

(** The value of an own data property is replaced in place. *)
Fixpoint replace_prop (ps : list (property value)) (key : string)
  (v : value) : list (property value) :=
  match ps with
  | [] => []
  | q :: r =>
      if decide (pkey q = KString key) then
        match q with
        | mkProp k e (Data _) => mkProp k e (Data v) :: r
        | _ => q :: r
        end
      else q :: replace_prop r key v
  end.

(** What an assignment [optimized[key] = v] finds on the prototype chain
    from [p] on, when the receiver has no own property [key]:
    - nothing, or a writable data property: the receiver gets a new own
      property (every data property of [Object.prototype] and
      [Array.prototype] is writable, so is the [length] of an array, and
      the model has no read-only data property);
    - the accessor [__proto__] of [Object.prototype], whose setter is
      called on the receiver;
    - a function, whose properties are not modelled (it holds [length] and
      [name] read-only unless they were redefined: the assignment, in the
      strict code of a class body, then throws a TypeError), or an
      accessor property, whose setter is not modelled. *)
Inductive inherited : Type := Creates | SetsPrototype | NotModelled.

Fixpoint inherited_set (p : value) (key : string) : inherited :=
  match p with
  | VNull => Creates
  | VObjectPrototype =>
      if decide (key = "__proto__") then SetsPrototype else Creates
  | VArrayPrototype =>
      if decide (key = "__proto__") then SetsPrototype else Creates
  | VArray p' elems =>
      if decide (key = "length") then Creates
      else
        match array_index key with
        | Some i =>
            match nth_error elems (Z.to_nat i) with
            | Some (Some _) => Creates
            | _ => inherited_set p' key
            end
        | None => inherited_set p' key
        end
  | VObject p' props =>
      match find_prop (KString key) props with
      | Some (mkProp _ _ (Data _)) => Creates
      | Some _ => NotModelled
      | None => inherited_set p' key
      end
  | _ => NotModelled
  end.

(** [optimized[key] = v] on the object under construction (line 173).
    An own data property is overwritten.  Otherwise the prototype chain
    decides: a new own property is created, or the setter of [__proto__]
    replaces the prototype by an object or [null] and ignores any other
    value, creating no own property. *)
Definition obj_set (optimized : value) (key : string) (v : value)
  : outcome value :=
  match optimized with
  | VObject proto props =>
      match find_prop (KString key) props with
      | Some (mkProp _ _ (Data _)) =>
          Normal (VObject proto (replace_prop props key v))
      | Some _ => Unmodelled
      | None =>
          match inherited_set proto key with
          | Creates => Normal (VObject proto (insert_prop props key v))
          | SetsPrototype =>
              Normal (if is_object v || is_null v then VObject v props
                      else optimized)
          | NotModelled => Unmodelled
          end
      end
  | _ => Unmodelled
  end.

Fixpoint optimize (obj : value) : M value :=
  match obj with
  | VArray proto elems =>
      map ← lift (get obj (KString "map"));
      if is_builtin "Array.prototype.map" map then
        lift (ArraySpeciesCreate obj);;
        elems' ←
          (fix each (l : list (option value)) (idx : nat)
             : M (list (option value)) :=
             match l with
             | [] => ret []
             | Some item :: r =>
                 item' ← optimize item;
                 r' ← each r (S idx);
                 ret (Some item' :: r')
             | None :: r =>
                 if has_property proto (KString (string_of_nat idx))
                 then unmodelled
                 else r' ← each r (S idx); ret (None :: r')
             end) elems 0%nat;
        ret (VArray VArrayPrototype elems')
      else if is_function map then unmodelled
      else throw (TypeError "obj.map is not a function")
  | VArrayPrototype => ret (VArray VArrayPrototype [])
  | VObject _ props =>
      (fix each (ps : list (property value)) (optimized : value) : M value :=
         match ps with
         | [] => ret optimized
         | mkProp (KString key) true s :: r =>
             if isIndexedKey key then
               console_warn ("Skipping indexed property: " +:+ key);;
               each r optimized
             else
               match s with
               | Data v | Accessor v =>
                   v' ← optimize v;
                   optimized' ← lift (obj_set optimized key v');
                   each r optimized'
               | AccessorThrows e => throw e
               end
         | _ :: r => each r optimized
         end) props (VObject VObjectPrototype [])
  | VObjectPrototype => ret (VObject VObjectPrototype [])
  | _ => ret obj
  end.

(** ** stringify (lines 186-195) *)

Module Stringified.
Record t : Type := mk {
  json : value;
  validation : Result.t;
  optimized : bool
}.
End Stringified.

Section Serializer.

(** The platform's [JSON.stringify]: given a tree, a replacer and a space
    it returns the text (or [undefined]) or throws. *)
Variable JSON_stringify : value → value → value → outcome value.

Definition call_JSON_stringify (obj replacer space : value) : M value :=
  fun st =>
    (JSON_stringify obj replacer space,
     mkState (heap st) (this_warnings st) (this_strictMode st) (console st)
             (serializer_calls st ++ [(obj, replacer, space)])).

Definition stringify (obj replacer space : value) : M Stringified.t :=
  let replacer := default_param replacer VNull in
  let space := default_param space VNull in
  validation ← validate obj replacer space;
  json ← call_JSON_stringify obj replacer space;
  ret (Stringified.mk json validation (Result.isOptimized validation)).

End Serializer.

(** ** The traversal as a function of the tree

    What [_validateObject] does depends on the tree and the path only: it
    appends warnings to the array behind [this.warnings] and completes.  A
    trace is that list of warnings, in order, with the completion. *)

Definition trace : Type := list Warning.t * outcome unit.

Definition emit (ws : list Warning.t) : trace := (ws, Normal tt).

Definition andthen (a b : trace) : trace :=
  match a.2 with
  | Normal _ => (a.1 ++ b.1, b.2)
  | _ => a
  end.

Definition of_read {A} (o : outcome A) (k : A → trace) : trace :=
  match o with
  | Normal a => k a
  | Throw e => ([], Throw e)
  | Unmodelled => ([], Unmodelled)
  end.

(** Rules 3 to 7 of the validator, each as the warnings it adds at a node. *)
Definition rule_toJSON (toJSON : value) (path : string) : list Warning.t :=
  if is_function toJSON then [toJSON_warning path] else [].

Definition custom_prototype (obj : value) : bool :=
  let proto := Object_getPrototypeOf obj in
  truthy proto && negb (is_ObjectPrototype proto)
  && negb (is_ArrayPrototype proto).

Definition rule_prototype_toJSON (ptoJSON : value) (path : string)
  : list Warning.t :=
  if is_function ptoJSON then [prototype_toJSON_warning path] else [].

Definition rule_indexed (obj : value) (path : string) : list Warning.t :=
  if existsb isIndexedKey (Object_keys obj) && negb (Array_isArray obj)
  then [indexed_properties_warning path] else [].

Definition rule_symbols (obj : value) (path : string) : list Warning.t :=
  if bool_decide (0 < length (Object_getOwnPropertySymbols obj))%nat
  then [symbol_keys_warning path] else [].

Definition non_enumerable_names (obj : value) : list string :=
  List.filter (fun key =>
                 match Object_getOwnPropertyDescriptor obj key with
                 | Some enumerable => negb enumerable
                 | None => false
                 end) (Object_getOwnPropertyNames obj).

Definition rule_non_enumerable (obj : value) (path : string)
  : list Warning.t :=
  if bool_decide (0 < length (non_enumerable_names obj))%nat
  then [non_enumerable_warning path (non_enumerable_names obj)] else [].

Definition node_trace (obj : value) (path : string) : trace :=
  of_read (get obj (KString "toJSON")) (fun toJSON =>
    andthen (emit (rule_toJSON toJSON path))
      (andthen
         (if custom_prototype obj then
            of_read (get (Object_getPrototypeOf obj) (KString "toJSON"))
                    (fun ptoJSON => emit (rule_prototype_toJSON ptoJSON path))
          else emit [])
         (emit (rule_indexed obj path ++ rule_symbols obj path
                ++ rule_non_enumerable obj path)))).

Fixpoint trace_of (obj : value) (path : string) : trace :=
  match obj with
  | VArray proto elems =>
      of_read (get obj (KString "forEach")) (fun forEach =>
        if is_builtin "Array.prototype.forEach" forEach then
          (fix each (l : list (option value)) (idx : nat) : trace :=
             match l with
             | [] => emit []
             | Some item :: r =>
                 andthen
                   (trace_of item (path +:+ "[" +:+ string_of_nat idx +:+ "]"))
                   (each r (S idx))
             | None :: r =>
                 if has_property proto (KString (string_of_nat idx))
                 then ([], Unmodelled)
                 else each r (S idx)
             end) elems 0%nat
        else if is_function forEach then ([], Unmodelled)
        else ([], Throw (TypeError "obj.forEach is not a function")))
  | VObject _ props =>
      andthen (node_trace obj path)
        ((fix each (ps : list (property value)) : trace :=
            match ps with
            | [] => emit []
            | mkProp (KString key) true s :: r =>
                andthen
                  match s with
                  | Data v | Accessor v => trace_of v (path +:+ "." +:+ key)
                  | AccessorThrows e => ([], Throw e)
                  end
                  (each r)
            | _ :: r => each r
            end) props)
  | VObjectPrototype => node_trace obj path
  | _ => emit []
  end.

(** The two call-level rules of [validate]. *)
Definition call_level (replacer space : value) : list Warning.t :=
  (if negb (is_null replacer) then [replacer_warning] else [])
  ++ (if negb (is_null space) && negb (is_undefined space)
      then [space_warning] else []).

(** [ws] pushed one after the other. *)
Definition push_all (ws : list Warning.t) (st : state) : state :=
  fold_left (fun s w => (push w s).2) ws st.

(** The result that [validate] builds from the state it ends in. *)
Definition result_of (st : state) : Result.t :=
  let ws := deref st (this_warnings st) in
  Result.mk (Nat.eqb (length ws) 0)
            (Nat.eqb (length (List.filter (has_impact "high") ws)) 0)
            (this_warnings st) (summary_of ws).

Definition slot_value {V} (s : slot V) : option V :=
  match s with
  | Data v | Accessor v => Some v
  | AccessorThrows _ => None
  end.

(** ** Sample trees *)

Definition data_prop (k : string) (v : value) : property value :=
  mkProp (KString k) true (Data v).

Definition plain_object (ps : list (property value)) : value :=
  VObject VObjectPrototype ps.

Definition plain_array (l : list value) : value :=
  VArray VArrayPrototype (List.map Some l).

Definition number_of_Z (z : Z) : value := VNumber (round_decimal z 0).

(** [{ "0": 2 }] *)
Definition indexed_sample : value := plain_object [data_prop "0" (number_of_Z 2)].

(** [{ "1.5": 1 }] and [{ "-1": 1 }] *)
Definition fraction_sample : value :=
  plain_object [data_prop "1.5" (number_of_Z 1)].
Definition negative_sample : value :=
  plain_object [data_prop "-1" (number_of_Z 1)].

(** ** Notions used in the statements *)

Definition traces (m : M unit) (t : trace) : Prop :=
  ∀ st, m st = (t.2, push_all t.1 st).

Definition after_reset (st : state) : state := (reset_warnings st).2.

(** The state [validate] ends in: a fresh array behind [this.warnings],
    filled with the call-level warnings and then the trace of the tree. *)
Definition validated (obj replacer space : value) (st : state) : state :=
  push_all (call_level (default_param replacer VNull)
                       (default_param space VNull)
            ++ (trace_of obj "root").1)
           (after_reset st).

Definition count_impact (tier : string) (ws : list Warning.t) : nat :=
  length (List.filter (has_impact tier) ws).

Definition tiers : list string := ["high"; "medium"; "low"].

Definition node_types : list string :=
  ["toJSON"; "prototype-toJSON"; "indexed-properties"; "symbol-keys";
   "non-enumerable"].

Definition count_type (ty : string) (ws : list Warning.t) : nat :=
  length (List.filter (fun w => bool_decide (Warning.type w = ty)) ws).

(** The path of a warning extends the path of the node whose visit emits
    it. *)
Definition below (path : string) (w : Warning.t) : Prop :=
  ∃ s, Warning.path w = Some (path +:+ s).

(** The decimal digits of a non-negative integer, without leading zero. *)
Definition is_canonical_integer (s : string) : bool :=
  match take_digits 10 (list_ascii_of_string s) 0 0 with
  | (v, S _, []) => bool_decide (string_of_Z v = s)
  | _ => false
  end.

Definition at_node (ty path : string) (w : Warning.t) : bool :=
  bool_decide (Warning.type w = ty ∧ Warning.path w = Some path).

(** The reads and calls of the traversal of [obj] all complete: no getter
    throws on the way, each array inherits the intrinsic [forEach], and no
    hole of an array is found on its prototype chain. *)
Definition reads (o : outcome value) : bool :=
  match o with Normal _ => true | _ => false end.

Fixpoint readable (obj : value) : bool :=
  match obj with
  | VArray proto elems =>
      match get obj (KString "forEach") with
      | Normal forEach => is_builtin "Array.prototype.forEach" forEach
      | _ => false
      end
      && (fix each (l : list (option value)) (idx : nat) : bool :=
            match l with
            | [] => true
            | Some item :: r => readable item && each r (S idx)
            | None :: r =>
                negb (has_property proto (KString (string_of_nat idx)))
                && each r (S idx)
            end) elems 0%nat
  | VObject proto props =>
      reads (get obj (KString "toJSON"))
      && (if custom_prototype obj then reads (get proto (KString "toJSON"))
          else true)
      && (fix each (ps : list (property value)) : bool :=
            match ps with
            | [] => true
            | mkProp (KString _) true s :: r =>
                match s with
                | Data v | Accessor v => readable v
                | AccessorThrows _ => false
                end && each r
            | _ :: r => each r
            end) props
  | _ => true
  end.

(** [{ get a() { throw ... } }] *)
Definition throwing_sample : value :=
  plain_object [mkProp (KString "a") true (AccessorThrows (UserError "boom"))].

(** [class A extends Array { toJSON() { ... } }] and [new A()] *)
Definition subclass_prototype : value :=
  VObject VArrayPrototype
    [mkProp (KString "constructor") false (Data (VFunction (UserFn 1)));
     mkProp (KString "toJSON") false (Data (VFunction (UserFn 2)))].
Definition subclass_array : value := VArray subclass_prototype [].

(** [Object.create({ toJSON() { ... } })] *)
Definition inheriting_sample : value :=
  VObject (plain_object [data_prop "toJSON" (VFunction (UserFn 2))]) [].

(** The state after the call to the serializer. *)
Definition serializer_called (args : value * value * value) (st : state)
  : state :=
  mkState (heap st) (this_warnings st) (this_strictMode st) (console st)
          (serializer_calls st ++ [args]).

(** An object with a hook on its prototype, a non-enumerable property and
    a symbol-keyed property besides an ordinary one. *)
Definition decorated_sample : value :=
  VObject (plain_object [data_prop "toJSON" (VFunction (UserFn 2))])
    [data_prop "a" (number_of_Z 1);
     mkProp (KString "hidden") false (Data (number_of_Z 2));
     mkProp (KSymbol 7) true (Data (number_of_Z 3))].

(** The data of examples/example.js:
    [{ name: 'John', age: 30, items: ['a', 'b', 'c'] }] *)
Definition example_data : value :=
  plain_object
    [data_prop "name" (VString "John");
     data_prop "age" (number_of_Z 30);
     data_prop "items" (plain_array [VString "a"; VString "b"; VString "c"])].

(** ** optimize as a function of the tree

    [optimize] touches the state only to print: what it returns, and what
    it prints on the way, depend on the tree alone. *)

Definition printed (A : Type) : Type := outcome A * list string.

Definition pret {A} (a : A) : printed A := (Normal a, []).

Definition pbind {A B} (m : printed A) (f : A → printed B) : printed B :=
  match m with
  | (Normal a, l1) => let '(o, l2) := f a in (o, l1 ++ l2)
  | (Throw e, l1) => (Throw e, l1)
  | (Unmodelled, l1) => (Unmodelled, l1)
  end.

Definition pread {A B} (o : outcome A) (f : A → printed B) : printed B :=
  pbind (o, []) f.

(** [obj.map(item => rec(item))] on the elements, from index [idx] on. *)
Definition optimized_elems (rec : value → printed value) (proto : value)
  : list (option value) → nat → printed (list (option value)) :=
  fix each (l : list (option value)) (idx : nat) :=
    match l with
    | [] => pret []
    | Some item :: r =>
        pbind (rec item) (fun item' =>
        pbind (each r (S idx)) (fun r' => pret (Some item' :: r')))
    | None :: r =>
        if has_property proto (KString (string_of_nat idx))
        then (Unmodelled, [])
        else pbind (each r (S idx)) (fun r' => pret (None :: r'))
    end.

(** The loop of lines 166-174 over the own properties, [optimized] being
    the object under construction. *)
Definition optimized_props (rec : value → printed value)
  : list (property value) → value → printed value :=
  fix each (ps : list (property value)) (optimized : value) :=
    match ps with
    | [] => pret optimized
    | mkProp (KString key) true s :: r =>
        if isIndexedKey key then
          pbind (Normal tt, ["Skipping indexed property: " +:+ key])
                (fun _ => each r optimized)
        else
          match s with
          | Data v | Accessor v =>
              pbind (rec v) (fun v' =>
              pread (obj_set optimized key v') (fun optimized' =>
              each r optimized'))
          | AccessorThrows e => (Throw e, [])
          end
    | _ :: r => each r optimized
    end.

Fixpoint optimized (obj : value) : printed value :=
  match obj with
  | VArray proto elems =>
      pread (get obj (KString "map")) (fun map =>
        if is_builtin "Array.prototype.map" map then
          pread (ArraySpeciesCreate obj) (fun _ =>
          pbind (optimized_elems optimized proto elems 0%nat) (fun elems' =>
          pret (VArray VArrayPrototype elems')))
        else if is_function map then (Unmodelled, [])
        else (Throw (TypeError "obj.map is not a function"), []))
  | VArrayPrototype => pret (VArray VArrayPrototype [])
  | VObject _ props =>
      optimized_props optimized props (VObject VObjectPrototype [])
  | VObjectPrototype => pret (VObject VObjectPrototype [])
  | _ => pret obj
  end.

(** [lines] printed by [console.warn]. *)
Definition log (lines : list string) (st : state) : state :=
  mkState (heap st) (this_warnings st) (this_strictMode st)
          (console st ++ lines) (serializer_calls st).

Definition prints {A} (m : M A) (w : printed A) : Prop :=
  ∀ st, m st = (w.1, log w.2 st).

(** ** Shapes, well-formed trees, structural equality *)

Inductive shape : Type := Mapping | Sequence | Leaf.

Definition shape_of (v : value) : shape :=
  match v with
  | VObject _ _ | VObjectPrototype => Mapping
  | VArray _ _ | VArrayPrototype => Sequence
  | _ => Leaf
  end.

(** The own keys of an object are distinct, in the tree and below. *)
Fixpoint wf (obj : value) : Prop :=
  match obj with
  | VArray _ elems =>
      (fix each (l : list (option value)) : Prop :=
         match l with
         | [] => True
         | Some item :: r => wf item ∧ each r
         | None :: r => each r
         end) elems
  | VObject _ props =>
      NoDup (List.map pkey props)
      ∧ (fix each (ps : list (property value)) : Prop :=
           match ps with
           | [] => True
           | mkProp _ _ (Data v | Accessor v) :: r => wf v ∧ each r
           | _ :: r => each r
           end) props
  | _ => True
  end.


(** What a structural comparison reads of a mapping at key [k]: the slot
    of the own enumerable property of that name, if there is one. *)
Definition enumerable_slot (ps : list (property value)) (k : string)
  : option (slot value) :=
  match find_prop (KString k) ps with
  | Some (mkProp _ true s) => Some s
  | _ => None
  end.

Inductive same_slot (R : value → value → Prop)
  : option (slot value) → option (slot value) → Prop :=
| same_absent : same_slot R None None
| same_read s1 s2 v1 v2 :
    slot_value s1 = Some v1 → slot_value s2 = Some v2 → R v1 v2 →
    same_slot R (Some s1) (Some s2)
| same_throw e :
    same_slot R (Some (AccessorThrows e)) (Some (AccessorThrows e)).

Inductive same_element (R : value → value → Prop)
  : option value → option value → Prop :=
| same_hole : same_element R None None
| same_item v1 v2 : R v1 v2 → same_element R (Some v1) (Some v2).

(** Two values are structurally equal: the same leaf; sequences of the same
    length with structurally equal elements and holes at the same indices;
    mappings with the same own enumerable string keys and structurally
    equal values under each of them.  Prototypes, non-enumerable and
    symbol-keyed properties are not compared. *)
Inductive struct_eq : value → value → Prop :=
| struct_eq_leaf v :
    shape_of v = Leaf → struct_eq v v
| struct_eq_array p1 p2 l1 l2 :
    Forall2 (same_element struct_eq) l1 l2 →
    struct_eq (VArray p1 l1) (VArray p2 l2)
| struct_eq_object p1 p2 ps1 ps2 :
    (∀ k, same_slot struct_eq (enumerable_slot ps1 k) (enumerable_slot ps2 k)) →
    struct_eq (VObject p1 ps1) (VObject p2 ps2).

(** A second run of [optimize] on [v] returns a structurally equal value
    and prints nothing. *)
Definition settled (v : value) : Prop :=
  ∃ v', optimized v = (Normal v', []) ∧ struct_eq v' v.

(** The reads and calls of [optimize] on [obj] all complete: no getter
    throws on the way, each array inherits the intrinsic [map] and the
    default constructor, and no hole of an array is found on its prototype
    chain. *)
Fixpoint copyable (obj : value) : bool :=
  match obj with
  | VArray proto elems =>
      match get obj (KString "map") with
      | Normal map => is_builtin "Array.prototype.map" map
      | _ => false
      end
      && match ArraySpeciesCreate obj with Normal _ => true | _ => false end
      && (fix each (l : list (option value)) (idx : nat) : bool :=
            match l with
            | [] => true
            | Some item :: r => copyable item && each r (S idx)
            | None :: r =>
                negb (has_property proto (KString (string_of_nat idx)))
                && each r (S idx)
            end) elems 0%nat
  | VObject _ props =>
      (fix each (ps : list (property value)) : bool :=
         match ps with
         | [] => true
         | mkProp (KString key) true s :: r =>
             (isIndexedKey key
              || match s with
                 | Data v | Accessor v => copyable v
                 | AccessorThrows _ => false
                 end) && each r
         | _ :: r => each r
         end) props
  | _ => true
  end.

(** The object that [optimize] builds: its own properties are enumerable
    data properties with distinct string keys, each satisfying [Q]. *)
Definition built_with (Q : string → value → Prop) (optimized : value) : Prop :=
  match optimized with
  | VObject _ ps =>
      NoDup (List.map pkey ps)
      ∧ Forall (fun p => ∃ k v, p = mkProp (KString k) true (Data v) ∧ Q k v) ps
  | _ => False
  end.


(** No mapping of the tree has an own property named [k]. *)
Fixpoint without_key (k : string) (obj : value) : Prop :=
  match obj with
  | VArray _ elems =>
      (fix each (l : list (option value)) : Prop :=
         match l with
         | [] => True
         | Some item :: r => without_key k item ∧ each r
         | None :: r => each r
         end) elems
  | VObject _ props =>
      ¬ In (KString k) (List.map pkey props)
      ∧ (fix each (ps : list (property value)) : Prop :=
           match ps with
           | [] => True
           | mkProp _ _ (Data v | Accessor v) :: r => without_key k v ∧ each r
           | _ :: r => each r
           end) props
  | _ => True
  end.

(** A tree as [optimize] rebuilds one, at every depth: a mapping is a
    plain object (its prototype is [Object.prototype]) whose own properties
    are enumerable data properties with string keys, none of which passes
    the indexed-key test; a sequence is an array whose prototype is
    [Array.prototype]. *)
Fixpoint rebuilt (obj : value) : Prop :=
  match obj with
  | VArray proto elems =>
      proto = VArrayPrototype
      ∧ (fix each (l : list (option value)) : Prop :=
           match l with
           | [] => True
           | Some item :: r => rebuilt item ∧ each r
           | None :: r => each r
           end) elems
  | VObject proto props =>
      proto = VObjectPrototype
      ∧ (fix each (ps : list (property value)) : Prop :=
           match ps with
           | [] => True
           | mkProp (KString key) true (Data v) :: r =>
               isIndexedKey key = false ∧ rebuilt v ∧ each r
           | _ :: _ => False
           end) props
  | VObjectPrototype | VArrayPrototype => False
  | _ => True
  end.

(** An element of the array that [optimize] returns, next to the element
    of its argument at the same index: a hole for a hole, and for an item
    what [optimize] returns on it. *)
Definition optimized_element (st : state) (e e' : option value) : Prop :=
  match e, e' with
  | None, None => True
  | Some item, Some item' => (optimize item st).1 = Normal item'
  | _, _ => False
  end.

(** The first character of [s] is a decimal digit. *)
Definition head_digit (s : string) : bool :=
  match s with
  | String c _ => match digit_of 10 c with Some _ => true | None => false end
  | EmptyString => false
  end.

(** ** Notions used in the further properties *)

(** What a visit of [obj] at [path] appends to an empty buffer, with its
    completion. *)
Definition visit (obj : value) (path : string) : list Warning.t * outcome unit :=
  let r := _validateObject obj path (constructor false) in
  (deref r.2 (this_warnings r.2), r.1).

(** The instance with its [strictMode] field set to [b]. *)
Definition with_strict (b : bool) (st : state) : state :=
  mkState (heap st) (this_warnings st) b (console st) (serializer_calls st).

(** The impact that goes with each type of warning. *)
Definition impact_of_type (ty : string) : string :=
  if bool_decide (ty = "indexed-properties") then "medium"
  else if bool_decide (ty = "symbol-keys") || bool_decide (ty = "non-enumerable")
       then "low"
       else "high".

(** What the checks at a node (lines 67-131) append to an empty buffer. *)
Definition checks (obj : value) (path : string) : list Warning.t :=
  let r := node_checks obj path (constructor false) in
  deref r.2 (this_warnings r.2).

(** The trace of the loop of lines 60-62 over the elements from index
    [idx] on. *)
Definition elements_trace (proto : value) (path : string)
  : list (option value) → nat → trace :=
  fix each (l : list (option value)) (idx : nat) : trace :=
    match l with
    | [] => emit []
    | Some item :: r =>
        andthen (trace_of item (path +:+ "[" +:+ string_of_nat idx +:+ "]"))
                (each r (S idx))
    | None :: r =>
        if has_property proto (KString (string_of_nat idx))
        then ([], Unmodelled)
        else each r (S idx)
    end.

(** The trace of the loop of lines 133-135 over the own properties. *)
Definition properties_trace (path : string)
  : list (property value) → trace :=
  fix each (ps : list (property value)) : trace :=
    match ps with
    | [] => emit []
    | mkProp (KString key) true s :: r =>
        andthen
          match s with
          | Data v | Accessor v => trace_of v (path +:+ "." +:+ key)
          | AccessorThrows e => ([], Throw e)
          end
          (each r)
    | _ :: r => each r
    end.

(** Plain data: a primitive or a function; an array whose prototype is
    [Array.prototype], of plain data and holes; an object whose prototype
    is [Object.prototype] and whose own properties are enumerable data
    properties with string keys, none of which passes the indexed-key test,
    holding plain data, and no function under the key [toJSON]. *)
Fixpoint plain_data (v : value) : bool :=
  match v with
  | VArray proto elems =>
      is_ArrayPrototype proto
      && (fix each (l : list (option value)) : bool :=
            match l with
            | [] => true
            | Some item :: r => plain_data item && each r
            | None :: r => each r
            end) elems
  | VObject proto props =>
      is_ObjectPrototype proto
      && (fix each (ps : list (property value)) : bool :=
            match ps with
            | [] => true
            | mkProp (KString key) true (Data v) :: r =>
                negb (isIndexedKey key)
                && negb (bool_decide (key = "toJSON") && is_function v)
                && plain_data v && each r
            | _ :: r => false
            end) props
  | VObjectPrototype | VArrayPrototype => false
  | _ => true
  end.



(** ** benchmark (lines 203-221) *)

Module Benchmark.
Record t : Type := mk {
  iterations : number;
  totalTime : number;
  averageTime : number;
  opsPerSecond : number;
  validation : Result.t
}.
End Benchmark.

(** [x - y] and [x / y] on Numbers. *)
Definition js_sub (x y : number) : number := SFsub prec64 emax64 x y.
Definition js_div (x y : number) : number := SFdiv prec64 emax64 x y.

Section Benchmark.

(** The platform: [JSON.stringify], and what the two calls of
    [performance.now()] return, before and after the loop. *)
Variable JSON_stringify : value → value → value → outcome value.
Variable start end_ : number.

(** The loop of lines 206-208, for [iterations] the Number [n]: each round
    calls [JSON.stringify(obj)], with no replacer and no space. *)
Fixpoint stringify_loop (obj : value) (n : nat) : M unit :=
  match n with
  | O => ret tt
  | S k =>
      call_JSON_stringify JSON_stringify obj VUndefined VUndefined;;
      stringify_loop obj k
  end.

(** [iterations] is [None] for an argument that is missing or [undefined],
    and [Some n] for the Number [n], a non-negative integer.  Above [2^53]
    the counter [i] of the loop stops growing; that run is not modelled. *)
Definition benchmark (obj : value) (iterations : option nat)
  : M Benchmark.t :=
  let iterations := default 1000%nat iterations in
  if 2 ^ 53 <? Z.of_nat iterations then unmodelled
  else
    stringify_loop obj iterations;;
    let iterations := round_decimal (Z.of_nat iterations) 0 in
    let avgTime := js_div (js_sub end_ start) iterations in
    validation ← validate obj VUndefined VUndefined;
    ret (Benchmark.mk iterations (js_sub end_ start) avgTime
                      (js_div (round_decimal 1000 0) avgTime) validation).

End Benchmark.

(** The state after [n] calls of the serializer with [args]. *)
Definition serializer_called_times (n : nat) (args : value * value * value)
  (st : state) : state :=
  mkState (heap st) (this_warnings st) (this_strictMode st) (console st)
          (serializer_calls st ++ replicate n args).

(** Case analysis on which of the rules at a node fire. *)
Ltac rule_cases :=
  unfold rule_toJSON, rule_prototype_toJSON, rule_indexed, rule_symbols,
    rule_non_enumerable;
  repeat match goal with
         | |- context [if ?b then _ else _] => destruct b eqn:?
         end;
  simpl; intuition (try discriminate; try congruence).

(** * Properties *)

(** ** Induction on values: the elements of an array, the values held by
    the own properties of an object *)

Section ValueInd.
Variable P : value → Prop.
Hypothesis Hleaf : ∀ v,
  match v with VArray _ _ | VObject _ _ => False | _ => True end → P v.
Hypothesis Harray : ∀ proto elems,
  P proto → Forall (fun e => ∀ v, e = Some v → P v) elems →
  P (VArray proto elems).
Hypothesis Hobject : ∀ proto props,
  P proto →
  Forall (fun p => ∀ v, slot_value (pslot p) = Some v → P v) props →
  P (VObject proto props).

Lemma value_ind (v : value) : P v.
Proof.
  revert v. fix IH 1. intros v. destruct v as [ | | | | | | | |proto elems|proto props| | ].
  1-8, 11-12: apply Hleaf; exact I.
  - apply Harray; [apply IH|].
    induction elems as [|e r IHr]; constructor; [|exact IHr].
    destruct e as [x|]; intros v Hv; [|discriminate Hv].
    injection Hv as <-. apply IH.
  - apply Hobject; [apply IH|].
    induction props as [|p r IHr]; constructor; [|exact IHr].
    destruct p as [k e [x|x|x]]; intros v Hv; simpl in Hv;
      [| |discriminate Hv]; injection Hv as <-; apply IH.
Qed.
End ValueInd.

(** ** Running a computation *)

Lemma bind_Normal {A B} (m : M A) (f : A → M B) st a st' :
  m st = (Normal a, st') → (m ≫= f) st = f a st'.
Proof. intros H. unfold mbind, M_bind, bind. by rewrite H. Qed.

Lemma bind_Throw {A B} (m : M A) (f : A → M B) st e st' :
  m st = (Throw e, st') → (m ≫= f) st = (Throw e, st').
Proof. intros H. unfold mbind, M_bind, bind. by rewrite H. Qed.

Lemma bind_Unmodelled {A B} (m : M A) (f : A → M B) st st' :
  m st = (Unmodelled, st') → (m ≫= f) st = (Unmodelled, st').
Proof. intros H. unfold mbind, M_bind, bind. by rewrite H. Qed.

Lemma bind_lift {A B} (o : outcome A) (f : A → M B) st :
  (lift o ≫= f) st =
  match o with
  | Normal a => f a st
  | Throw e => (Throw e, st)
  | Unmodelled => (Unmodelled, st)
  end.
Proof. unfold mbind, M_bind, bind, lift. by destruct o. Qed.

(** ** Pushing warnings *)

Lemma push_all_app ws1 ws2 st :
  push_all (ws1 ++ ws2) st = push_all ws2 (push_all ws1 st).
Proof. apply fold_left_app. Qed.

Lemma this_warnings_push_all ws st :
  this_warnings (push_all ws st) = this_warnings st.
Proof. revert st. induction ws as [|w ws IH]; intros st; [done|]. simpl. by rewrite IH. Qed.

Lemma console_push_all ws st : console (push_all ws st) = console st.
Proof. revert st. induction ws as [|w ws IH]; intros st; [done|]. simpl. by rewrite IH. Qed.

Lemma serializer_calls_push_all ws st :
  serializer_calls (push_all ws st) = serializer_calls st.
Proof. revert st. induction ws as [|w ws IH]; intros st; [done|]. simpl. by rewrite IH. Qed.

(** The array behind [this.warnings] grows by [ws]; no other array
    changes. *)
Lemma deref_push_all ws st :
  deref (push_all ws st) (this_warnings st) = deref st (this_warnings st) ++ ws.
Proof.
  revert st. induction ws as [|w ws IH]; intros st; simpl.
  - by rewrite app_nil_r.
  - specialize (IH (push w st).2). simpl in IH. rewrite IH.
    unfold deref at 1. simpl. rewrite lookup_insert_eq. simpl.
    by rewrite <- app_assoc.
Qed.

Lemma deref_push_all_ne ws st l :
  l ≠ this_warnings st → deref (push_all ws st) l = deref st l.
Proof.
  revert st. induction ws as [|w ws IH]; intros st Hl; [done|]. simpl.
  rewrite IH by done. unfold deref. simpl. by rewrite lookup_insert_ne.
Qed.

(** ** The traversal refines its trace *)

Lemma traces_ret : traces (ret tt) (emit []).
Proof. done. Qed.

Lemma traces_throw e : traces (throw e) ([], Throw e).
Proof. done. Qed.

Lemma traces_unmodelled : traces unmodelled ([], Unmodelled).
Proof. done. Qed.

Lemma traces_when_push b w :
  traces (when b (push w)) (emit (if b then [w] else [])).
Proof. by destruct b. Qed.

Lemma traces_seq m k a b :
  traces m a → traces k b → traces (m ;; k) (andthen a b).
Proof.
  intros Hm Hk st. unfold mbind, M_bind, bind. rewrite Hm.
  unfold andthen. destruct a as [ws [[]|e|]]; simpl; try done.
  rewrite Hk. by rewrite push_all_app.
Qed.

Lemma traces_read {A} (o : outcome A) (k : A → M unit) (t : A → trace) :
  (∀ a, traces (k a) (t a)) → traces (lift o ≫= k) (of_read o t).
Proof.
  intros Hk st. rewrite bind_lift. destruct o; simpl; try done. apply Hk.
Qed.

Lemma node_checks_traces obj path :
  traces (node_checks obj path) (node_trace obj path).
Proof.
  unfold node_checks, node_trace.
  apply traces_read; intros toJSON.
  apply traces_seq; [apply traces_when_push|].
  apply traces_seq.
  - unfold custom_prototype. destruct (_ && _); [|apply traces_ret].
    apply traces_read; intros ptoJSON. apply traces_when_push.
  - intros st. unfold rule_indexed, rule_symbols, rule_non_enumerable,
      non_enumerable_names.
    unfold mbind, M_bind, bind.
    repeat match goal with
           | |- context [when ?b _] => destruct b; simpl
           end; done.
Qed.

Lemma _validateObject_traces obj :
  ∀ path, traces (_validateObject obj path) (trace_of obj path).
Proof.
  induction obj as [v Hv|proto elems _ IH|proto props _ IH] using value_ind;
    intros path.
  - destruct v; first [done|apply traces_ret|apply node_checks_traces].
  - simpl. apply traces_read; intros forEach.
    destruct (is_builtin _ _).
    + generalize 0%nat. induction IH as [|e r He _ IHr]; intros idx.
      * apply traces_ret.
      * destruct e as [item|].
        -- apply traces_seq; [by apply He|apply IHr].
        -- destruct (has_property _ _); [apply traces_unmodelled|apply IHr].
    + destruct (is_function _); [apply traces_unmodelled|apply traces_throw].
  - simpl. apply traces_seq; [apply node_checks_traces|].
    induction IH as [|p r Hp _ IHr]; [apply traces_ret|].
    destruct p as [[key|id] [] s]; try apply IHr.
    apply traces_seq; [|apply IHr].
    destruct s as [v|v|e]; [by apply Hp|by apply Hp|apply traces_throw].
Qed.

(** ** validate, in one equation *)

Lemma deref_after_reset st :
  deref (after_reset st) (this_warnings (after_reset st)) = [].
Proof. unfold deref, after_reset. simpl. by rewrite lookup_insert_eq. Qed.

Lemma this_warnings_after_reset st :
  this_warnings (after_reset st) = fresh (dom (heap st)).
Proof. done. Qed.

Lemma validate_eq obj replacer space st :
  validate obj replacer space st =
  (match (trace_of obj "root").2 with
   | Normal _ => Normal (result_of (validated obj replacer space st))
   | Throw e => Throw e
   | Unmodelled => Unmodelled
   end, validated obj replacer space st).
Proof.
  unfold validate, validated, call_level.
  set (r := default_param replacer VNull). set (s := default_param space VNull).
  unfold mbind, M_bind, bind. simpl. fold (after_reset st).
  rewrite (traces_when_push _ replacer_warning (after_reset st)). simpl.
  rewrite (traces_when_push _ space_warning). simpl.
  rewrite (_validateObject_traces obj "root").
  rewrite !push_all_app.
  destruct (trace_of obj "root") as [ws [[]|e|]]; done.
Qed.

Lemma deref_validated obj replacer space st :
  deref (validated obj replacer space st)
        (this_warnings (validated obj replacer space st)) =
  call_level (default_param replacer VNull) (default_param space VNull)
  ++ (trace_of obj "root").1.
Proof.
  unfold validated. rewrite this_warnings_push_all, deref_push_all.
  by rewrite deref_after_reset.
Qed.

(** ** The flags of a Validation Result *)

Lemma filter_length_0 {A} (f : A → bool) (l : list A) :
  Nat.eqb (length (List.filter f l)) 0 = true ↔ ∀ x, In x l → f x = false.
Proof.
  rewrite Nat.eqb_eq. induction l as [|a l IH]; simpl.
  - split; [by intros _ x []|done].
  - destruct (f a) eqn:Hfa; simpl.
    + split; [done|]. intros H. specialize (H a (or_introl eq_refl)). congruence.
    + rewrite IH. split.
      * intros H x [<-|Hx]; auto.
      * intros H x Hx. apply H. by right.
Qed.

Lemma validate_Normal_inv obj replacer space st r st' :
  validate obj replacer space st = (Normal r, st') →
  st' = validated obj replacer space st ∧ r = result_of st'.
Proof.
  rewrite validate_eq. destruct (trace_of obj "root").2; naive_solver.
Qed.

(** A result can allow the fast path without being optimized: [{ "0": 2 }]
    draws one medium-impact warning. *)
Lemma fast_path_not_optimized :
  ∃ r0 st0,
    validate indexed_sample VNull VNull (constructor false) = (Normal r0, st0)
    ∧ Result.canUseFastPath r0 = true ∧ Result.isOptimized r0 = false.
Proof.
  eexists _, _. split; [vm_compute; reflexivity|]. by vm_compute.
Qed.

(** C1: in the result of a call to [validate], [isOptimized] holds iff the
    warning list is empty, [canUseFastPath] holds iff no warning of the list
    has impact "high", hence [isOptimized] implies [canUseFastPath]; the
    converse fails for some call. *)
Theorem validate_flags obj replacer space st r st' :
  validate obj replacer space st = (Normal r, st') →
  let ws := deref st' (Result.warnings r) in
  (Result.isOptimized r = true ↔ ws = [])
  ∧ (Result.canUseFastPath r = true
     ↔ ∀ w, In w ws → Warning.impact w ≠ "high")
  ∧ (Result.isOptimized r = true → Result.canUseFastPath r = true)
  ∧ (∃ r0 st0,
       validate indexed_sample VNull VNull (constructor false)
       = (Normal r0, st0)
       ∧ Result.canUseFastPath r0 = true ∧ Result.isOptimized r0 = false).
Proof.
  intros [-> ->]%validate_Normal_inv ws.
  split_and!; [| | |exact fast_path_not_optimized];
    subst ws; cbn [result_of Result.isOptimized Result.canUseFastPath
                   Result.warnings];
    set (ws := deref _ _).
  - rewrite Nat.eqb_eq. by destruct ws.
  - rewrite filter_length_0. unfold has_impact.
    split; intros H w Hw; specialize (H w Hw).
    + by apply bool_decide_eq_false in H.
    + by apply bool_decide_eq_false.
  - rewrite !Nat.eqb_eq. by destruct ws.
Qed.

Lemma validate_flags_witness :
  ∃ r st',
    validate indexed_sample VNull VNull (constructor false) = (Normal r, st')
    ∧ (Result.isOptimized r = true ↔ deref st' (Result.warnings r) = []).
Proof.
  eexists _, _. split; [vm_compute; reflexivity|].
  eapply (validate_flags indexed_sample VNull VNull (constructor false)).
  vm_compute; reflexivity.
Defined.

(** ** The summary *)

Lemma count_tiers ws :
  Forall (fun w => In (Warning.impact w) tiers) ws →
  length ws
  = (count_impact "high" ws + count_impact "medium" ws
     + count_impact "low" ws)%nat.
Proof.
  unfold count_impact. induction 1 as [|w ws Hw _ IH]; [done|].
  simpl. rewrite IH. unfold has_impact.
  destruct Hw as [<-|[<-|[<-|[]]]]; simpl; lia.
Qed.

Lemma _generateSummary_eq st :
  _generateSummary st
  = (Normal (summary_of (deref st (this_warnings st))), st).
Proof. done. Qed.

(** C6: the summary is a function of the warning list alone, computed
    without a change of state: the fixed message for the empty list,
    otherwise the total and the counts per tier in the order high, medium,
    low; with 2 high, 1 medium and 0 low warnings it reads
    "Found 3 issue(s): 2 high, 1 medium, 0 low impact". *)
Theorem summary_by_tier (ws : list Warning.t) :
  Forall (fun w => In (Warning.impact w) tiers) ws →
  (∀ st, deref st (this_warnings st) = ws →
         _generateSummary st = (Normal (summary_of ws), st))
  ∧ (∀ obj replacer space st r st',
       validate obj replacer space st = (Normal r, st') →
       deref st' (Result.warnings r) = ws →
       Result.summary r = summary_of ws)
  ∧ (ws = [] → summary_of ws = "Object is fully optimized for V8 fast path")
  ∧ (ws ≠ [] →
     summary_of ws
     = "Found " +:+ string_of_nat (length ws) +:+ " issue(s): "
       +:+ string_of_nat (count_impact "high" ws) +:+ " high, "
       +:+ string_of_nat (count_impact "medium" ws) +:+ " medium, "
       +:+ string_of_nat (count_impact "low" ws) +:+ " low impact")
  ∧ (count_impact "high" ws = 2%nat → count_impact "medium" ws = 1%nat →
     count_impact "low" ws = 0%nat →
     summary_of ws = "Found 3 issue(s): 2 high, 1 medium, 0 low impact").
Proof.
  intros Htiers. split_and!.
  - intros st <-. apply _generateSummary_eq.
  - intros obj replacer space st r st' [-> ->]%validate_Normal_inv <-. done.
  - by intros ->.
  - intros Hne. unfold summary_of, count_impact. by destruct ws.
  - intros Hh Hm Hl. pose proof (count_tiers ws Htiers) as Hlen.
    rewrite Hh, Hm, Hl in Hlen. unfold summary_of.
    fold (count_impact "high" ws) (count_impact "medium" ws)
         (count_impact "low" ws).
    rewrite Hlen, Hh, Hm, Hl. reflexivity.
Qed.

Lemma summary_by_tier_witness :
  summary_of [replacer_warning; space_warning; indexed_properties_warning "root"]
  = "Found 3 issue(s): 2 high, 1 medium, 0 low impact".
Proof.
  apply (summary_by_tier
           [replacer_warning; space_warning; indexed_properties_warning "root"]).
  - repeat constructor; simpl; tauto.
  - reflexivity.
  - reflexivity.
  - reflexivity.
Defined.

(** ** What the traversal can emit *)

Lemma andthen_fst_Forall (Q : Warning.t → Prop) a b :
  Forall Q a.1 → Forall Q b.1 → Forall Q (andthen a b).1.
Proof.
  intros Ha Hb. unfold andthen. destruct a.2; simpl; [|done..].
  by apply Forall_app.
Qed.

Lemma of_read_fst_Forall {A} (Q : Warning.t → Prop) (o : outcome A) k :
  (∀ a, Forall Q (k a).1) → Forall Q (of_read o k).1.
Proof. intros Hk. destruct o; simpl; auto. Qed.

Lemma node_trace_shape obj path :
  Forall (fun w => In (Warning.type w) node_types
                   ∧ Warning.path w = Some path)
         (node_trace obj path).1.
Proof.
  assert (Hif : ∀ (b : bool) w,
             In (Warning.type w) node_types → Warning.path w = Some path →
             Forall (fun w => In (Warning.type w) node_types
                              ∧ Warning.path w = Some path)
                    (if b then [w] else [])).
  { intros [] w ??; [apply Forall_cons_2; [done|]|]; apply Forall_nil_2. }
  unfold node_trace. apply of_read_fst_Forall; intros toJSON.
  apply andthen_fst_Forall; [|apply andthen_fst_Forall].
  - apply Hif; simpl; auto 10.
  - destruct (custom_prototype obj); [|by constructor].
    apply of_read_fst_Forall; intros ptoJSON. apply Hif; simpl; auto 10.
  - unfold emit, rule_indexed, rule_symbols, rule_non_enumerable. simpl.
    repeat apply Forall_app_2; apply Hif; simpl; auto 10.
Qed.

(** A property of warnings that holds of what each node emits, and that is
    inherited from a longer path, holds along the whole trace. *)
Lemma trace_of_Forall (Q : string → Warning.t → Prop) :
  (∀ path s w, Q (path +:+ s) w → Q path w) →
  (∀ obj path, Forall (Q path) (node_trace obj path).1) →
  ∀ obj path, Forall (Q path) (trace_of obj path).1.
Proof.
  intros Hmono Hnode obj.
  induction obj as [v Hv|proto elems _ IH|proto props _ IH] using value_ind;
    intros path.
  - destruct v; first [done|by constructor|apply Hnode].
  - simpl. apply of_read_fst_Forall; intros forEach.
    destruct (is_builtin _ _); [|by destruct (is_function _); constructor].
    generalize 0%nat. induction IH as [|e r He _ IHr]; intros idx.
    + constructor.
    + destruct e as [item|].
      * apply andthen_fst_Forall; [|apply IHr].
        eapply Forall_impl; [by apply He|]. intros w Hw. by eapply Hmono.
      * destruct (has_property _ _); [constructor|apply IHr].
  - simpl. apply andthen_fst_Forall; [apply Hnode|].
    induction IH as [|p r Hp _ IHr]; [constructor|].
    destruct p as [[key|id] [] s]; try apply IHr.
    apply andthen_fst_Forall; [|apply IHr].
    destruct s as [v|v|e]; [| |constructor];
      (eapply Forall_impl; [by apply Hp|]; intros w Hw; by eapply Hmono).
Qed.

Lemma trace_of_types obj path :
  Forall (fun w => In (Warning.type w) node_types) (trace_of obj path).1.
Proof.
  apply (trace_of_Forall (fun _ w => In (Warning.type w) node_types)).
  - done.
  - intros o p. eapply Forall_impl; [apply node_trace_shape|]. by intros w [? _].
Qed.

(** ** The call-level rules *)

Lemma count_type_app ty ws1 ws2 :
  count_type ty (ws1 ++ ws2) = (count_type ty ws1 + count_type ty ws2)%nat.
Proof. unfold count_type. by rewrite List.filter_app, length_app. Qed.

Lemma count_type_0 ty ws :
  Forall (fun w => Warning.type w ≠ ty) ws → count_type ty ws = 0%nat.
Proof.
  unfold count_type. induction 1 as [|w ws Hw _ IH]; [done|]. simpl.
  by rewrite bool_decide_eq_false_2.
Qed.

Lemma count_type_nodes ty ws :
  ¬ In ty node_types → Forall (fun w => In (Warning.type w) node_types) ws →
  count_type ty ws = 0%nat.
Proof.
  intros Hty Hws. apply count_type_0. eapply Forall_impl; [exact Hws|].
  intros w Hw Heq. apply Hty. by rewrite <- Heq.
Qed.

Lemma validate_buffer obj replacer space st o st' :
  validate obj replacer space st = (o, st') →
  deref st' (this_warnings st')
  = call_level (default_param replacer VNull) (default_param space VNull)
    ++ (trace_of obj "root").1
  ∧ ∀ r, o = Normal r → Result.warnings r = this_warnings st'.
Proof.
  rewrite validate_eq. intros [= <- <-]. split; [apply deref_validated|].
  intros r. by destruct (trace_of obj "root").2; intros [= <-].
Qed.

Lemma call_level_replacer r s :
  r ≠ VNull →
  In replacer_warning (call_level r s)
  ∧ count_type "replacer" (call_level r s) = 1%nat.
Proof.
  intros Hr. unfold call_level.
  destruct (negb (is_null r)) eqn:Er; [|by destruct r].
  destruct (negb (is_null s) && negb (is_undefined s)); simpl; auto.
Qed.

Lemma call_level_space r s :
  s ≠ VNull → s ≠ VUndefined →
  In space_warning (call_level r s)
  ∧ count_type "space" (call_level r s) = 1%nat.
Proof.
  intros Hs Hs'. unfold call_level.
  destruct (negb (is_null s) && negb (is_undefined s)) eqn:Es;
    [|by destruct s].
  destruct (negb (is_null r)); simpl; auto.
Qed.

(** C5: whatever the tree, a call to [validate] whose replacer parameter is
    not null leaves a high-impact warning of type replacer in the warning
    list, and one whose space parameter is neither null nor undefined a
    high-impact warning of type space; each occurs once, and both come
    before every warning of the traversal.  (An argument that is omitted or
    [undefined] is a parameter bound to [null], line 21.) *)
Theorem call_level_warnings obj replacer space st o st' :
  validate obj replacer space st = (o, st') →
  let replacer' := default_param replacer VNull in
  let space' := default_param space VNull in
  let ws := deref st' (this_warnings st') in
  ∃ calls nodes,
    ws = calls ++ nodes
    ∧ (∀ r, o = Normal r → deref st' (Result.warnings r) = ws)
    ∧ Forall (fun w => In (Warning.type w) node_types) nodes
    ∧ Forall (fun w => w = replacer_warning ∨ w = space_warning) calls
    ∧ (replacer' ≠ VNull →
       In replacer_warning calls ∧ count_type "replacer" ws = 1%nat
       ∧ Warning.impact replacer_warning = "high")
    ∧ (space' ≠ VNull → space' ≠ VUndefined →
       In space_warning calls ∧ count_type "space" ws = 1%nat
       ∧ Warning.impact space_warning = "high").
Proof.
  intros Hrun replacer' space' ws.
  destruct (validate_buffer _ _ _ _ _ _ Hrun) as [Hws Hres].
  exists (call_level replacer' space'), (trace_of obj "root").1.
  pose proof (trace_of_types obj "root") as Hnodes.
  assert (Hr0 : count_type "replacer" (trace_of obj "root").1 = 0%nat).
  { apply count_type_nodes; [|done]. simpl. intuition discriminate. }
  assert (Hs0 : count_type "space" (trace_of obj "root").1 = 0%nat).
  { apply count_type_nodes; [|done]. simpl. intuition discriminate. }
  split_and!; try done.
  - intros r Hr. by rewrite (Hres r Hr).
  - unfold call_level.
    destruct (negb (is_null replacer')),
      (negb (is_null space') && negb (is_undefined space')); simpl;
      repeat (apply Forall_cons_2; [auto|]); apply Forall_nil_2.
  - intros Hr. subst ws. rewrite Hws, count_type_app, Hr0, Nat.add_0_r.
    destruct (call_level_replacer replacer' space' Hr). done.
  - intros Hs Hs'. subst ws. rewrite Hws, count_type_app, Hs0, Nat.add_0_r.
    destruct (call_level_space replacer' space' Hs Hs'). done.
Qed.

Lemma call_level_warnings_witness :
  ∃ st',
    In replacer_warning (deref st' (this_warnings st'))
    ∧ In space_warning (deref st' (this_warnings st')).
Proof.
  destruct (call_level_warnings (plain_object []) (VFunction (UserFn 0))
              (number_of_Z 2) (constructor false) _ _ eq_refl)
    as (calls & nodes & Hws & _ & _ & _ & Hr & Hs).
  eexists. rewrite Hws.
  split; apply in_or_app; left.
  - apply Hr. discriminate.
  - apply Hs; discriminate.
Defined.

(** ** Paths *)

Lemma append_assoc (a b c : string) : (a +:+ b) +:+ c = a +:+ (b +:+ c).
Proof.
  induction a as [|x a IH]; [done|].
  change (String x ((a +:+ b) +:+ c) = String x (a +:+ (b +:+ c))).
  by f_equal.
Qed.

Lemma append_nil_r (a : string) : a +:+ "" = a.
Proof.
  induction a as [|x a IH]; [done|].
  change (String x (a +:+ "") = String x a). by f_equal.
Qed.

Lemma append_ne (a : string) (c : ascii) (s : string) :
  a +:+ String c s ≠ a.
Proof.
  intros H. rewrite <- (append_nil_r a) in H at 2.
  by apply String.app_inj in H.
Qed.

Lemma below_mono path s w : below (path +:+ s) w → below path w.
Proof. intros [s' H]. exists (s +:+ s'). by rewrite <- append_assoc. Qed.

Lemma trace_of_below obj path : Forall (below path) (trace_of obj path).1.
Proof.
  apply (trace_of_Forall below); [apply below_mono|].
  intros o p. eapply Forall_impl; [apply node_trace_shape|].
  intros w [_ Hw]. exists "". by rewrite append_nil_r.
Qed.

(** What the visit of an array emits comes from its elements, below
    [path[...]]. *)
Lemma trace_of_array_below proto elems path :
  Forall (below (path +:+ "[")) (trace_of (VArray proto elems) path).1.
Proof.
  simpl. apply of_read_fst_Forall; intros forEach.
  destruct (is_builtin _ _); [|by destruct (is_function _); constructor].
  generalize 0%nat. induction elems as [|e r IHr]; intros idx; [constructor|].
  destruct e as [item|].
  - apply andthen_fst_Forall; [|apply IHr].
    eapply Forall_impl; [apply trace_of_below|]. intros w Hw.
    rewrite <- append_assoc in Hw. by eapply below_mono.
  - destruct (has_property _ _); [constructor|apply IHr].
Qed.

(** The visit of an object emits the warnings of the node, then those of
    its children, below [path.]. *)
Lemma trace_of_object_split proto props path :
  ∃ children,
    trace_of (VObject proto props) path
    = andthen (node_trace (VObject proto props) path) children
    ∧ Forall (below (path +:+ ".")) children.1.
Proof.
  simpl. eexists. split; [reflexivity|].
  induction props as [|p r IHr]; [constructor|].
  destruct p as [[key|id] [] s]; try apply IHr.
  apply andthen_fst_Forall; [|apply IHr].
  destruct s as [v|v|e]; [| |constructor];
    (eapply Forall_impl; [apply trace_of_below|]; intros w Hw;
     rewrite <- append_assoc in Hw; by eapply below_mono).
Qed.

Lemma below_child_ne path c s w :
  below (path +:+ String c s) w → Warning.path w ≠ Some path.
Proof.
  intros [s' H] H'. rewrite H' in H. injection H as H.
  rewrite append_assoc in H. symmetry in H.
  change (String c s +:+ s') with (String c (s +:+ s')) in H.
  by apply append_ne in H.
Qed.

(** ** Rule 5: indexed properties *)

(** When the checks at a node complete, what they emit is the hook
    warnings, then rules 5, 6 and 7. *)
Lemma node_trace_Normal obj path :
  (node_trace obj path).2 = Normal tt →
  ∃ hooks,
    (node_trace obj path).1
    = hooks ++ rule_indexed obj path ++ rule_symbols obj path
      ++ rule_non_enumerable obj path
    ∧ Forall (fun w => Warning.type w = "toJSON"
                       ∨ Warning.type w = "prototype-toJSON") hooks.
Proof.
  unfold node_trace. destruct (get obj (KString "toJSON")) as [toJSON|e|];
    simpl; [|done..].
  unfold andthen at 1. simpl. unfold andthen.
  destruct (custom_prototype obj).
  - destruct (get _ _) as [ptoJSON|e|]; simpl; [|done..]. intros _.
    exists (rule_toJSON toJSON path ++ rule_prototype_toJSON ptoJSON path).
    rewrite <- app_assoc. split; [done|].
    unfold rule_toJSON, rule_prototype_toJSON.
    destruct (is_function toJSON), (is_function ptoJSON); simpl;
      repeat (apply Forall_cons_2; [simpl; auto|]); apply Forall_nil_2.
  - simpl. intros _. exists (rule_toJSON toJSON path). split; [done|].
    unfold rule_toJSON. destruct (is_function toJSON);
      repeat (apply Forall_cons_2; [simpl; auto|]); apply Forall_nil_2.
Qed.

Lemma filter_at_node_0 ty path ws :
  Forall (fun w => Warning.type w ≠ ty ∨ Warning.path w ≠ Some path) ws →
  List.filter (at_node ty path) ws = [].
Proof.
  induction 1 as [|w ws Hw _ IH]; [done|]. simpl. unfold at_node at 1.
  rewrite bool_decide_eq_false_2; [done|]. intros [??]. by destruct Hw.
Qed.

Lemma existsb_isIndexedKey keys :
  existsb isIndexedKey keys = true
  ↔ ∃ key, In key keys ∧ isIndexedKey key = true.
Proof. apply existsb_exists. Qed.

Lemma In_rule_indexed obj path w :
  In w (rule_indexed obj path) ↔
  w = indexed_properties_warning path
  ∧ existsb isIndexedKey (Object_keys obj) = true
  ∧ Array_isArray obj = false.
Proof.
  unfold rule_indexed.
  destruct (existsb _ _), (Array_isArray obj); simpl; intuition congruence.
Qed.

(** C2, as the code has it: when the checks at a non-array object node
    complete, the visit emits the medium-impact indexed-properties warning
    at the path of the node iff some own enumerable string key passes the
    test [!isNaN(num) && num >= 0 && String(num) === key] with
    [num = Number(key)], and at most once; "0" and "42" pass the test, "00"
    and "1e2" do not; nor is the test that of a canonical integer or of a
    round trip: "1.5", no integer, passes it, and "-1", which the
    conversion to a number and back reproduces, does not; the visit of an
    array emits no warning at the path of the array. *)
Theorem indexed_properties_rule proto props path st :
  let obj := VObject proto props in
  (node_checks obj path st).1 = Normal tt →
  ∃ ws o,
    _validateObject obj path st = (o, push_all ws st)
    ∧ (In (indexed_properties_warning path) ws
       ↔ ∃ key, In key (Object_keys obj) ∧ isIndexedKey key = true)
    ∧ (length (List.filter (at_node "indexed-properties" path) ws) ≤ 1)%nat
    ∧ Warning.impact (indexed_properties_warning path) = "medium"
    ∧ (isIndexedKey "0" = true ∧ isIndexedKey "42" = true
       ∧ isIndexedKey "00" = false ∧ isIndexedKey "1e2" = false)
    ∧ (is_canonical_integer "1.5" = false ∧ isIndexedKey "1.5" = true
       ∧ js_String (js_Number "-1") = "-1" ∧ isIndexedKey "-1" = false)
    ∧ (∀ aproto elems, ∃ aws ao,
         _validateObject (VArray aproto elems) path st = (ao, push_all aws st)
         ∧ ∀ w, In w aws → Warning.path w ≠ Some path).
Proof.
  intros obj Hnode.
  rewrite (node_checks_traces obj path st) in Hnode. simpl in Hnode.
  destruct (trace_of_object_split proto props path) as (children & Hsplit & Hch).
  fold obj in Hsplit.
  destruct (node_trace_Normal obj path Hnode) as (hooks & Hown & Hhooks).
  exists (trace_of obj path).1, (trace_of obj path).2.
  assert (Hws : (trace_of obj path).1
                = hooks ++ rule_indexed obj path ++ rule_symbols obj path
                  ++ rule_non_enumerable obj path ++ children.1).
  { rewrite Hsplit. unfold andthen. rewrite Hnode. simpl.
    rewrite Hown. by rewrite <- !app_assoc. }
  assert (Hch' : Forall (fun w => Warning.type w ≠ "indexed-properties"
                                  ∨ Warning.path w ≠ Some path) children.1).
  { eapply Forall_impl; [exact Hch|]. intros w Hw. right.
    by eapply below_child_ne. }
  assert (Hhooks' : Forall (fun w => Warning.type w ≠ "indexed-properties"
                                     ∨ Warning.path w ≠ Some path) hooks).
  { eapply Forall_impl; [exact Hhooks|]. intros w [Hw|Hw]; left; by rewrite Hw. }
  refine (conj _ (conj _ (conj _ (conj _ (conj _ (conj _ _)))))).
  - apply _validateObject_traces.
  - rewrite Hws, <- existsb_isIndexedKey. rewrite !in_app_iff, In_rule_indexed.
    split.
    + intros [H|[H|[H|[H|H]]]].
      * rewrite List.Forall_forall in Hhooks'. by destruct (Hhooks' _ H).
      * tauto.
      * unfold rule_symbols in H. by destruct (bool_decide _); destruct H.
      * unfold rule_non_enumerable in H.
        by destruct (bool_decide _); destruct H.
      * rewrite List.Forall_forall in Hch'. by destruct (Hch' _ H).
    + intros H. right. left. done.
  - rewrite Hws, !List.filter_app, !length_app.
    rewrite (filter_at_node_0 _ _ hooks Hhooks').
    rewrite (filter_at_node_0 _ _ children.1 Hch').
    rewrite (filter_at_node_0 _ _ (rule_symbols obj path)).
    2: { unfold rule_symbols. destruct (bool_decide _);
         repeat (apply Forall_cons_2; [by left|]); apply Forall_nil_2. }
    rewrite (filter_at_node_0 _ _ (rule_non_enumerable obj path)).
    2: { unfold rule_non_enumerable. destruct (bool_decide _);
         repeat (apply Forall_cons_2; [by left|]); apply Forall_nil_2. }
    pose proof (List.filter_length_le (at_node "indexed-properties" path)
                  (rule_indexed obj path)) as Hle.
    assert (length (rule_indexed obj path) ≤ 1)%nat.
    { unfold rule_indexed. destruct (_ && _); simpl; lia. }
    simpl. lia.
  - done.
  - by vm_compute.
  - by vm_compute.
  - intros aproto elems.
    exists (trace_of (VArray aproto elems) path).1,
           (trace_of (VArray aproto elems) path).2.
    split; [apply _validateObject_traces|].
    pose proof (trace_of_array_below aproto elems path) as Hbelow.
    rewrite List.Forall_forall in Hbelow. intros w Hw.
    eapply below_child_ne. by apply Hbelow.
Qed.

(** [{ "0": 2 }] at the root: one indexed-properties warning. *)
Lemma indexed_properties_rule_witness :
  ∃ ws o,
    _validateObject indexed_sample "root" (constructor false)
    = (o, push_all ws (constructor false))
    ∧ In (indexed_properties_warning "root") ws.
Proof.
  destruct (indexed_properties_rule VObjectPrototype
              [data_prop "0" (number_of_Z 2)] "root" (constructor false)
              eq_refl)
    as (ws & o & Hrun & Hiff & _).
  exists ws, o. split; [exact Hrun|].
  apply Hiff. exists "0". split; [by left|by vm_compute].
Defined.

(** The key "1.5" is no canonical integer, yet [{ "1.5": 1 }] draws the
    indexed-properties warning; the key "-1" survives the conversion to a
    number and back, yet [{ "-1": 1 }] draws no warning. *)
Lemma indexed_properties_rule_counterexample :
  (∃ r st',
     validate fraction_sample VNull VNull (constructor false) = (Normal r, st')
     ∧ In (indexed_properties_warning "root") (deref st' (Result.warnings r))
     ∧ Forall (fun key => is_canonical_integer key = false)
              (Object_keys fraction_sample))
  ∧ (∃ r st',
       validate negative_sample VNull VNull (constructor false)
       = (Normal r, st')
       ∧ deref st' (Result.warnings r) = []
       ∧ Exists (fun key => js_String (js_Number key) = key)
                (Object_keys negative_sample)).
Proof.
  split.
  - eexists _, _. split; [vm_compute; reflexivity|].
    split; [vm_compute; auto|]. by repeat constructor.
  - eexists _, _. split; [vm_compute; reflexivity|].
    split; [by vm_compute|]. constructor. by vm_compute.
Qed.

(** ** Hooks inherited from the prototype *)

(** Only the [__proto__] accessor of [Object.prototype] looks at the
    receiver of a read. *)
Lemma get_from_receiver r1 r2 v k :
  k ≠ KString "__proto__" → get_from r1 v k = get_from r2 v k.
Proof.
  intros Hk.
  induction v as [v Hv|proto elems IHp _|proto props IHp _] using value_ind.
  - destruct v; try done.
    + simpl. unfold get_ObjectPrototype.
      destruct k as [s|]; [|done]. destruct (decide (s = "__proto__")); [|done].
      congruence.
    + simpl. unfold get_ObjectPrototype.
      destruct k as [s|]; [|done]. repeat case_decide; try done.
      all: destruct (bool_decide _); try done; congruence.
  - simpl. destruct k as [s|]; [|done]. case_decide; [done|].
    destruct (array_index s); [|done].
    by destruct (nth_error elems (Z.to_nat z)) as [[e|]|].
  - simpl. by destruct (find_prop k props).
Qed.

Lemma get_inherited proto props k :
  find_prop k props = None → k ≠ KString "__proto__" →
  get (VObject proto props) k = get proto k.
Proof.
  intros Hown Hk. unfold get. simpl. rewrite Hown.
  by apply get_from_receiver.
Qed.

(** C10, for the nodes the object branch handles: a non-array object
    without an own [toJSON], whose prototype is neither [Object.prototype]
    nor [Array.prototype] and exposes a callable [toJSON], draws the toJSON
    warning and then the prototype-toJSON warning, both of high impact and
    at the path of the node; no other high-impact warning of the visit is
    at that path. *)
Theorem inherited_toJSON_twice proto props path st toJSON :
  let obj := VObject proto props in
  find_prop (KString "toJSON") props = None →
  custom_prototype obj = true →
  get proto (KString "toJSON") = Normal toJSON →
  is_function toJSON = true →
  ∃ rest o,
    _validateObject obj path st
    = (o, push_all (toJSON_warning path :: prototype_toJSON_warning path
                    :: rest) st)
    ∧ Warning.impact (toJSON_warning path) = "high"
    ∧ Warning.impact (prototype_toJSON_warning path) = "high"
    ∧ Warning.path (toJSON_warning path) = Some path
    ∧ Warning.path (prototype_toJSON_warning path) = Some path
    ∧ Forall (fun w => Warning.path w = Some path →
                       Warning.impact w ≠ "high") rest.
Proof.
  intros obj Hown Hcustom Hget Hfun.
  destruct (trace_of_object_split proto props path) as (children & Hsplit & Hch).
  fold obj in Hsplit.
  assert (Hnode : node_trace obj path
                  = (toJSON_warning path :: prototype_toJSON_warning path
                     :: rule_indexed obj path ++ rule_symbols obj path
                     ++ rule_non_enumerable obj path, Normal tt)).
  { unfold node_trace. rewrite Hcustom. unfold obj at 1 2.
    rewrite get_inherited by done. simpl. rewrite Hget. simpl.
    unfold andthen, rule_toJSON, rule_prototype_toJSON. simpl.
    by rewrite Hfun. }
  exists (rule_indexed obj path ++ rule_symbols obj path
          ++ rule_non_enumerable obj path ++ children.1),
         (trace_of obj path).2.
  refine (conj _ (conj _ (conj _ (conj _ (conj _ _))))); try done.
  - rewrite (_validateObject_traces obj path st). do 2 f_equal.
    rewrite Hsplit, Hnode. unfold andthen. simpl. by rewrite <- !app_assoc.
  - repeat apply Forall_app_2.
    + unfold rule_indexed. destruct (_ && _);
        repeat (apply Forall_cons_2; [done|]); apply Forall_nil_2.
    + unfold rule_symbols. destruct (bool_decide _);
        repeat (apply Forall_cons_2; [done|]); apply Forall_nil_2.
    + unfold rule_non_enumerable. destruct (bool_decide _);
        repeat (apply Forall_cons_2; [done|]); apply Forall_nil_2.
    + eapply Forall_impl; [exact Hch|]. intros w Hw Hpath.
      by eapply below_child_ne in Hw.
Qed.

Lemma inherited_toJSON_twice_witness :
  ∃ rest o,
    _validateObject inheriting_sample "root" (constructor false)
    = (o, push_all (toJSON_warning "root" :: prototype_toJSON_warning "root"
                    :: rest) (constructor false)).
Proof.
  destruct (inherited_toJSON_twice
              (plain_object [data_prop "toJSON" (VFunction (UserFn 2))]) []
              "root" (constructor false) (VFunction (UserFn 2))
              eq_refl eq_refl eq_refl eq_refl)
    as (rest & o & Hrun & _).
  by exists rest, o.
Defined.

(** An array whose prototype is a subclass prototype with a [toJSON]
    method has no own [toJSON], its prototype is neither of the two
    intrinsics and exposes a callable [toJSON]; [validate] emits no
    warning for it. *)
Lemma inherited_toJSON_twice_counterexample :
  typeof subclass_array = "object"
  ∧ custom_prototype subclass_array = true
  ∧ (∃ toJSON, get (Object_getPrototypeOf subclass_array) (KString "toJSON")
               = Normal toJSON ∧ is_function toJSON = true)
  ∧ ∃ r st',
      validate subclass_array VNull VNull (constructor false)
      = (Normal r, st')
      ∧ deref st' (Result.warnings r) = [].
Proof.
  split_and!; [done|done|by eexists|].
  eexists _, _. split; [vm_compute; reflexivity|]. by vm_compute.
Qed.

(** ** Completion of validate *)

Lemma andthen_snd_Normal a b :
  a.2 = Normal tt → b.2 = Normal tt → (andthen a b).2 = Normal tt.
Proof. intros Ha Hb. unfold andthen. by rewrite Ha. Qed.

Lemma node_trace_readable proto props path :
  reads (get (VObject proto props) (KString "toJSON")) = true →
  (if custom_prototype (VObject proto props)
   then reads (get proto (KString "toJSON")) else true) = true →
  (node_trace (VObject proto props) path).2 = Normal tt.
Proof.
  unfold node_trace. set (obj := VObject proto props).
  destruct (get obj (KString "toJSON")) as [toJSON|e|]; [|done..]. intros _.
  destruct (custom_prototype obj); simpl.
  - destruct (get proto (KString "toJSON")); done.
  - done.
Qed.

Lemma readable_trace obj :
  readable obj = true → ∀ path, (trace_of obj path).2 = Normal tt.
Proof.
  induction obj as [v Hv|proto elems _ IH|proto props _ IH] using value_ind;
    intros Hr path.
  - by destruct v.
  - simpl in Hr. apply andb_true_iff in Hr as [Hf Hr]. simpl.
    destruct (get (VArray proto elems) (KString "forEach")) as [forEach|e|];
      [|done..].
    simpl. rewrite Hf.
    revert Hr. generalize 0%nat.
    induction IH as [|e r He _ IHr]; intros idx Hr; [done|].
    destruct e as [item|].
    + apply andb_true_iff in Hr as [Hitem Hr].
      apply andthen_snd_Normal; [by apply He|by apply IHr].
    + apply andb_true_iff in Hr as [Hhole Hr].
      apply negb_true_iff in Hhole. rewrite Hhole. by apply IHr.
  - simpl in Hr. apply andb_true_iff in Hr as [Hr Hps].
    apply andb_true_iff in Hr as [Hr1 Hr2].
    change (trace_of (VObject proto props) path) with
      (andthen (node_trace (VObject proto props) path)
         ((fix each (ps : list (property value)) : trace :=
             match ps with
             | [] => emit []
             | mkProp (KString key) true s :: r =>
                 andthen
                   match s with
                   | Data v | Accessor v => trace_of v (path +:+ "." +:+ key)
                   | AccessorThrows e => ([], Throw e)
                   end (each r)
             | _ :: r => each r
             end) props)).
    apply andthen_snd_Normal; [by apply node_trace_readable|].
    clear Hr1 Hr2. revert Hps. induction IH as [|p r Hp _ IHr]; intros Hps; [done|].
    destruct p as [[key|id] [] s]; try (by apply IHr).
    apply andb_true_iff in Hps as [Hs Hps].
    apply andthen_snd_Normal; [|by apply IHr].
    destruct s as [v|v|e]; [by apply Hp|by apply Hp|done].
Qed.

Lemma console_validated obj replacer space st :
  console (validated obj replacer space st) = console st
  ∧ serializer_calls (validated obj replacer space st) = serializer_calls st.
Proof.
  unfold validated. by rewrite console_push_all, serializer_calls_push_all.
Qed.

(** C8, as the code has it: for a tree whose reads all complete (no getter
    throws on the way, each array inherits the intrinsic [forEach], no hole
    of an array is found on its prototype chain), [validate] returns a Validation Result, prints nothing and calls no
    serializer; a root that is no object (a primitive, [null], [undefined],
    a function) draws no warning beyond the call-level ones. *)
Theorem validate_returns obj replacer space st :
  readable obj = true →
  ∃ r st',
    validate obj replacer space st = (Normal r, st')
    ∧ console st' = console st
    ∧ serializer_calls st' = serializer_calls st
    ∧ (typeof obj ≠ "object" ∨ obj = VNull →
       deref st' (Result.warnings r)
       = call_level (default_param replacer VNull)
                    (default_param space VNull)).
Proof.
  intros Hr. rewrite validate_eq, (readable_trace obj Hr "root").
  eexists _, _. split; [reflexivity|].
  destruct (console_validated obj replacer space st) as [Hc Hs].
  refine (conj Hc (conj Hs _)). intros Hleaf.
  cbn [result_of Result.warnings]. rewrite deref_validated.
  assert ((trace_of obj "root").1 = []) as ->; [|by rewrite app_nil_r].
  destruct Hleaf as [Hty| ->]; [|done]. by destruct obj.
Qed.

Lemma validate_returns_witness :
  ∃ r st',
    validate (plain_array [VString "a"; VNull]) VNull VNull (constructor false)
    = (Normal r, st').
Proof.
  destruct (validate_returns (plain_array [VString "a"; VNull]) VNull VNull
              (constructor false) eq_refl) as (r & st' & Hrun & _).
  by exists r, st'.
Defined.

(** A finite acyclic tree on which [validate] throws: the getter of an own
    enumerable property throws when the traversal reads it (line 134). *)
Lemma validate_returns_counterexample :
  (validate throwing_sample VNull VNull (constructor false)).1
  = Throw (UserError "boom").
Proof. by vm_compute. Qed.

(** So does an array without [forEach] on its prototype chain (line 60). *)
Lemma validate_null_prototype_array :
  (validate (VArray VNull []) VNull VNull (constructor false)).1
  = Throw (TypeError "obj.forEach is not a function").
Proof. by vm_compute. Qed.

(** ** The result shares the array of the instance *)

Lemma heap_push_all_dom ws st :
  dom (heap st) ⊆ dom (heap (push_all ws st)).
Proof.
  revert st. induction ws as [|w ws IH]; intros st; [done|]. simpl.
  etrans; [|apply IH]. simpl. rewrite dom_insert. set_solver.
Qed.

Lemma validate_frame obj replacer space st o st' l :
  l ∈ dom (heap st) →
  validate obj replacer space st = (o, st') →
  deref st' l = deref st l
  ∧ l ≠ this_warnings st'
  ∧ dom (heap st) ⊆ dom (heap st')
  ∧ this_warnings st' ∈ dom (heap st').
Proof.
  intros Hl. rewrite validate_eq. intros [= <- <-]. unfold validated.
  set (ws := call_level _ _ ++ _).
  assert (Hfresh : l ≠ this_warnings (after_reset st)).
  { rewrite this_warnings_after_reset. intros ->. by apply is_fresh in Hl. }
  rewrite this_warnings_push_all.
  split_and!; [|done| |].
  - rewrite deref_push_all_ne by done. unfold deref, after_reset. simpl.
    by rewrite lookup_insert_ne.
  - etrans; [|apply heap_push_all_dom]. unfold after_reset. simpl.
    rewrite dom_insert. set_solver.
  - apply heap_push_all_dom. unfold after_reset. simpl.
    rewrite dom_insert. set_solver.
Qed.

(** C4, as the code has it: the warnings of the result are the array of
    the instance itself, not a copy.  A later call to [validate] on the
    instance binds [this.warnings] to a fresh array, so it leaves the
    warnings of every result returned before as they were. *)
Theorem result_shares_buffer obj replacer space st r st' :
  validate obj replacer space st = (Normal r, st') →
  Result.warnings r = this_warnings st'
  ∧ Result.warnings r ∈ dom (heap st')
  ∧ ∀ st1 obj2 replacer2 space2 o2 st2,
      Result.warnings r ∈ dom (heap st1) →
      validate obj2 replacer2 space2 st1 = (o2, st2) →
      deref st2 (Result.warnings r) = deref st1 (Result.warnings r)
      ∧ this_warnings st2 ≠ Result.warnings r
      ∧ Result.warnings r ∈ dom (heap st2).
Proof.
  intros Hrun. destruct (validate_Normal_inv _ _ _ _ _ _ Hrun) as [Hst Hr].
  assert (Hdom : this_warnings st' ∈ dom (heap st')).
  { subst st'. unfold validated. rewrite this_warnings_push_all.
    apply heap_push_all_dom. unfold after_reset. simpl.
    rewrite dom_insert. set_solver. }
  assert (Hw : Result.warnings r = this_warnings st') by by subst r.
  rewrite Hw. split_and!; [done|done|].
  intros st1 obj2 replacer2 space2 o2 st2 Hl Hrun2.
  destruct (validate_frame _ _ _ _ _ _ _ Hl Hrun2) as (Hd & Hne & Hsub & _).
  split_and!; [done|done|]. by apply Hsub.
Qed.

Lemma result_shares_buffer_witness :
  ∃ r st',
    validate indexed_sample VNull VNull (constructor false) = (Normal r, st')
    ∧ Result.warnings r = this_warnings st'.
Proof.
  eexists _, _. split; [vm_compute; reflexivity|].
  eapply (result_shares_buffer indexed_sample VNull VNull (constructor false)).
  vm_compute; reflexivity.
Defined.

(** After [validate] has returned, a traversal run on the instance
    ([optimizer._validateObject(...)]) appends to the array the result
    holds: the warnings of the result change with the buffer. *)
Lemma result_shares_buffer_counterexample :
  ∃ r st' st'',
    validate (plain_object []) VNull VNull (constructor false)
    = (Normal r, st')
    ∧ _validateObject indexed_sample "root" st' = (Normal tt, st'')
    ∧ deref st' (Result.warnings r) = []
    ∧ deref st'' (Result.warnings r) = [indexed_properties_warning "root"].
Proof.
  eexists _, _, _. split; [vm_compute; reflexivity|].
  split; [vm_compute; reflexivity|]. by vm_compute.
Qed.

(** ** stringify *)

Lemma default_param_idem v d : default_param (default_param v d) d = default_param v d.
Proof. destruct v; try done. by destruct d. Qed.

Lemma validate_bound obj replacer space :
  validate obj (default_param replacer VNull) (default_param space VNull)
  = validate obj replacer space.
Proof. unfold validate. by rewrite !default_param_idem. Qed.

Lemma validate_effects obj replacer space st o st' :
  validate obj replacer space st = (o, st') →
  console st' = console st ∧ serializer_calls st' = serializer_calls st.
Proof. rewrite validate_eq. intros [= <- <-]. apply console_validated. Qed.

(** C9: [stringify] runs [validate] first; once it has returned, the
    serializer is called once, with the tree itself and the replacer and
    space parameters; what the serializer throws is what [stringify]
    throws, with no result; the optimizer does not run (nothing is
    printed). *)
Theorem stringify_propagates
  (JSON_stringify : value → value → value → outcome value)
  obj replacer space st validation st1 :
  validate obj replacer space st = (Normal validation, st1) →
  let replacer' := default_param replacer VNull in
  let space' := default_param space VNull in
  let st2 := serializer_called (obj, replacer', space') st1 in
  serializer_calls st2 = serializer_calls st ++ [(obj, replacer', space')]
  ∧ console st2 = console st
  ∧ deref st2 (this_warnings st2)
    = call_level replacer' space' ++ (trace_of obj "root").1
  ∧ (∀ e, JSON_stringify obj replacer' space' = Throw e →
          stringify JSON_stringify obj replacer space st = (Throw e, st2))
  ∧ (∀ json, JSON_stringify obj replacer' space' = Normal json →
             stringify JSON_stringify obj replacer space st
             = (Normal (Stringified.mk json validation
                          (Result.isOptimized validation)), st2)).
Proof.
  intros Hrun replacer' space' st2.
  destruct (validate_effects _ _ _ _ _ _ Hrun) as [Hc Hs].
  destruct (validate_buffer _ _ _ _ _ _ Hrun) as [Hbuf _].
  assert (Hstep : ∀ o,
            JSON_stringify obj replacer' space' = o →
            stringify JSON_stringify obj replacer space st
            = (match o with
               | Normal json =>
                   Normal (Stringified.mk json validation
                             (Result.isOptimized validation))
               | Throw e => Throw e
               | Unmodelled => Unmodelled
               end, st2)).
  { intros o Ho. unfold stringify. fold replacer' space'.
    unfold mbind, M_bind, bind. subst replacer' space'.
    rewrite validate_bound, Hrun. unfold call_JSON_stringify.
    rewrite Ho. by destruct o. }
  split_and!.
  - simpl. by rewrite Hs.
  - done.
  - done.
  - intros e He. by rewrite (Hstep _ He).
  - intros json Hjson. by rewrite (Hstep _ Hjson).
Qed.

Lemma stringify_propagates_witness :
  ∃ st2,
    stringify (fun _ _ _ => Throw (TypeError "cyclic object value"))
              indexed_sample VNull VNull (constructor false)
    = (Throw (TypeError "cyclic object value"), st2).
Proof.
  eexists.
  eapply (stringify_propagates
            (fun _ _ _ => Throw (TypeError "cyclic object value"))
            indexed_sample VNull VNull (constructor false)).
  - vm_compute; reflexivity.
  - reflexivity.
Defined.

(** X17: when [validate] throws, [stringify] throws the same exception
    from the same state, and the serializer is not called. *)
Lemma stringify_validate_throws
  (JSON_stringify : value → value → value → outcome value)
  obj replacer space st e st1 :
  validate obj replacer space st = (Throw e, st1) →
  stringify JSON_stringify obj replacer space st = (Throw e, st1)
  ∧ serializer_calls st1 = serializer_calls st.
Proof.
  intros Hrun. destruct (validate_effects _ _ _ _ _ _ Hrun) as [_ Hs].
  split; [|done]. unfold stringify, mbind, M_bind, bind.
  by rewrite validate_bound, Hrun.
Qed.

(** ** optimize refines its pure form *)

Lemma log_nil st : log [] st = st.
Proof. destruct st. unfold log. simpl. by rewrite app_nil_r. Qed.

Lemma log_app l1 l2 st : log (l1 ++ l2) st = log l2 (log l1 st).
Proof. unfold log. simpl. by rewrite app_assoc. Qed.

Lemma prints_ret {A} (a : A) : prints (ret a) (pret a).
Proof. intros st. simpl. by rewrite log_nil. Qed.

Lemma prints_fail {A} (m : M A) (o : outcome A) :
  (∀ st, m st = (o, st)) → prints m (o, []).
Proof. intros H st. simpl. by rewrite log_nil. Qed.

Lemma prints_bind {A B} (m : M A) (f : A → M B) w g :
  prints m w → (∀ a, prints (f a) (g a)) → prints (m ≫= f) (pbind w g).
Proof.
  intros Hm Hf st. unfold mbind, M_bind, bind. rewrite Hm.
  destruct w as [[a|e|] l1]; simpl; try done.
  rewrite Hf. destruct (g a) as [o l2]. simpl. by rewrite log_app.
Qed.

Lemma prints_read {A B} (o : outcome A) (f : A → M B) g :
  (∀ a, prints (f a) (g a)) → prints (lift o ≫= f) (pread o g).
Proof.
  intros Hf. apply prints_bind; [|done]. intros st. simpl. by rewrite log_nil.
Qed.

Lemma prints_console_warn s : prints (console_warn s) (Normal tt, [s]).
Proof. done. Qed.

#[local] Arguments pbind : simpl never.
#[local] Arguments pread : simpl never.

Lemma optimize_prints obj : prints (optimize obj) (optimized obj).
Proof.
  induction obj as [v Hv|proto elems _ IH|proto props _ IH] using value_ind.
  - destruct v; first [done|apply prints_ret].
  - simpl. apply prints_read; intros map.
    destruct (is_builtin _ _).
    + apply prints_read; intros _. apply prints_bind; [|intros; apply prints_ret].
      generalize 0%nat. induction IH as [|e r He _ IHr]; intros idx.
      * apply prints_ret.
      * destruct e as [item|]; simpl.
        -- apply prints_bind; [by apply He|]. intros item'.
           apply prints_bind; [apply IHr|]. intros r'. apply prints_ret.
        -- destruct (has_property _ _); [by apply prints_fail|].
           apply prints_bind; [apply IHr|]. intros r'. apply prints_ret.
    + destruct (is_function _); by apply prints_fail.
  - simpl. generalize (VObject VObjectPrototype []).
    induction IH as [|p r Hp _ IHr]; intros acc; [apply prints_ret|].
    destruct p as [[key|id] [] s]; simpl; try apply IHr.
    destruct (isIndexedKey key).
    + apply prints_bind; [apply prints_console_warn|]. intros _. apply IHr.
    + destruct s as [v|v|e]; [| |by apply prints_fail];
        (apply prints_bind; [by apply Hp|]; intros v';
         apply prints_read; intros acc'; apply IHr).
Qed.

(** ** Own properties: lookup and insertion *)

Lemma find_prop_None {V} (k : key) (ps : list (property V)) :
  find_prop k ps = None ↔ ¬ In k (List.map pkey ps).
Proof.
  induction ps as [|p r IH]; simpl; [tauto|].
  case_decide; [|rewrite IH]; intuition congruence.
Qed.

Lemma find_prop_Some {V} (k : key) (ps : list (property V)) p :
  find_prop k ps = Some p → In p ps ∧ pkey p = k.
Proof.
  induction ps as [|q r IH]; simpl; [done|].
  case_decide; [intros [= <-]; auto|]. intros Hr. destruct (IH Hr). auto.
Qed.

Lemma find_prop_NoDup {V} (ps : list (property V)) p :
  NoDup (List.map pkey ps) → In p ps → find_prop (pkey p) ps = Some p.
Proof.
  induction ps as [|q r IH]; simpl; [done|].
  intros Hnd [->|Hin]; [by rewrite decide_True|].
  apply NoDup_cons in Hnd as [Hq Hnd]. case_decide as Heq; [|by apply IH].
  exfalso. apply Hq. rewrite Heq. apply list_elem_of_In. by apply in_map.
Qed.

Lemma insert_index_perm i p ps : insert_index i p ps ≡ₚ p :: ps.
Proof.
  induction ps as [|q r IH]; simpl; [done|].
  destruct (pkey q) as [s|]; [|done].
  destruct (array_index s) as [j|]; [|done].
  destruct (j <? i); [|done]. rewrite IH. apply Permutation_swap.
Qed.

Lemma insert_string_perm p ps : insert_string p ps ≡ₚ p :: ps.
Proof.
  induction ps as [|q r IH]; simpl; [done|].
  destruct (pkey q) as [s|]; [|done]. rewrite IH. apply Permutation_swap.
Qed.

Lemma insert_prop_perm ps k v :
  insert_prop ps k v ≡ₚ mkProp (KString k) true (Data v) :: ps.
Proof.
  unfold insert_prop.
  destruct (array_index k); [apply insert_index_perm|apply insert_string_perm].
Qed.

Lemma replace_prop_keys ps k v :
  List.map pkey (replace_prop ps k v) = List.map pkey ps.
Proof.
  induction ps as [|q r IH]; simpl; [done|].
  case_decide; [by destruct q as [? ? []]|]. simpl. by rewrite IH.
Qed.

Lemma replace_prop_Forall (Q : property value → Prop) ps k v :
  Forall Q ps →
  (∀ e w, Q (mkProp (KString k) e (Data w)) →
          Q (mkProp (KString k) e (Data v))) →
  Forall Q (replace_prop ps k v).
Proof.
  intros Hps Hnew. induction Hps as [|q r Hq Hr IH]; simpl; [done|].
  case_decide as Hk.
  - destruct q as [k' e [w|w|x]]; simpl in Hk; subst;
      apply Forall_cons_2; eauto.
  - apply Forall_cons_2; auto.
Qed.

(** ** The object under construction *)

Lemma inherited_set_SetsPrototype p key :
  inherited_set p key = SetsPrototype → key = "__proto__".
Proof.
  induction p as [v Hv|proto elems IH _|proto props IH _] using value_ind.
  - destruct v; try done; simpl; by case_decide.
  - simpl. case_decide; [done|].
    destruct (array_index key) as [i|]; [|done].
    by destruct (nth_error elems (Z.to_nat i)) as [[?|]|].
  - simpl. by destruct (find_prop (KString key) props) as [[? ? [?|?|?]]|].
Qed.

Lemma obj_set_built Q optimized k v r :
  obj_set optimized k v = Normal r →
  built_with Q optimized → Q k v → built_with Q r.
Proof.
  destruct optimized as [| | | | | | | |? ?|proto ps| |]; try done.
  simpl. intros Hset [Hnd Hps] HQ.
  destruct (find_prop (KString k) ps) as [[k' e [w|w|x]]|] eqn:Hfind;
    try done.
  - injection Hset as <-. split; [by rewrite replace_prop_keys|].
    apply replace_prop_Forall; [done|].
    intros e' w' (k'' & v' & [= <- <- <-] & _). eauto.
  - destruct (inherited_set proto k); [| |done]; injection Hset as <-.
    + apply find_prop_None in Hfind. split.
      * rewrite (Permutation_map pkey (insert_prop_perm ps k v)). simpl.
        apply NoDup_cons. split; [|done]. by rewrite list_elem_of_In.
      * rewrite (insert_prop_perm ps k v). apply Forall_cons_2; eauto.
    + by destruct (is_object v || is_null v).
Qed.


Lemma obj_set_proto optimized k v r :
  k ≠ "__proto__" → obj_set optimized k v = Normal r →
  Object_getPrototypeOf r = Object_getPrototypeOf optimized.
Proof.
  intros Hk. destruct optimized; try done. simpl.
  destruct (find_prop _ _) as [[? ? [?|?|?]]|]; try done.
  - by intros [= <-].
  - destruct (inherited_set _ _) eqn:Hi; try done.
    + by intros [= <-].
    + by apply inherited_set_SetsPrototype in Hi.
Qed.

(** Any other name is created on an object that inherits from
    [Object.prototype] and has no own property of that name. *)
Lemma obj_set_create ps k v :
  k ≠ "__proto__" → find_prop (KString k) ps = None →
  obj_set (VObject VObjectPrototype ps) k v
  = Normal (VObject VObjectPrototype (insert_prop ps k v)).
Proof.
  intros Hk Hfind. simpl. rewrite Hfind. by case_decide.
Qed.

Lemma obj_set_Normal Q optimized k v :
  built_with Q optimized →
  Object_getPrototypeOf optimized = VObjectPrototype →
  k ≠ "__proto__" →
  ∃ r, obj_set optimized k v = Normal r.
Proof.
  destruct optimized as [| | | | | | | |? ?|proto ps| |]; try done.
  intros [_ Hps] Hproto Hk. simpl in Hproto. subst proto. simpl.
  destruct (find_prop (KString k) ps) as [p|] eqn:Hfind.
  - apply find_prop_Some in Hfind as [Hin _].
    rewrite List.Forall_forall in Hps.
    destruct (Hps p Hin) as (k' & v' & -> & _). eauto.
  - case_decide; [done|]. eauto.
Qed.

(** ** What optimize returns *)

Lemma pbind_inv {A B} (m : printed A) (f : A → printed B) b l :
  pbind m f = (Normal b, l) →
  ∃ a l1 l2, m = (Normal a, l1) ∧ f a = (Normal b, l2) ∧ l = l1 ++ l2.
Proof.
  unfold pbind. destruct m as [[a|e|] l1]; try done.
  destruct (f a) as [o l2] eqn:Hf. intros [= -> <-]. eauto 6.
Qed.

Lemma pread_inv {A B} (o : outcome A) (f : A → printed B) b l :
  pread o f = (Normal b, l) → ∃ a, o = Normal a ∧ f a = (Normal b, l).
Proof.
  unfold pread. intros (a & l1 & l2 & [= -> <-] & Hf & ->)%pbind_inv. eauto.
Qed.

Lemma In_Object_keys proto ps k :
  In k (Object_keys (VObject proto ps))
  ↔ ∃ p, In p ps ∧ pkey p = KString k ∧ penumerable p = true.
Proof.
  unfold Object_keys, string_keys. simpl.
  rewrite <- list_elem_of_In, list_elem_of_omap. split.
  - intros (p & Hp & Hk). apply list_elem_of_In, filter_In in Hp as [Hp He].
    exists p. destruct (pkey p); naive_solver.
  - intros (p & Hp & Hk & He). exists p. split.
    + apply list_elem_of_In, filter_In. done.
    + by rewrite Hk.
Qed.

Lemma built_with_keys Q proto ps k :
  built_with Q (VObject proto ps) →
  In k (Object_keys (VObject proto ps)) ↔ In (KString k) (List.map pkey ps).
Proof.
  intros [_ Hps]. rewrite In_Object_keys, in_map_iff.
  rewrite List.Forall_forall in Hps. split.
  - intros (p & Hp & Hk & _). eauto.
  - intros (p & Hk & Hp). exists p. split_and!; [done|done|].
    by destruct (Hps _ Hp) as (k' & v & -> & _).
Qed.

Lemma built_with_impl (Q1 Q2 : string → value → Prop) optimized :
  (∀ k v, Q1 k v → Q2 k v) → built_with Q1 optimized → built_with Q2 optimized.
Proof.
  intros HQ. destruct optimized; try done. intros [Hnd Hps]. split; [done|].
  eapply Forall_impl; [exact Hps|]. intros p (k & v & -> & Hq). eauto.
Qed.

(** [obj_set] keeps the keys there are and, [__proto__] apart, adds the
    one it is given. *)
Lemma obj_set_keys Q optimized k v k' r :
  obj_set optimized k v = Normal r →
  built_with Q optimized →
  (In k' (Object_keys optimized) → In k' (Object_keys r))
  ∧ (k ≠ "__proto__" → In k (Object_keys r))
  ∧ (In k' (Object_keys r) → k' = k ∨ In k' (Object_keys optimized)).
Proof.
  intros Hset Hb.
  assert (Hb' : built_with (fun _ _ => True) optimized).
  { eapply built_with_impl; [|exact Hb]. done. }
  pose proof (obj_set_built _ _ k v r Hset Hb' I) as Hb2.
  destruct optimized as [| | | | | | | |? ?|proto ps| |]; try done.
  revert Hset Hb2. simpl.
  destruct (find_prop (KString k) ps) as [[k0 e0 [w|w|x]]|] eqn:Hfind;
    try done.
  - intros [= <-] Hb2.
    rewrite !(built_with_keys _ _ _ _ Hb2), replace_prop_keys.
    rewrite !(built_with_keys _ _ _ _ Hb').
    apply find_prop_Some in Hfind as [Hin Hk].
    split_and!; [done| |auto]. intros _. rewrite <- Hk. by apply in_map.
  - destruct (inherited_set proto k) eqn:Hi; [| |done]; intros [= <-].
    + intros Hb2. rewrite !(built_with_keys _ _ _ _ Hb2).
      rewrite !(built_with_keys _ _ _ _ Hb').
      rewrite (Permutation_map pkey (insert_prop_perm ps k v)). simpl.
      split_and!; [auto|auto|]. intros [[= <-]|?]; auto.
    + apply inherited_set_SetsPrototype in Hi.
      assert (∀ p', Object_keys (VObject p' ps)
                    = Object_keys (VObject proto ps)) as Hp by done.
      destruct (is_object v || is_null v); intros _;
        rewrite ?(Hp v); split_and!; auto; done.
Qed.

Lemma obj_set_shape optimized k v r :
  obj_set optimized k v = Normal r → shape_of r = shape_of optimized.
Proof.
  destruct optimized; try done. simpl.
  destruct (find_prop _ _) as [[? ? [?|?|?]]|]; try done.
  - by intros [= <-].
  - destruct (inherited_set _ _); try done; intros [= <-]; [done|].
    by destruct (_ || _).
Qed.

(** ** Trees without a given key *)

Lemma without_key_elems k proto elems :
  without_key k (VArray proto elems) →
  Forall (fun e => ∀ v, e = Some v → without_key k v) elems.
Proof.
  simpl. induction elems as [|[item|] r IH]; intros Hwf.
  - apply Forall_nil_2.
  - destruct Hwf as [Hitem Hr]. apply Forall_cons_2; [|by apply IH].
    by intros v [= <-].
  - apply Forall_cons_2; [done|by apply IH].
Qed.

Lemma without_key_props k proto props :
  without_key k (VObject proto props) →
  ¬ In (KString k) (List.map pkey props)
  ∧ Forall (fun p => ∀ v, slot_value (pslot p) = Some v → without_key k v)
           props.
Proof.
  simpl. intros [Hk Hwf]. split; [done|]. clear Hk.
  induction props as [|[k' e [x|x|x]] r IH].
  - apply Forall_nil_2.
  - destruct Hwf as [Hx Hr]. apply Forall_cons_2; [|by apply IH].
    by intros v [= <-].
  - destruct Hwf as [Hx Hr]. apply Forall_cons_2; [|by apply IH].
    by intros v [= <-].
  - apply Forall_cons_2; [done|by apply IH].
Qed.

Lemma optimized_props_built rec (Q : string → value → Prop) ps :
  (∀ p k, In p ps → pkey p = KString k → penumerable p = true →
          isIndexedKey k = false → ∀ v, Q k v) →
  ∀ acc r l,
    built_with Q acc → optimized_props rec ps acc = (Normal r, l) →
    built_with Q r.
Proof.
  induction ps as [|p ps IH]; intros HQ acc r l Hacc Hrun.
  - by injection Hrun as <- <-.
  - assert (HQ' : ∀ p k, In p ps → pkey p = KString k → penumerable p = true →
                         isIndexedKey k = false → ∀ v, Q k v).
    { intros q k Hq. apply HQ. by right. }
    destruct p as [[key|id] [] s]; simpl in Hrun; try (by eapply IH).
    destruct (isIndexedKey key) eqn:Hidx.
    + apply pbind_inv in Hrun as (u & l1 & l2 & _ & Hrun & _). by eapply IH.
    + assert (Hnew : ∀ v, Q key v).
      { eapply HQ; [by left|done..]. }
      destruct s as [v|v|e]; [| |done];
        apply pbind_inv in Hrun as (v' & l1 & l2 & _ & Hrun & _);
        apply pread_inv in Hrun as (acc' & Hset & Hrun);
        (eapply IH; [done| |exact Hrun]); by eapply obj_set_built.
Qed.

Lemma optimized_props_keys rec ps :
  ∀ acc r l,
    built_with (fun _ _ => True) acc →
    optimized_props rec ps acc = (Normal r, l) →
    (∀ k, In k (Object_keys acc) → In k (Object_keys r))
    ∧ (∀ p k, In p ps → pkey p = KString k → penumerable p = true →
              isIndexedKey k = false → k ≠ "__proto__" →
              In k (Object_keys r)).
Proof.
  induction ps as [|p ps IH]; intros acc r l Hacc Hrun.
  - injection Hrun as <- <-. split; [done|]. by intros p k [].
  - assert (Hskip : ∀ l', optimized_props rec ps acc = (Normal r, l') →
                    (∀ q k, q = p → pkey q = KString k → penumerable q = true →
                            isIndexedKey k = false → k ≠ "__proto__" → False) →
                    (∀ k, In k (Object_keys acc) → In k (Object_keys r))
                    ∧ (∀ q k, In q (p :: ps) → pkey q = KString k →
                              penumerable q = true → isIndexedKey k = false →
                              k ≠ "__proto__" → In k (Object_keys r))).
    { intros l' Hrun' Hp. destruct (IH _ _ _ Hacc Hrun') as [H1 H2].
      split; [done|]. intros q k [<-|Hq] ????; [|by eapply H2].
      exfalso. by eapply Hp. }
    destruct p as [[key|id] [] s]; simpl in Hrun;
      try (apply (Hskip l); [done|]; intros q k -> ??; simpl in *; congruence).
    destruct (isIndexedKey key) eqn:Hidx.
    + apply pbind_inv in Hrun as (u & l1 & l2 & _ & Hrun & _).
      apply (Hskip l2); [done|]. intros q k -> [= <-] _ ?. congruence.
    + assert (Hset : ∀ v' acc' l',
                obj_set acc key v' = Normal acc' →
                optimized_props rec ps acc' = (Normal r, l') →
                (∀ k, In k (Object_keys acc) → In k (Object_keys r))
                ∧ (∀ q k, In q (mkProp (KString key) true s :: ps) →
                          pkey q = KString k → penumerable q = true →
                          isIndexedKey k = false → k ≠ "__proto__" →
                          In k (Object_keys r))).
      { intros v' acc' l' Hacc1 Hrun'.
        pose proof (obj_set_built _ _ key v' _ Hacc1 Hacc I) as Hacc'.
        destruct (IH _ _ _ Hacc' Hrun') as [H1 H2]. split.
        - intros k Hk. apply H1.
          by apply (obj_set_keys _ _ key v' k _ Hacc1 Hacc).
        - intros q k [<-|Hq] Hk He Hi Hp; [|by eapply H2].
          injection Hk as <-. apply H1.
          by apply (obj_set_keys _ _ key v' key _ Hacc1 Hacc). }
      destruct s as [v|v|e]; [| |done];
        apply pbind_inv in Hrun as (v' & l1 & l2 & _ & Hrun & _);
        apply pread_inv in Hrun as (acc' & Hacc1 & Hrun);
        by eapply Hset.
Qed.

Lemma optimized_props_shape rec ps :
  ∀ acc r l,
    optimized_props rec ps acc = (Normal r, l) → shape_of r = shape_of acc.
Proof.
  induction ps as [|p ps IH]; intros acc r l Hrun.
  - by injection Hrun as <- <-.
  - destruct p as [[key|id] [] s]; simpl in Hrun; try (by eapply IH).
    destruct (isIndexedKey key).
    + apply pbind_inv in Hrun as (u & l1 & l2 & _ & Hrun & _). by eapply IH.
    + destruct s as [v|v|e]; [| |done];
        apply pbind_inv in Hrun as (v' & l1 & l2 & _ & Hrun & _);
        apply pread_inv in Hrun as (acc' & Hset & Hrun);
        rewrite (IH _ _ _ Hrun); by eapply obj_set_shape.
Qed.

Lemma optimized_shape obj r l :
  optimized obj = (Normal r, l) → shape_of r = shape_of obj.
Proof.
  destruct obj; simpl; try (by intros [= <- <-]).
  - intros Hrun. apply pread_inv in Hrun as (map & _ & Hrun).
    destruct (is_builtin _ _); [|by destruct (is_function _)].
    apply pread_inv in Hrun as (u & _ & Hrun).
    apply pbind_inv in Hrun as (elems' & l1 & l2 & _ & Hrun & _).
    by injection Hrun as <- <-.
  - intros Hrun. by rewrite (optimized_props_shape _ _ _ _ _ Hrun).
Qed.

Lemma copyable_optimized obj :
  copyable obj = true → without_key "__proto__" obj →
  ∃ r l, optimized obj = (Normal r, l).
Proof.
  induction obj as [v Hv|proto elems _ IH|proto props _ IH] using value_ind;
    intros Hc Hkey.
  - destruct v; try done; by eexists _, _.
  - simpl in Hc. apply andb_true_iff in Hc as [Hc Hel].
    apply andb_true_iff in Hc as [Hmap Hsp]. simpl.
    destruct (get (VArray proto elems) (KString "map")) as [map|e|]; [|done..].
    unfold pread at 1, pbind at 1. rewrite Hmap.
    destruct (ArraySpeciesCreate (VArray proto elems)) as [[]|e|]; [|done..].
    unfold pread, pbind at 1.
    pose proof (without_key_elems _ _ _ Hkey) as Hke. clear Hkey.
    assert (∃ elems' l, optimized_elems optimized proto elems 0%nat
                        = (Normal elems', l)) as (elems' & l & ->).
    { revert Hel. generalize 0%nat.
      induction IH as [|e r He _ IHr]; intros idx Hel; [by eexists _, _|].
      apply Forall_cons in Hke as [Hk Hke].
      destruct e as [item|]; apply andb_true_iff in Hel as [Hitem Hel];
        destruct (IHr Hke _ Hel) as (r' & lr & Hr); simpl.
      - destruct (He item eq_refl Hitem (Hk item eq_refl)) as (item' & li & ->).
        unfold pbind. rewrite Hr. by eexists _, _.
      - apply negb_true_iff in Hitem. rewrite Hitem.
        unfold pbind. rewrite Hr. by eexists _, _. }
    unfold pbind. by eexists _, _.
  - destruct (without_key_props _ _ _ Hkey) as [Hno Hkp]. clear Hkey.
    simpl in Hc. simpl.
    assert (Hacc : built_with (fun _ _ => True) (VObject VObjectPrototype []))
      by (split; [apply NoDup_nil_2|apply Forall_nil_2]).
    assert (Hproto : Object_getPrototypeOf (VObject VObjectPrototype [])
                     = VObjectPrototype) by done.
    revert Hc Hacc Hproto. generalize (VObject VObjectPrototype []).
    induction IH as [|p r Hp _ IHr]; intros acc Hc Hacc Hproto;
      [by eexists _, _|].
    apply Forall_cons in Hkp as [Hk Hkp].
    assert (Hno' : ¬ In (KString "__proto__") (List.map pkey r)).
    { intros ?. apply Hno. by right. }
    destruct p as [[key|id] [] s]; simpl; try (by apply IHr).
    apply andb_true_iff in Hc as [Hs Hc].
    destruct (isIndexedKey key).
    + destruct (IHr Hno' Hkp acc Hc Hacc Hproto) as (r' & l & Hr).
      unfold pbind. rewrite Hr. by eexists _, _.
    + assert (Hne : key ≠ "__proto__").
      { intros ->. apply Hno. by left. }
      simpl in Hs. destruct s as [v|v|e]; [| |done];
        destruct (Hp v eq_refl Hs (Hk v eq_refl)) as (v' & lv & ->);
        destruct (obj_set_Normal _ acc key v' Hacc Hproto Hne) as (acc' & Hset);
        (destruct (IHr Hno' Hkp acc' Hc) as (r' & l & Hr);
         [by eapply obj_set_built|by rewrite (obj_set_proto _ _ _ _ Hne Hset)|]);
        unfold pbind, pread; rewrite Hset; unfold pbind; rewrite Hr;
        by eexists _, _.
Qed.

(** ** What optimize builds *)

Lemma rebuilt_array proto elems :
  rebuilt (VArray proto elems)
  ↔ proto = VArrayPrototype
    ∧ Forall (fun e => ∀ v, e = Some v → rebuilt v) elems.
Proof.
  simpl. apply and_iff_compat_l. induction elems as [|[item|] r IH].
  - split; [intros; apply Forall_nil_2|done].
  - rewrite Forall_cons, IH. split.
    + intros [Hi Hr]. split; [by intros v [= <-]|done].
    + intros [Hi Hr]. split; [by apply Hi|done].
  - rewrite Forall_cons, IH. split; [by intros|by intros [_ ?]].
Qed.

Lemma rebuilt_object proto props :
  rebuilt (VObject proto props)
  ↔ proto = VObjectPrototype
    ∧ Forall (fun p => ∃ k v, p = mkProp (KString k) true (Data v)
                              ∧ isIndexedKey k = false ∧ rebuilt v) props.
Proof.
  simpl. apply and_iff_compat_l. induction props as [|[[k|id] e s] r IH].
  - split; [intros; apply Forall_nil_2|done].
  - rewrite Forall_cons.
    destruct e; [destruct s as [v|v|x]|];
      try (split; [done|by intros [(? & ? & [=] & _) _]]).
    rewrite IH. split.
    + intros (Hk & Hv & Hr). split; [by exists k, v|done].
    + intros [(k' & v' & [= <- <-] & Hk & Hv) Hr]. done.
  - rewrite Forall_cons. split; [done|by intros [(? & ? & [=] & _) _]].
Qed.

Lemma optimized_elems_Forall (Q : value → Prop) proto elems :
  Forall (fun e => ∀ v, e = Some v →
                   ∀ y l, optimized v = (Normal y, l) → Q y) elems →
  ∀ idx elems' l,
    optimized_elems optimized proto elems idx = (Normal elems', l) →
    Forall (fun e => ∀ v, e = Some v → Q v) elems'.
Proof.
  induction 1 as [|e r He _ IH]; intros idx elems' l Hrun.
  - injection Hrun as <- <-. apply Forall_nil_2.
  - destruct e as [item|]; simpl in Hrun.
    + apply pbind_inv in Hrun as (item' & l1 & l2 & Hitem & Hrun & _).
      apply pbind_inv in Hrun as (r' & l3 & l4 & Hr & Hrun & _).
      injection Hrun as <- _. apply Forall_cons_2; [|by eapply IH].
      intros v [= <-]. by eapply He.
    + destruct (has_property _ _); [done|].
      apply pbind_inv in Hrun as (r' & l3 & l4 & Hr & Hrun & _).
      injection Hrun as <- _. apply Forall_cons_2; [done|by eapply IH].
Qed.

Lemma optimized_elems_Forall2 proto elems :
  ∀ idx elems' l,
    optimized_elems optimized proto elems idx = (Normal elems', l) →
    Forall2 (fun e e' => match e, e' with
                         | None, None => True
                         | Some item, Some item' =>
                             (optimized item).1 = Normal item'
                         | _, _ => False
                         end) elems elems'.
Proof.
  induction elems as [|e r IH]; intros idx elems' l Hrun.
  - injection Hrun as <- _. apply Forall2_nil_2.
  - destruct e as [item|]; simpl in Hrun.
    + apply pbind_inv in Hrun as (item' & l1 & l2 & Hitem & Hrun & _).
      apply pbind_inv in Hrun as (r' & l3 & l4 & Hr & Hrun & _).
      injection Hrun as <- _.
      apply Forall2_cons_2; [by rewrite Hitem|by eapply IH].
    + destruct (has_property _ _); [done|].
      apply pbind_inv in Hrun as (r' & l3 & l4 & Hr & Hrun & _).
      injection Hrun as <- _. apply Forall2_cons_2; [done|by eapply IH].
Qed.

(** What holds of the value [optimize] returns on each property that is
    copied holds of the values of the object that is built. *)
Lemma optimized_props_Forall (Q : string → value → Prop) ps :
  Forall (fun p => ∀ k v, pkey p = KString k → penumerable p = true →
                   slot_value (pslot p) = Some v →
                   ∀ y l, optimized v = (Normal y, l) → Q k y) ps →
  ∀ acc r l,
    built_with (fun k v => isIndexedKey k = false ∧ Q k v) acc →
    optimized_props optimized ps acc = (Normal r, l) →
    built_with (fun k v => isIndexedKey k = false ∧ Q k v) r.
Proof.
  induction 1 as [|p ps Hp _ IH]; intros acc r l Hacc Hrun.
  - by injection Hrun as <- <-.
  - destruct p as [[key|id] [] s]; simpl in Hrun; try (by eapply IH).
    destruct (isIndexedKey key) eqn:Hidx.
    { apply pbind_inv in Hrun as (u & l1 & l2 & _ & Hrun & _). by eapply IH. }
    destruct s as [v|v|e]; [| |done];
      apply pbind_inv in Hrun as (v' & l1 & l2 & Hv & Hrun & _);
      apply pread_inv in Hrun as (acc' & Hset & Hrun);
      (eapply IH; [|exact Hrun]);
      (eapply obj_set_built; [exact Hset|exact Hacc|]);
      (split; [done|]); by eapply (Hp key v).
Qed.

(** Without a key [__proto__] the prototype of the object under
    construction stays as it is. *)
Lemma optimized_props_proto ps :
  ¬ In (KString "__proto__") (List.map pkey ps) →
  ∀ acc r l,
    optimized_props optimized ps acc = (Normal r, l) →
    Object_getPrototypeOf r = Object_getPrototypeOf acc.
Proof.
  induction ps as [|p ps IH]; intros Hno acc r l Hrun.
  - by injection Hrun as <- <-.
  - assert (Hno' : ¬ In (KString "__proto__") (List.map pkey ps)).
    { intros ?. apply Hno. by right. }
    destruct p as [[key|id] [] s]; simpl in Hrun; try (by eapply IH).
    destruct (isIndexedKey key) eqn:Hidx.
    { apply pbind_inv in Hrun as (u & l1 & l2 & _ & Hrun & _). by eapply IH. }
    assert (Hne : key ≠ "__proto__").
    { intros ->. apply Hno. by left. }
    destruct s as [v|v|e]; [| |done];
      apply pbind_inv in Hrun as (v' & l1 & l2 & Hv & Hrun & _);
      apply pread_inv in Hrun as (acc' & Hset & Hrun);
      rewrite (IH Hno' _ _ _ Hrun); by eapply obj_set_proto.
Qed.

Lemma optimized_rebuilt x :
  without_key "__proto__" x → ∀ y l, optimized x = (Normal y, l) → rebuilt y.
Proof.
  induction x as [v Hv|proto elems _ IH|proto props _ IH] using value_ind;
    intros Hkey y l Hrun.
  - destruct v; try done; by injection Hrun as <- _.
  - simpl in Hrun. apply pread_inv in Hrun as (map & _ & Hrun).
    destruct (is_builtin _ _); [|by destruct (is_function _)].
    apply pread_inv in Hrun as (u & _ & Hrun).
    apply pbind_inv in Hrun as (elems' & l1 & l2 & Hel & Hrun & _).
    injection Hrun as <- _. apply rebuilt_array. split; [done|].
    eapply (optimized_elems_Forall rebuilt); [|exact Hel].
    pose proof (without_key_elems _ _ _ Hkey) as Hke.
    eapply Forall_impl; [exact (proj2 (Forall_and _ _) (conj IH Hke))|].
    intros e [He Hk] v Hv. by apply He, Hk.
  - simpl in Hrun. destruct (without_key_props _ _ _ Hkey) as [Hno Hkp].
    assert (Hr : built_with (fun k v => isIndexedKey k = false ∧ rebuilt v) y).
    { eapply (optimized_props_Forall (fun _ => rebuilt)); [| |exact Hrun].
      - eapply Forall_impl; [exact (proj2 (Forall_and _ _) (conj IH Hkp))|].
        intros p [Hp Hk] k v _ _ Hv. by apply Hp, Hk.
      - split; [apply NoDup_nil_2|apply Forall_nil_2]. }
    pose proof (optimized_props_proto _ Hno _ _ _ Hrun) as Hproto.
    destruct y as [| | | | | | | |? ?|yproto yprops| |]; try done.
    apply rebuilt_object. split; [done|]. by destruct Hr.
Qed.

Lemma filter_none {A} (f : A → bool) (l : list A) :
  (∀ x, f x = false) → List.filter f l = [].
Proof. intros Hf. induction l as [|a l IH]; simpl; [done|]. by rewrite Hf. Qed.

Lemma built_with_plain Q proto ps :
  built_with Q (VObject proto ps) →
  Object_getOwnPropertySymbols (VObject proto ps) = []
  ∧ non_enumerable_names (VObject proto ps) = [].
Proof.
  intros [_ Hps]. rewrite List.Forall_forall in Hps. split.
  - unfold Object_getOwnPropertySymbols. simpl.
    induction ps as [|p r IH]; [done|]. simpl.
    destruct (Hps p (or_introl eq_refl)) as (k & v & -> & _). simpl.
    apply IH. intros q Hq. apply Hps. by right.
  - unfold non_enumerable_names. apply filter_none. intros key.
    unfold Object_getOwnPropertyDescriptor. simpl.
    destruct (find_prop (KString key) ps) as [p|] eqn:Hfind; [|done]. simpl.
    apply find_prop_Some in Hfind as [Hin _].
    by destruct (Hps p Hin) as (k & v & -> & _).
Qed.

Lemma NoDup_pkey_inj {V} (ps : list (property V)) p q :
  NoDup (List.map pkey ps) → In p ps → In q ps → pkey p = pkey q → p = q.
Proof.
  intros Hnd Hp Hq Hk.
  pose proof (find_prop_NoDup ps p Hnd Hp) as H1.
  pose proof (find_prop_NoDup ps q Hnd Hq) as H2.
  rewrite Hk in H1. congruence.
Qed.

(** C3, as the code has it: on a tree whose reads all complete (no getter
    throws, each array inherits the intrinsic [map] and the default
    constructor, no hole of an array is found on its prototype chain) and
    in which no mapping has an own property named [__proto__], [optimize]
    returns, with no effect but what it prints, a value of the same broad
    shape as its input, a leaf being returned as it is.  At every depth of
    what it returns, a mapping is a plain object whose own properties are
    enumerable data properties with string keys that fail the indexed-key
    test, and a sequence is an array with prototype [Array.prototype].
    The own enumerable string keys of an input mapping that fail the test
    are the keys of the output, which holds under each of them what
    [optimize] returns on the value the input holds there; it has no
    symbol-keyed and no non-enumerable property, and its prototype is
    [Object.prototype].  An input array gives an array with a hole for
    each hole and otherwise what [optimize] returns on the element. *)
Theorem optimize_rebuilds obj st :
  copyable obj = true → without_key "__proto__" obj →
  ∃ r lines,
    optimize obj st = (Normal r, log lines st)
    ∧ shape_of r = shape_of obj
    ∧ (shape_of obj = Leaf → r = obj)
    ∧ rebuilt r
    ∧ (∀ proto props, obj = VObject proto props →
         (∀ key, In key (Object_keys obj) → isIndexedKey key = false →
                 In key (Object_keys r))
         ∧ (∀ key, In key (Object_keys r) →
                   In key (Object_keys obj) ∧ isIndexedKey key = false)
         ∧ Object_getOwnPropertySymbols r = []
         ∧ non_enumerable_names r = []
         ∧ Object_getPrototypeOf r = VObjectPrototype
         ∧ (NoDup (List.map pkey props) →
            ∀ key s v,
              In (mkProp (KString key) true s) props →
              slot_value s = Some v → isIndexedKey key = false →
              ∃ v', get r (KString key) = Normal v'
                    ∧ (optimize v st).1 = Normal v'))
    ∧ (∀ proto elems, obj = VArray proto elems →
         ∃ elems', r = VArray VArrayPrototype elems'
                   ∧ Forall2 (optimized_element st) elems elems').
Proof.
  intros Hc Hkey. destruct (copyable_optimized obj Hc Hkey) as (r & lines & Hrun).
  exists r, lines. split_and!.
  - rewrite (optimize_prints obj st). by rewrite Hrun.
  - by eapply optimized_shape.
  - intros Hleaf. destruct obj; try done; by injection Hrun as <- _.
  - by eapply optimized_rebuilt.
  - intros proto props ->. simpl in Hrun.
    destruct (without_key_props _ _ _ Hkey) as [Hno _].
    set (obj := VObject proto props).
    set (Q := fun (k : string) (_ : value) =>
                In k (Object_keys obj) ∧ isIndexedKey k = false).
    set (R := fun (k : string) (y : value) =>
                ∃ s v, In (mkProp (KString k) true s) props
                       ∧ slot_value s = Some v
                       ∧ (optimized v).1 = Normal y).
    assert (Hempty : ∀ Q', built_with Q' (VObject VObjectPrototype [])).
    { intros Q'. split; [apply NoDup_nil_2|apply Forall_nil_2]. }
    assert (Hr : built_with Q r).
    { eapply optimized_props_built; [|apply Hempty|exact Hrun].
      intros p k Hp Hk He Hi v. split; [|done].
      apply In_Object_keys. eauto. }
    assert (Hv : built_with (fun k y => isIndexedKey k = false ∧ R k y) r).
    { eapply (optimized_props_Forall R); [|apply Hempty|exact Hrun].
      apply List.Forall_forall. intros [k0 e0 s0] Hin k v Hk He Hs y l Hy.
      simpl in Hk, He, Hs. subst k0 e0. exists s0, v.
      split_and!; [done|done|by rewrite Hy]. }
    pose proof (optimized_props_proto _ Hno _ _ _ Hrun) as Hproto.
    destruct r as [| | | | | | | |? ?|rproto rprops| |]; try done.
    destruct (optimized_props_keys _ _ _ _ _ (Hempty _) Hrun) as [_ Hkept].
    destruct (built_with_plain _ _ _ Hr) as [Hsym Hnon].
    assert (Hkeys : ∀ key, In key (Object_keys obj) → isIndexedKey key = false →
                           In key (Object_keys (VObject rproto rprops))).
    { intros key (p & Hp & Hk & He)%In_Object_keys Hi.
      eapply Hkept; [exact Hp|done..|]. intros ->. apply Hno.
      rewrite <- Hk. by apply in_map. }
    split_and!; [done| |done|done|done|].
    + intros key Hkey'. apply (built_with_keys _ _ _ _ Hr) in Hkey'.
      apply in_map_iff in Hkey' as (p & Hk & Hp).
      destruct Hr as [_ Hr]. rewrite List.Forall_forall in Hr.
      destruct (Hr p Hp) as (k & v & -> & HQ). by injection Hk as ->.
    + intros Hnd key s v Hin Hs Hi.
      assert (Hkr : In key (Object_keys (VObject rproto rprops))).
      { apply Hkeys; [|done]. apply In_Object_keys.
        by exists (mkProp (KString key) true s). }
      apply (built_with_keys _ _ _ _ Hv) in Hkr.
      apply in_map_iff in Hkr as (p & Hk & Hp).
      destruct Hv as [Hrnd Hv]. rewrite List.Forall_forall in Hv.
      destruct (Hv p Hp) as (k & v' & -> & _ & s0 & v0 & Hin0 & Hs0 & Hy).
      injection Hk as ->. exists v'. split.
      * unfold get. simpl.
        pose proof (find_prop_NoDup rprops _ Hrnd Hp) as Hfind.
        simpl in Hfind. by rewrite Hfind.
      * rewrite (optimize_prints v st). cbn [fst].
        pose proof (NoDup_pkey_inj props _ _ Hnd Hin Hin0 eq_refl) as Heq.
        injection Heq as <-. by simplify_eq.
  - intros proto elems ->. simpl in Hrun.
    apply pread_inv in Hrun as (map & _ & Hrun).
    destruct (is_builtin _ _); [|by destruct (is_function _)].
    apply pread_inv in Hrun as (u & _ & Hrun).
    apply pbind_inv in Hrun as (elems' & l1 & l2 & Hel & Hrun & _).
    injection Hrun as <- _. exists elems'. split; [done|].
    eapply Forall2_impl; [exact (optimized_elems_Forall2 _ _ _ _ _ Hel)|].
    intros [item|] [item'|]; try done. unfold optimized_element.
    by rewrite (optimize_prints item st).
Qed.

Lemma optimize_rebuilds_witness :
  ∃ r lines,
    optimize indexed_sample (constructor false)
    = (Normal r, log lines (constructor false))
    ∧ shape_of r = Mapping.
Proof.
  destruct (optimize_rebuilds indexed_sample (constructor false) eq_refl)
    as (r & lines & Hrun & Hshape & _).
  { simpl. split; [|done]. intuition discriminate. }
  by exists r, lines.
Defined.

(** [optimize] drops the non-enumerable property, the symbol-keyed property
    and the prototype with its hook; and it throws when a getter does. *)
Lemma optimize_rebuilds_counterexample :
  (∃ r st',
     optimize decorated_sample (constructor false) = (Normal r, st')
     ∧ In "hidden" (Object_getOwnPropertyNames decorated_sample)
     ∧ ¬ In "hidden" (Object_getOwnPropertyNames r)
     ∧ Object_getOwnPropertySymbols decorated_sample = [7%nat]
     ∧ Object_getOwnPropertySymbols r = []
     ∧ get decorated_sample (KString "toJSON") = Normal (VFunction (UserFn 2))
     ∧ get r (KString "toJSON") = Normal VUndefined)
  ∧ (optimize throwing_sample (constructor false)).1
    = Throw (UserError "boom").
Proof.
  split; [|by vm_compute].
  eexists _, _. split; [vm_compute; reflexivity|].
  split_and!; try (by vm_compute).
  - vm_compute. auto.
  - vm_compute. intuition discriminate.
Qed.

(** ** A second run of optimize *)

Lemma head_digit_string_of_uint (u : Decimal.uint) :
  u ≠ Decimal.Nil → head_digit (NilEmpty.string_of_uint u) = true.
Proof. by destruct u. Qed.

Lemma head_digit_string_of_nat (n : nat) : head_digit (string_of_nat n) = true.
Proof.
  unfold string_of_nat, string_of_Z. apply head_digit_string_of_uint.
  destruct (Z.to_N (Z.of_nat n)); [done|]. apply DecimalPos.Unsigned.to_uint_nonnil.
Qed.

(** Neither [Array.prototype] nor [Object.prototype] has a property named
    by an index. *)
Lemma has_property_ArrayPrototype_index (idx : nat) :
  has_property VArrayPrototype (KString (string_of_nat idx)) = false.
Proof.
  pose proof (head_digit_string_of_nat idx) as Hd.
  set (s := string_of_nat idx) in *. simpl.
  apply orb_false_iff. split; apply bool_decide_eq_false_2;
    rewrite list_elem_of_In; simpl; intros H;
    repeat (destruct H as [<-|H]; [discriminate Hd|]); done.
Qed.

#[local] Arguments has_property : simpl never.

Lemma wf_elems proto elems :
  wf (VArray proto elems) → Forall (fun e => ∀ v, e = Some v → wf v) elems.
Proof.
  simpl. induction elems as [|[item|] r IH]; intros Hwf.
  - apply Forall_nil_2.
  - destruct Hwf as [Hitem Hr]. apply Forall_cons_2; [|by apply IH].
    by intros v [= <-].
  - apply Forall_cons_2; [done|by apply IH].
Qed.

Lemma wf_props proto props :
  wf (VObject proto props) →
  NoDup (List.map pkey props)
  ∧ Forall (fun p => ∀ v, slot_value (pslot p) = Some v → wf v) props.
Proof.
  simpl. intros [Hnd Hwf]. split; [done|]. clear Hnd.
  induction props as [|[k e [x|x|x]] r IH].
  - apply Forall_nil_2.
  - destruct Hwf as [Hx Hr]. apply Forall_cons_2; [|by apply IH].
    by intros v [= <-].
  - destruct Hwf as [Hx Hr]. apply Forall_cons_2; [|by apply IH].
    by intros v [= <-].
  - apply Forall_cons_2; [done|by apply IH].
Qed.


Lemma elems_second elems' :
  Forall (fun e => ∀ v, e = Some v → settled v) elems' →
  ∀ idx, ∃ elems'',
    optimized_elems optimized VArrayPrototype elems' idx = (Normal elems'', [])
    ∧ Forall2 (same_element struct_eq) elems'' elems'.
Proof.
  induction 1 as [|e r He _ IH]; intros idx.
  - exists []. split; [done|apply Forall2_nil_2].
  - destruct (IH (S idx)) as (r'' & Hr & Hsame).
    destruct e as [item|]; simpl.
    + destruct (He item eq_refl) as (item'' & Hitem & Heq).
      exists (Some item'' :: r''). rewrite Hitem. unfold pbind at 1.
      rewrite Hr. split; [done|].
      apply Forall2_cons_2; [by constructor|done].
    + rewrite has_property_ArrayPrototype_index.
      exists (None :: r''). rewrite Hr. split; [done|].
      apply Forall2_cons_2; [constructor|done].
Qed.

#[local] Arguments obj_set : simpl never.



(** The second run copies a clean object key by key. *)
Lemma props_second ps :
  Forall (fun p => ∃ k v, p = mkProp (KString k) true (Data v)
                          ∧ isIndexedKey k = false ∧ k ≠ "__proto__"
                          ∧ settled v) ps →
  NoDup (List.map pkey ps) →
  ∀ psa,
    built_with (fun _ _ => True) (VObject VObjectPrototype psa) →
    (∀ k, In k (List.map pkey ps) → ¬ In k (List.map pkey psa)) →
    ∃ psa',
      optimized_props optimized ps (VObject VObjectPrototype psa)
      = (Normal (VObject VObjectPrototype psa'), [])
      ∧ (∀ k p, find_prop k psa = Some p → find_prop k psa' = Some p)
      ∧ (∀ k, find_prop (KString k) psa = None →
              same_slot struct_eq (enumerable_slot psa' k)
                        (enumerable_slot ps k)).
Proof.
  induction 1 as [|p ps Hp _ IH]; intros Hnd psa Hacc Hdisj.
  - exists psa. split_and!; [done|done|].
    intros k Hk. unfold enumerable_slot. rewrite Hk. simpl. constructor.
  - destruct Hp as (key & v & -> & Hidx & Hne & v' & Hv & Heq).
    simpl in Hnd. apply NoDup_cons in Hnd as [Hfresh Hnd].
    rewrite list_elem_of_In in Hfresh.
    assert (Hnone : find_prop (KString key) psa = None).
    { apply find_prop_None, Hdisj. by left. }
    set (new := mkProp (KString key) true (Data v')).
    pose proof (obj_set_create psa key v' Hne Hnone) as Hset.
    pose proof (obj_set_built _ _ key v' _ Hset Hacc I) as Hacc'.
    pose proof (insert_prop_perm psa key v') as Hperm.
    destruct (IH Hnd (insert_prop psa key v') Hacc')
      as (psa' & Hrun & Hkeep & Hrest).
    { intros k Hk. rewrite (Permutation_map pkey Hperm). simpl.
      intros [<-|Hin]; [done|]. eapply Hdisj; [by right|done]. }
    exists psa'. split_and!.
    + simpl. rewrite Hidx, Hv. unfold pbind, pread. rewrite Hset.
      unfold pbind. by rewrite Hrun.
    + intros k p Hfind. apply Hkeep.
      apply find_prop_Some in Hfind as [Hin <-].
      apply find_prop_NoDup; [by destruct Hacc'|].
      rewrite Hperm. by right.
    + intros k Hk. unfold enumerable_slot at 2. simpl.
      destruct (decide (KString key = KString k)) as [[= <-]|Hkk].
      * assert (Hnew : find_prop (KString key) psa' = Some new).
        { apply Hkeep.
          apply (find_prop_NoDup (insert_prop psa key v') new);
            [by destruct Hacc'|].
          rewrite Hperm. by left. }
        unfold enumerable_slot. rewrite Hnew. simpl.
        by eapply same_read.
      * apply Hrest. apply find_prop_None.
        rewrite (Permutation_map pkey Hperm). simpl.
        apply find_prop_None in Hk. intros [?|?]; done.
Qed.
Lemma optimized_plain_array elems :
  optimized (VArray VArrayPrototype elems)
  = pbind (optimized_elems optimized VArrayPrototype elems 0%nat)
          (fun elems' => pret (VArray VArrayPrototype elems')).
Proof.
  cbn [optimized].
  change (get (VArray VArrayPrototype elems) (KString "map"))
    with (Normal (VFunction (Builtin "Array.prototype.map"))).
  change (ArraySpeciesCreate (VArray VArrayPrototype elems))
    with (Normal tt).
  unfold pread.
  destruct (optimized_elems optimized VArrayPrototype elems 0%nat) as [[e|e|] l].
  all: reflexivity.
Qed.




(** * Further properties *)

(** ** The traversal and the store *)

Lemma this_strictMode_push_all ws st :
  this_strictMode (push_all ws st) = this_strictMode st.
Proof.
  revert st. induction ws as [|w ws IH]; intros st; [done|]. simpl.
  by rewrite IH.
Qed.

Lemma visit_trace obj path : visit obj path = trace_of obj path.
Proof.
  unfold visit. rewrite (_validateObject_traces obj path (constructor false)).
  cbn [fst snd]. rewrite this_warnings_push_all.
  rewrite (deref_push_all _ (constructor false)).
  by destruct (trace_of obj path).
Qed.

(** X1: a visit of a tree changes nothing of the instance but the array
    behind [this.warnings], to which it appends; the warnings it appends and
    its completion depend on the tree and the path only, and the path of
    each of these warnings extends the path of the visit. *)
Theorem _validateObject_only_appends obj path st :
  let st' := (_validateObject obj path st).2 in
  (_validateObject obj path st).1 = (visit obj path).2
  ∧ this_warnings st' = this_warnings st
  ∧ deref st' (this_warnings st)
    = deref st (this_warnings st) ++ (visit obj path).1
  ∧ (∀ l, l ≠ this_warnings st → deref st' l = deref st l)
  ∧ console st' = console st
  ∧ serializer_calls st' = serializer_calls st
  ∧ this_strictMode st' = this_strictMode st
  ∧ Forall (fun w => ∃ s, Warning.path w = Some (path +:+ s))
           (visit obj path).1.
Proof.
  rewrite visit_trace, (_validateObject_traces obj path st). cbn [fst snd].
  split_and!.
  - done.
  - apply this_warnings_push_all.
  - apply deref_push_all.
  - intros l Hl. by apply deref_push_all_ne.
  - apply console_push_all.
  - apply serializer_calls_push_all.
  - apply this_strictMode_push_all.
  - apply trace_of_below.
Qed.

(** ** The warnings of a result *)

Lemma node_trace_impact obj path :
  Forall (fun w => Warning.impact w = impact_of_type (Warning.type w))
         (node_trace obj path).1.
Proof.
  assert (Hif : ∀ (b : bool) w,
             Warning.impact w = impact_of_type (Warning.type w) →
             Forall (fun w => Warning.impact w = impact_of_type (Warning.type w))
                    (if b then [w] else [])).
  { intros [] w ?; [apply Forall_cons_2; [done|]|]; apply Forall_nil_2. }
  unfold node_trace. apply of_read_fst_Forall; intros toJSON.
  apply andthen_fst_Forall; [|apply andthen_fst_Forall].
  - by apply Hif.
  - destruct (custom_prototype obj); [|by constructor].
    apply of_read_fst_Forall; intros ptoJSON. by apply Hif.
  - unfold emit, rule_indexed, rule_symbols, rule_non_enumerable. simpl.
    repeat apply Forall_app_2; by apply Hif.
Qed.

Lemma trace_of_impact obj path :
  Forall (fun w => Warning.impact w = impact_of_type (Warning.type w))
         (trace_of obj path).1.
Proof.
  apply (trace_of_Forall
           (fun _ w => Warning.impact w = impact_of_type (Warning.type w))).
  - done.
  - apply node_trace_impact.
Qed.

Lemma call_level_Forall (Q : Warning.t → Prop) r s :
  Q replacer_warning → Q space_warning → Forall Q (call_level r s).
Proof.
  intros Hr Hs. unfold call_level.
  destruct (negb (is_null r)), (negb (is_null s) && negb (is_undefined s));
    simpl; repeat (apply Forall_cons_2; [done|]); apply Forall_nil_2.
Qed.

(** X2: every warning [validate] leaves in the buffer is either one of the
    two call-level warnings, which carry no path, or a warning of one of
    the five per-node types whose path starts with "root"; and its impact
    is the one of its type: medium for indexed-properties, low for
    symbol-keys and non-enumerable, high for the other four. *)
Theorem validate_warning_shape obj replacer space st o st' w :
  validate obj replacer space st = (o, st') →
  In w (deref st' (this_warnings st')) →
  Warning.impact w = impact_of_type (Warning.type w)
  ∧ (w = replacer_warning ∨ w = space_warning
     ∨ In (Warning.type w) node_types
       ∧ ∃ s, Warning.path w = Some ("root" +:+ s)).
Proof.
  intros Hrun Hw. destruct (validate_buffer _ _ _ _ _ _ Hrun) as [Hws _].
  rewrite Hws in Hw. apply in_app_or in Hw as [Hw|Hw].
  - pose proof (call_level_Forall
                  (fun w => Warning.impact w = impact_of_type (Warning.type w)
                            ∧ (w = replacer_warning ∨ w = space_warning))
                  (default_param replacer VNull) (default_param space VNull))
      as Hcalls.
    rewrite List.Forall_forall in Hcalls.
    destruct (Hcalls (conj eq_refl (or_introl eq_refl))
                     (conj eq_refl (or_intror eq_refl)) w Hw) as [Hi Hc].
    split; [done|]. destruct Hc; auto.
  - pose proof (trace_of_impact obj "root") as Hi.
    pose proof (trace_of_types obj "root") as Ht.
    pose proof (trace_of_below obj "root") as Hb.
    rewrite List.Forall_forall in Hi, Ht, Hb.
    split; [by apply Hi|]. right. right. split; [by apply Ht|by apply Hb].
Qed.

Lemma validate_warning_shape_witness :
  ∃ st' w,
    In w (deref st' (this_warnings st'))
    ∧ Warning.impact w = "medium" ∧ Warning.type w = "indexed-properties".
Proof.
  exists (validate indexed_sample VNull VNull (constructor false)).2,
         (indexed_properties_warning "root").
  assert (Hin : In (indexed_properties_warning "root")
                  (deref (validate indexed_sample VNull VNull
                            (constructor false)).2
                         (this_warnings
                            (validate indexed_sample VNull VNull
                               (constructor false)).2)))
    by (vm_compute; auto).
  split; [exact Hin|].
  destruct (validate_warning_shape indexed_sample VNull VNull
              (constructor false) _ _ _ eq_refl Hin) as [Hi _].
  split; [exact Hi|reflexivity].
Defined.

(** X3: the three counts of the summary add up: a result with warnings has
    the summary "Found N issue(s): h high, m medium, l low impact" where h,
    m and l count its warnings by impact and N = h + m + l is their
    number. *)
Theorem summary_counts_add_up obj replacer space st r st' :
  validate obj replacer space st = (Normal r, st') →
  let ws := deref st' (Result.warnings r) in
  let h := count_impact "high" ws in
  let m := count_impact "medium" ws in
  let l := count_impact "low" ws in
  length ws = (h + m + l)%nat
  ∧ (Result.isOptimized r = false →
     Result.summary r
     = "Found " +:+ string_of_nat (h + m + l) +:+ " issue(s): "
       +:+ string_of_nat h +:+ " high, " +:+ string_of_nat m +:+ " medium, "
       +:+ string_of_nat l +:+ " low impact").
Proof.
  intros Hrun ws h m l.
  destruct (validate_buffer _ _ _ _ _ _ Hrun) as [Hws Hres].
  destruct (validate_Normal_inv _ _ _ _ _ _ Hrun) as [Hst Hr].
  assert (Hlen : length ws = (h + m + l)%nat).
  { apply count_tiers. subst ws. rewrite (Hres r eq_refl), Hws.
    apply Forall_app_2.
    - apply call_level_Forall; simpl; auto.
    - eapply Forall_impl; [apply trace_of_impact|]. intros w ->.
      unfold impact_of_type.
      destruct (bool_decide _); [simpl; auto|].
      destruct (_ || _); simpl; auto. }
  split; [done|]. intros Hopt. rewrite <- Hlen.
  subst r. cbn [result_of Result.summary Result.isOptimized Result.warnings] in *.
  fold ws in Hopt |- *. unfold summary_of. rewrite Hopt. done.
Qed.

Lemma summary_counts_add_up_witness :
  ∃ r st',
    validate indexed_sample VNull VNull (constructor false) = (Normal r, st')
    ∧ length (deref st' (Result.warnings r))
      = (count_impact "high" (deref st' (Result.warnings r))
         + count_impact "medium" (deref st' (Result.warnings r))
         + count_impact "low" (deref st' (Result.warnings r)))%nat.
Proof.
  eexists _, _. split; [vm_compute; reflexivity|].
  eapply (summary_counts_add_up indexed_sample VNull VNull (constructor false)).
  vm_compute; reflexivity.
Defined.

(** ** Calls on one instance *)

(** X4: [validate] starts from an empty buffer whatever the instance did
    before: the warnings it leaves, its completion, and the flags, the
    summary and the warnings of its result are the same from any two
    states of an instance. *)
Theorem validate_forgets_history obj replacer space st1 st2 :
  let run1 := validate obj replacer space st1 in
  let run2 := validate obj replacer space st2 in
  deref run1.2 (this_warnings run1.2) = deref run2.2 (this_warnings run2.2)
  ∧ match run1.1, run2.1 with
    | Normal r1, Normal r2 =>
        Result.isOptimized r1 = Result.isOptimized r2
        ∧ Result.canUseFastPath r1 = Result.canUseFastPath r2
        ∧ Result.summary r1 = Result.summary r2
        ∧ deref run1.2 (Result.warnings r1) = deref run2.2 (Result.warnings r2)
    | Throw e1, Throw e2 => e1 = e2
    | Unmodelled, Unmodelled => True
    | _, _ => False
    end.
Proof.
  intros run1 run2. subst run1 run2. rewrite !validate_eq. cbn [fst snd].
  pose proof (deref_validated obj replacer space st1) as H1.
  pose proof (deref_validated obj replacer space st2) as H2.
  split; [by rewrite H1, H2|].
  destruct (trace_of obj "root").2; [|done..].
  cbn [result_of Result.isOptimized Result.canUseFastPath Result.summary
       Result.warnings].
  by rewrite H1, H2.
Qed.

Lemma push_all_with_strict b ws st :
  push_all ws (with_strict b st) = with_strict b (push_all ws st).
Proof.
  revert st. induction ws as [|w ws IH]; intros st; [done|].
  exact (IH (push w st).2).
Qed.

Lemma validated_with_strict b obj replacer space st :
  validated obj replacer space (with_strict b st)
  = with_strict b (validated obj replacer space st).
Proof. unfold validated. by rewrite <- push_all_with_strict. Qed.

Lemma stringify_eq (JSON_stringify : value → value → value → outcome value)
  obj replacer space st :
  stringify JSON_stringify obj replacer space st
  = match validate obj replacer space st with
    | (Normal validation, st1) =>
        let replacer' := default_param replacer VNull in
        let space' := default_param space VNull in
        (match JSON_stringify obj replacer' space' with
         | Normal json =>
             Normal (Stringified.mk json validation
                       (Result.isOptimized validation))
         | Throw e => Throw e
         | Unmodelled => Unmodelled
         end, serializer_called (obj, replacer', space') st1)
    | (Throw e, st1) => (Throw e, st1)
    | (Unmodelled, st1) => (Unmodelled, st1)
    end.
Proof.
  unfold stringify, mbind, M_bind, bind. rewrite validate_bound.
  destruct (validate obj replacer space st) as [[validation|e|] st1]; try done.
  unfold call_JSON_stringify. by destruct (JSON_stringify _ _ _).
Qed.

(** X5: the [strict] option given to the constructor is stored and never
    read: with either value of [this.strictMode], [validate], [optimize]
    and [stringify] complete alike, return the same value and leave the
    same state but for that field. *)
Theorem strict_option_unused b
  (JSON_stringify : value → value → value → outcome value)
  obj replacer space st :
  validate obj replacer space (with_strict b st)
  = ((validate obj replacer space st).1,
     with_strict b (validate obj replacer space st).2)
  ∧ optimize obj (with_strict b st)
    = ((optimize obj st).1, with_strict b (optimize obj st).2)
  ∧ stringify JSON_stringify obj replacer space (with_strict b st)
    = ((stringify JSON_stringify obj replacer space st).1,
       with_strict b (stringify JSON_stringify obj replacer space st).2).
Proof.
  assert (Hv : validate obj replacer space (with_strict b st)
               = ((validate obj replacer space st).1,
                  with_strict b (validate obj replacer space st).2)).
  { rewrite !validate_eq. cbn [fst snd]. rewrite validated_with_strict.
    by destruct (trace_of obj "root").2. }
  split_and!.
  - exact Hv.
  - by rewrite !(optimize_prints obj).
  - rewrite !stringify_eq, Hv.
    destruct (validate obj replacer space st) as [[validation|e|] st1]; done.
Qed.

(** ** The rules at a node *)

Lemma node_trace_inv obj path :
  (node_trace obj path).2 = Normal tt →
  ∃ toJSON hooks,
    get obj (KString "toJSON") = Normal toJSON
    ∧ (node_trace obj path).1
      = rule_toJSON toJSON path ++ hooks ++ rule_indexed obj path
        ++ rule_symbols obj path ++ rule_non_enumerable obj path
    ∧ (if custom_prototype obj
       then ∃ ptoJSON,
              get (Object_getPrototypeOf obj) (KString "toJSON")
              = Normal ptoJSON
              ∧ hooks = rule_prototype_toJSON ptoJSON path
       else hooks = []).
Proof.
  unfold node_trace. destruct (get obj (KString "toJSON")) as [toJSON|e|];
    simpl; [|done..].
  unfold andthen at 1. simpl. unfold andthen.
  destruct (custom_prototype obj).
  - destruct (get _ _) as [ptoJSON|e|]; simpl; [|done..]. intros _.
    exists toJSON, (rule_prototype_toJSON ptoJSON path).
    split; [done|]. split; [done|]. by exists ptoJSON.
  - simpl. intros _. by exists toJSON, [].
Qed.

(** The warnings of a visit at the path of the visited object are those of
    the checks at the node. *)
Lemma visit_node_level proto props path w :
  (node_trace (VObject proto props) path).2 = Normal tt →
  Warning.path w = Some path →
  In w (visit (VObject proto props) path).1
  ↔ In w (node_trace (VObject proto props) path).1.
Proof.
  intros Hnode Hpath. rewrite visit_trace.
  destruct (trace_of_object_split proto props path) as (children & -> & Hch).
  unfold andthen. rewrite Hnode. cbn [fst]. rewrite in_app_iff.
  split; [|by left]. intros [H|H]; [done|].
  rewrite List.Forall_forall in Hch. by apply Hch, below_child_ne in H.
Qed.

Lemma node_checks_completes obj path st :
  (node_checks obj path st).1 = Normal tt →
  (node_trace obj path).2 = Normal tt.
Proof. by rewrite (node_checks_traces obj path st). Qed.

(** X6: when the checks at a non-array object node complete, the visit
    emits the toJSON warning at the path of the node iff [obj.toJSON], own
    or inherited, is a function, and the prototype-toJSON warning iff the
    prototype is an object other than [Object.prototype] and
    [Array.prototype] and [proto.toJSON] is a function. *)
Theorem hook_rules proto props path st :
  let obj := VObject proto props in
  (node_checks obj path st).1 = Normal tt →
  (In (toJSON_warning path) (visit obj path).1
   ↔ ∃ f, get obj (KString "toJSON") = Normal f ∧ is_function f = true)
  ∧ (In (prototype_toJSON_warning path) (visit obj path).1
     ↔ custom_prototype obj = true
       ∧ ∃ f, get proto (KString "toJSON") = Normal f ∧ is_function f = true).
Proof.
  intros obj Hnode%node_checks_completes.
  destruct (node_trace_inv obj path Hnode) as (t & hooks & Ht & Heq & Hhooks).
  pose proof (visit_node_level proto props path) as Hlevel. fold obj in Hlevel.
  rewrite !Hlevel by done. rewrite Heq, Ht. clear Heq Hnode Hlevel.
  change (Object_getPrototypeOf obj) with proto in Hhooks.
  split.
  - assert (In (toJSON_warning path)
              (rule_toJSON t path ++ hooks ++ rule_indexed obj path
               ++ rule_symbols obj path ++ rule_non_enumerable obj path)
            ↔ is_function t = true) as ->.
    { rewrite !in_app_iff.
      destruct (custom_prototype obj);
        [destruct Hhooks as (p & _ & ->)|subst hooks]; rule_cases. }
    split; [by exists t|]. by intros (f & [= <-] & Hf).
  - destruct (custom_prototype obj).
    + destruct Hhooks as (p & Hp & ->). rewrite Hp.
      assert (In (prototype_toJSON_warning path)
                (rule_toJSON t path ++ rule_prototype_toJSON p path
                 ++ rule_indexed obj path ++ rule_symbols obj path
                 ++ rule_non_enumerable obj path)
              ↔ is_function p = true) as ->.
      { rewrite !in_app_iff. rule_cases. }
      split; [intros Hf; split; [done|by exists p]|].
      by intros (_ & f & [= <-] & Hf).
    + subst hooks. rewrite !in_app_iff. split; [rule_cases|by intros [? _]].
Qed.

Lemma hook_rules_witness :
  In (toJSON_warning "root")
     (visit (VObject VObjectPrototype
               [data_prop "toJSON" (VFunction (UserFn 2))]) "root").1.
Proof.
  destruct (hook_rules VObjectPrototype
              [data_prop "toJSON" (VFunction (UserFn 2))] "root"
              (constructor false) eq_refl) as [Hhook _].
  apply Hhook. by exists (VFunction (UserFn 2)).
Defined.

Lemma In_Object_getOwnPropertySymbols proto props id :
  In id (Object_getOwnPropertySymbols (VObject proto props))
  ↔ ∃ e s, In (mkProp (KSymbol id) e s) props.
Proof.
  unfold Object_getOwnPropertySymbols. simpl.
  induction props as [|[[k|i] e s] r IH]; simpl.
  - split; [done|]. by intros (? & ? & []).
  - rewrite IH. split.
    + intros (e' & s' & H). exists e', s'. by right.
    + intros (e' & s' & [[=]|H]). by exists e', s'.
  - rewrite IH. split.
    + intros [<-|(e' & s' & H)]; [exists e, s; by left|].
      exists e', s'. by right.
    + intros (e' & s' & [[= <- <- <-]|H]); [by left|]. right. by exists e', s'.
Qed.

(** X7: when the checks at a non-array object node complete, the visit
    emits the low-impact symbol-keys warning at the path of the node iff
    the object has an own property keyed by a symbol, enumerable or not. *)
Theorem symbol_keys_rule proto props path st :
  let obj := VObject proto props in
  (node_checks obj path st).1 = Normal tt →
  (In (symbol_keys_warning path) (visit obj path).1
   ↔ ∃ id e s, In (mkProp (KSymbol id) e s) props)
  ∧ Warning.impact (symbol_keys_warning path) = "low".
Proof.
  intros obj Hnode%node_checks_completes. split; [|done].
  destruct (node_trace_inv obj path Hnode) as (t & hooks & Ht & Heq & Hhooks).
  pose proof (visit_node_level proto props path) as Hlevel. fold obj in Hlevel.
  rewrite Hlevel by done. rewrite Heq. clear Heq Hnode Hlevel.
  assert (In (symbol_keys_warning path)
            (rule_toJSON t path ++ hooks ++ rule_indexed obj path
             ++ rule_symbols obj path ++ rule_non_enumerable obj path)
          ↔ Object_getOwnPropertySymbols obj ≠ []) as ->.
  { rewrite !in_app_iff.
    assert (Hlen : bool_decide (0 < length (Object_getOwnPropertySymbols obj))%nat
                   = true ↔ Object_getOwnPropertySymbols obj ≠ []).
    { rewrite bool_decide_eq_true.
      destruct (Object_getOwnPropertySymbols obj); simpl; [|split; [done|lia]].
      split; [lia|done]. }
    rewrite <- Hlen.
    destruct (custom_prototype obj);
      [destruct Hhooks as (p & _ & ->)|subst hooks]; rule_cases. }
  split.
  - destruct (Object_getOwnPropertySymbols obj) as [|id ids] eqn:Hs; [done|].
    intros _. exists id. apply (In_Object_getOwnPropertySymbols proto props id).
    fold obj. rewrite Hs. by left.
  - intros (id & Hid) Hnil.
    apply (In_Object_getOwnPropertySymbols proto props id) in Hid.
    fold obj in Hid. by rewrite Hnil in Hid.
Qed.

Lemma symbol_keys_rule_witness :
  In (symbol_keys_warning "root")
     (visit (VObject VObjectPrototype
               [mkProp (KSymbol 7) true (Data (number_of_Z 3))]) "root").1.
Proof.
  destruct (symbol_keys_rule VObjectPrototype
              [mkProp (KSymbol 7) true (Data (number_of_Z 3))]
              "root" (constructor false) eq_refl) as [Hsym _].
  apply Hsym. exists 7%nat, true, (Data (number_of_Z 3)). by left.
Defined.

Lemma In_string_keys {V} (ps : list (property V)) k :
  In k (string_keys ps) ↔ ∃ p, In p ps ∧ pkey p = KString k.
Proof.
  unfold string_keys. rewrite <- list_elem_of_In, list_elem_of_omap.
  split.
  - intros (p & Hp%list_elem_of_In & Hk). exists p. split; [done|].
    destruct (pkey p); by simplify_eq.
  - intros (p & Hp%list_elem_of_In & Hk). exists p. split; [done|].
    by rewrite Hk.
Qed.

Lemma In_non_enumerable_names proto props k :
  NoDup (List.map pkey props) →
  In k (non_enumerable_names (VObject proto props))
  ↔ ∃ s, In (mkProp (KString k) false s) props.
Proof.
  intros Hnd. unfold non_enumerable_names, Object_getOwnPropertyNames,
    Object_getOwnPropertyDescriptor. simpl.
  rewrite filter_In, In_string_keys. split.
  - intros [_ Hd].
    destruct (find_prop (KString k) props) as [[k' e s]|] eqn:Hfind;
      [|done]. simpl in Hd.
    apply find_prop_Some in Hfind as [Hin Hk]. simpl in Hk. subst k'.
    destruct e; [done|]. by exists s.
  - intros (s & Hin). split; [by exists (mkProp (KString k) false s)|].
    pose proof (find_prop_NoDup props _ Hnd Hin) as Hfind. simpl in Hfind.
    by rewrite Hfind.
Qed.

(** X8: when the checks at a non-array object node complete, the visit
    emits the low-impact non-enumerable warning at the path of the node iff
    the object has an own string-keyed property that is not enumerable;
    the warning names exactly these properties, and it is the only warning
    of its type at that path. *)
Theorem non_enumerable_rule proto props path st :
  let obj := VObject proto props in
  let names := non_enumerable_names obj in
  NoDup (List.map pkey props) →
  (node_checks obj path st).1 = Normal tt →
  (∀ k, In k names ↔ ∃ s, In (mkProp (KString k) false s) props)
  ∧ (In (non_enumerable_warning path names) (visit obj path).1 ↔ names ≠ [])
  ∧ (∀ w, In w (visit obj path).1 → Warning.path w = Some path →
          Warning.type w = "non-enumerable" →
          w = non_enumerable_warning path names)
  ∧ Warning.impact (non_enumerable_warning path names) = "low".
Proof.
  intros obj names Hnd Hnode%node_checks_completes.
  destruct (node_trace_inv obj path Hnode) as (t & hooks & Ht & Heq & Hhooks).
  pose proof (visit_node_level proto props path) as Hlevel. fold obj in Hlevel.
  assert (Hlen : bool_decide (0 < length names)%nat = true ↔ names ≠ []).
  { rewrite bool_decide_eq_true.
    destruct names; simpl; [|split; [done|lia]]. split; [lia|done]. }
  split_and!; [| | |done].
  - intros k. by apply In_non_enumerable_names.
  - rewrite Hlevel by done. rewrite Heq, <- Hlen, !in_app_iff.
    fold names. clear Heq Hnode Hlevel Hlen.
    destruct (custom_prototype obj);
      [destruct Hhooks as (p & _ & ->)|subst hooks];
      unfold rule_non_enumerable; fold names; rule_cases.
  - intros w Hw Hpath Hty. rewrite Hlevel in Hw by done.
    rewrite Heq, !in_app_iff in Hw. clear Heq Hnode Hlevel Hlen.
    destruct (custom_prototype obj);
      [destruct Hhooks as (p & _ & ->)|subst hooks];
      unfold rule_non_enumerable in Hw; fold names in Hw;
      unfold rule_toJSON, rule_prototype_toJSON, rule_indexed, rule_symbols
        in Hw;
      repeat match type of Hw with
             | context [if ?b then _ else _] => destruct b
             end;
      simpl in Hw; intuition (subst; try discriminate; try done).
Qed.

Lemma non_enumerable_rule_witness :
  In (non_enumerable_warning "root" ["hidden"])
     (visit (VObject VObjectPrototype
               [mkProp (KString "hidden") false (Data (number_of_Z 2))])
            "root").1.
Proof.
  destruct (non_enumerable_rule VObjectPrototype
              [mkProp (KString "hidden") false (Data (number_of_Z 2))]
              "root" (constructor false)) as (_ & Hin & _).
  - apply (bool_decide_unpack _). by vm_compute.
  - reflexivity.
  - apply Hin. by vm_compute.
Defined.

(** ** The traversal, element by element and key by key *)

Lemma checks_node_trace obj path : checks obj path = (node_trace obj path).1.
Proof.
  unfold checks. rewrite (node_checks_traces obj path (constructor false)).
  cbn [fst snd]. rewrite this_warnings_push_all.
  by rewrite (deref_push_all _ (constructor false)).
Qed.

Lemma andthen_Normal_inv a b :
  (andthen a b).2 = Normal tt →
  a.2 = Normal tt ∧ b.2 = Normal tt ∧ (andthen a b).1 = a.1 ++ b.1.
Proof.
  unfold andthen. destruct a as [ws [[]|e|]]; simpl; by intros.
Qed.

Lemma trace_of_array proto elems path :
  trace_of (VArray proto elems) path
  = of_read (get (VArray proto elems) (KString "forEach")) (fun forEach =>
      if is_builtin "Array.prototype.forEach" forEach
      then elements_trace proto path elems 0%nat
      else if is_function forEach then ([], Unmodelled)
      else ([], Throw (TypeError "obj.forEach is not a function"))).
Proof. reflexivity. Qed.

Lemma trace_of_object proto props path :
  trace_of (VObject proto props) path
  = andthen (node_trace (VObject proto props) path)
            (properties_trace path props).
Proof. reflexivity. Qed.

Lemma elements_trace_by_index proto path elems :
  ∀ idx0,
    (elements_trace proto path elems idx0).2 = Normal tt →
    ∀ w, In w (elements_trace proto path elems idx0).1
         ↔ ∃ idx item,
             elems !! idx = Some (Some item)
             ∧ In w (trace_of item
                       (path +:+ "[" +:+ string_of_nat (idx0 + idx)
                        +:+ "]")).1.
Proof.
  induction elems as [|e r IH]; intros idx0 Hrun w.
  - simpl. split; [done|]. by intros (idx & item & ? & _).
  - destruct e as [item|]; simpl in Hrun |- *.
    + apply andthen_Normal_inv in Hrun as (Hitem & Hr & ->).
      rewrite in_app_iff, (IH (S idx0) Hr). split.
      * intros [Hw|(idx & it & Hl & Hw)].
        -- exists 0%nat, item. by rewrite Nat.add_0_r.
        -- exists (S idx), it. by rewrite Nat.add_succ_r.
      * intros ([|idx] & it & Hl & Hw).
        -- left. injection Hl as <-. by rewrite Nat.add_0_r in Hw.
        -- right. exists idx, it. by rewrite Nat.add_succ_r in Hw.
    + destruct (has_property _ _); [done|].
      rewrite (IH (S idx0) Hrun). split.
      * intros (idx & it & Hl & Hw). exists (S idx), it.
        by rewrite Nat.add_succ_r.
      * intros ([|idx] & it & Hl & Hw); [done|].
        exists idx, it. by rewrite Nat.add_succ_r in Hw.
Qed.

(** X9: when the visit of an array completes, its warnings are those of
    the visits of its elements, the element at index [idx] being visited at
    the path [path[idx]]; a hole is not visited and the array itself draws
    no warning. *)
Theorem array_warnings_by_index proto elems path :
  (visit (VArray proto elems) path).2 = Normal tt →
  ∀ w, In w (visit (VArray proto elems) path).1
       ↔ ∃ idx item,
           elems !! idx = Some (Some item)
           ∧ In w (visit item
                     (path +:+ "[" +:+ string_of_nat idx +:+ "]")).1.
Proof.
  setoid_rewrite visit_trace. rewrite trace_of_array.
  destruct (get _ _) as [forEach|e|]; simpl; [|done..].
  destruct (is_builtin _ _); [|by destruct (is_function _)].
  intros Hrun w. by rewrite (elements_trace_by_index _ _ _ 0%nat Hrun).
Qed.

Lemma array_warnings_by_index_witness :
  In (indexed_properties_warning "root[1]")
     (visit (plain_array [VNull; indexed_sample]) "root").1.
Proof.
  apply (array_warnings_by_index VArrayPrototype
           [Some VNull; Some indexed_sample] "root"); [by vm_compute|].
  exists 1%nat, indexed_sample. split; [done|]. vm_compute. auto.
Defined.

Lemma properties_trace_by_key path props :
  (properties_trace path props).2 = Normal tt →
  ∀ w, In w (properties_trace path props).1
       ↔ ∃ key s v,
           In (mkProp (KString key) true s) props
           ∧ slot_value s = Some v
           ∧ In w (trace_of v (path +:+ "." +:+ key)).1.
Proof.
  induction props as [|p r IH]; intros Hrun w.
  - simpl. split; [done|]. by intros (? & ? & ? & [] & _).
  - assert (Hskip : (properties_trace path r).2 = Normal tt →
              (∀ key s, p ≠ mkProp (KString key) true s) →
              In w (properties_trace path r).1
              ↔ ∃ key s v,
                  In (mkProp (KString key) true s) (p :: r)
                  ∧ slot_value s = Some v
                  ∧ In w (trace_of v (path +:+ "." +:+ key)).1).
    { intros Hr Hp. rewrite (IH Hr). split.
      - intros (key & s & v & Hin & Hv & Hw). exists key, s, v.
        split; [by right|done].
      - intros (key & s & v & [Hin|Hin] & Hv & Hw); [by apply Hp in Hin|].
        by exists key, s, v. }
    destruct p as [[key|id] [] s]; simpl in Hrun |- *;
      [|by apply Hskip..].
    apply andthen_Normal_inv in Hrun as (Hv & Hr & ->).
    rewrite in_app_iff, (IH Hr). split.
    + intros [Hw|(k & s' & v & Hin & Hs & Hw)].
      * exists key, s. destruct s as [v|v|e]; [exists v..|done];
          (split; [by left|done]).
      * exists k, s', v. split; [by right|done].
    + intros (k & s' & v & [[= <- <-]|Hin] & Hs & Hw).
      * left. destruct s as [x|x|e]; simpl in Hs; by simplify_eq.
      * right. by exists k, s', v.
Qed.

(** X10: when the visit of a non-array object completes, its warnings are
    those of the checks at the node followed by those of the visits of the
    values of its own enumerable string-keyed properties, the value under
    [key] being visited at the path [path.key]; neither a non-enumerable
    nor a symbol-keyed property is visited, and the prototype is not. *)
Theorem object_warnings_by_key proto props path :
  let obj := VObject proto props in
  (visit obj path).2 = Normal tt →
  ∀ w, In w (visit obj path).1
       ↔ In w (checks obj path)
         ∨ ∃ key s v,
             In (mkProp (KString key) true s) props
             ∧ slot_value s = Some v
             ∧ In w (visit v (path +:+ "." +:+ key)).1.
Proof.
  intros obj. setoid_rewrite visit_trace. rewrite checks_node_trace.
  unfold obj. rewrite trace_of_object.
  intros (Hnode & Hprops & ->)%andthen_Normal_inv w.
  by rewrite in_app_iff, (properties_trace_by_key _ _ Hprops).
Qed.

Lemma object_warnings_by_key_witness :
  In (indexed_properties_warning "root.a")
     (visit (plain_object [data_prop "a" indexed_sample]) "root").1.
Proof.
  apply (object_warnings_by_key VObjectPrototype
           [data_prop "a" indexed_sample] "root"); [by vm_compute|].
  right. exists "a", (Data indexed_sample), indexed_sample.
  split; [by left|]. split; [done|]. vm_compute. auto.
Defined.

(** ** Plain data *)

Lemma plain_data_array proto elems :
  plain_data (VArray proto elems) = true →
  proto = VArrayPrototype
  ∧ Forall (fun e => ∀ v, e = Some v → plain_data v = true) elems.
Proof.
  simpl. intros [Hp He]%andb_true_iff. split; [by destruct proto|].
  clear Hp. induction elems as [|[item|] r IH].
  - apply Forall_nil_2.
  - apply andb_true_iff in He as [Hi Hr].
    apply Forall_cons_2; [by intros v [= <-]|by apply IH].
  - apply Forall_cons_2; [done|by apply IH].
Qed.

Lemma plain_data_object proto props :
  plain_data (VObject proto props) = true →
  proto = VObjectPrototype
  ∧ Forall (fun p => ∃ k v, p = mkProp (KString k) true (Data v)
                            ∧ isIndexedKey k = false
                            ∧ (k = "toJSON" → is_function v = false)
                            ∧ plain_data v = true) props.
Proof.
  simpl. intros [Hp Hps]%andb_true_iff. split; [by destruct proto|].
  clear Hp. induction props as [|[[k|id] [] [v|v|e]] r IH]; try done.
  apply andb_true_iff in Hps as [Hps Hr].
  apply andb_true_iff in Hps as [Hps Hv].
  apply andb_true_iff in Hps as [Hk Hj].
  apply Forall_cons_2; [|by apply IH]. exists k, v.
  split_and!; [done|by apply negb_true_iff| |done].
  intros ->. apply negb_true_iff in Hj. by rewrite bool_decide_eq_true_2 in Hj.
Qed.

Lemma get_plain_toJSON props :
  Forall (fun p => ∃ k v, p = mkProp (KString k) true (Data v)
                          ∧ (k = "toJSON" → is_function v = false)) props →
  ∃ toJSON,
    get (VObject VObjectPrototype props) (KString "toJSON") = Normal toJSON
    ∧ is_function toJSON = false.
Proof.
  intros Hps. unfold get. simpl.
  destruct (find_prop (KString "toJSON") props) as [p|] eqn:Hfind.
  - apply find_prop_Some in Hfind as [Hin Hk].
    rewrite List.Forall_forall in Hps.
    destruct (Hps p Hin) as (k & v & -> & Hf). injection Hk as ->.
    exists v. split; [done|by apply Hf].
  - by exists VUndefined.
Qed.

Lemma plain_properties_quiet proto props path :
  Forall (fun p => ∃ k v, p = mkProp (KString k) true (Data v)
                          ∧ isIndexedKey k = false) props →
  rule_indexed (VObject proto props) path = []
  ∧ rule_symbols (VObject proto props) path = []
  ∧ rule_non_enumerable (VObject proto props) path = [].
Proof.
  intros Hps.
  assert (Hk : existsb isIndexedKey (Object_keys (VObject proto props)) = false).
  { unfold Object_keys. simpl.
    induction Hps as [|p r (k & v & -> & Hi) _ IH]; [done|].
    simpl. by rewrite Hi. }
  assert (Hs : Object_getOwnPropertySymbols (VObject proto props) = []).
  { clear Hk. unfold Object_getOwnPropertySymbols. simpl.
    induction Hps as [|p r (k & v & -> & Hi) _ IH]; [done|]. simpl.
    exact IH. }
  assert (Hn : non_enumerable_names (VObject proto props) = []).
  { unfold non_enumerable_names. apply filter_none. intros key.
    unfold Object_getOwnPropertyDescriptor. simpl.
    destruct (find_prop (KString key) props) as [p|] eqn:Hfind; [|done].
    simpl. apply find_prop_Some in Hfind as [Hin _].
    rewrite List.Forall_forall in Hps.
    by destruct (Hps p Hin) as (k & v & -> & _). }
  unfold rule_indexed, rule_symbols, rule_non_enumerable.
  by rewrite Hk, Hs, Hn.
Qed.

Lemma get_plain_array_forEach elems :
  get (VArray VArrayPrototype elems) (KString "forEach")
  = Normal (VFunction (Builtin "Array.prototype.forEach")).
Proof. reflexivity. Qed.

Lemma plain_data_trace obj :
  plain_data obj = true → ∀ path, trace_of obj path = ([], Normal tt).
Proof.
  induction obj as [v Hv|proto elems _ IH|proto props _ IH] using value_ind;
    intros Hplain path.
  - by destruct v.
  - destruct (plain_data_array _ _ Hplain) as [-> He].
    rewrite trace_of_array, get_plain_array_forEach.
    change (elements_trace VArrayPrototype path elems 0%nat = ([], Normal tt)).
    clear Hplain. generalize 0%nat.
    induction elems as [|e r IHr]; intros idx; [done|].
    apply Forall_cons in IH as [IHe IH]. apply Forall_cons in He as [He Hr].
    destruct e as [item|]; simpl.
    + rewrite (IHe item eq_refl (He item eq_refl)).
      unfold andthen. simpl. by rewrite (IHr IH Hr).
    + rewrite has_property_ArrayPrototype_index. by apply IHr.
  - destruct (plain_data_object _ _ Hplain) as [-> Hps].
    rewrite trace_of_object.
    assert (Hnode : node_trace (VObject VObjectPrototype props) path
                    = ([], Normal tt)).
    { destruct (get_plain_toJSON props) as (t & Ht & Hf).
      { eapply Forall_impl; [exact Hps|].
        intros p (k & v & -> & _ & Hj & _). by exists k, v. }
      destruct (plain_properties_quiet VObjectPrototype props path)
        as (Hi & Hs & Hn).
      { eapply Forall_impl; [exact Hps|].
        intros p (k & v & -> & Hk & _). by exists k, v. }
      unfold node_trace. rewrite Ht, Hi, Hs, Hn. simpl.
      unfold rule_toJSON. by rewrite Hf. }
    rewrite Hnode. unfold andthen. simpl.
    assert (Hloop : properties_trace path props = ([], Normal tt));
      [|by rewrite Hloop].
    clear Hnode Hplain.
    induction props as [|p r IHr]; [done|].
    apply Forall_cons in IH as [IHp IH]. apply Forall_cons in Hps as [Hp Hr].
    destruct Hp as (k & v & -> & _ & _ & Hv). simpl.
    rewrite (IHp v eq_refl Hv). unfold andthen. simpl. by rewrite (IHr IH Hr).
Qed.

(** X11: [validate], called with no replacer and no space, reports plain
    data as fully optimized: it returns a result with no warning, both
    flags true and the fixed summary.  The data of examples/example.js is
    such a tree. *)
Theorem plain_data_is_optimized obj replacer space st :
  plain_data obj = true →
  In replacer [VNull; VUndefined] → In space [VNull; VUndefined] →
  ∃ r st',
    validate obj replacer space st = (Normal r, st')
    ∧ deref st' (Result.warnings r) = []
    ∧ Result.isOptimized r = true
    ∧ Result.canUseFastPath r = true
    ∧ Result.summary r = "Object is fully optimized for V8 fast path".
Proof.
  intros Hplain Hr Hs. rewrite validate_eq.
  pose proof (deref_validated obj replacer space st) as Hws.
  rewrite (plain_data_trace obj Hplain "root") in Hws |- *.
  assert (Hcalls : call_level (default_param replacer VNull)
                              (default_param space VNull) = []).
  { simpl in Hr, Hs.
    destruct Hr as [<-|[<-|[]]]; destruct Hs as [<-|[<-|[]]]; done. }
  rewrite Hcalls in Hws. simpl in Hws.
  eexists _, _. split; [reflexivity|].
  cbn [result_of Result.warnings Result.isOptimized Result.canUseFastPath
       Result.summary].
  by rewrite Hws.
Qed.

Lemma plain_data_is_optimized_witness :
  ∃ r st',
    validate example_data VUndefined VUndefined (constructor false)
    = (Normal r, st')
    ∧ Result.isOptimized r = true.
Proof.
  destruct (plain_data_is_optimized example_data VUndefined VUndefined
              (constructor false))
    as (r & st' & Hrun & _ & Hopt & _).
  - by vm_compute.
  - simpl. auto.
  - simpl. auto.
  - by exists r, st'.
Defined.

(** ** What optimize prints and leaves alone *)

Lemma pbind_lines {A B} (Q : string → Prop) (m : printed A)
  (f : A → printed B) :
  Forall Q m.2 → (∀ a, Forall Q (f a).2) → Forall Q (pbind m f).2.
Proof.
  intros Hm Hf. unfold pbind. destruct m as [[a|e|] l1]; [|done..].
  specialize (Hf a). destruct (f a) as [o l2]. by apply Forall_app_2.
Qed.

Lemma pread_lines {A B} (Q : string → Prop) (o : outcome A)
  (f : A → printed B) :
  (∀ a, Forall Q (f a).2) → Forall Q (pread o f).2.
Proof. intros Hf. apply pbind_lines; [apply Forall_nil_2|done]. Qed.

Lemma optimized_lines obj :
  Forall (fun line => ∃ key, line = "Skipping indexed property: " +:+ key
                             ∧ isIndexedKey key = true)
         (optimized obj).2.
Proof.
  induction obj as [v Hv|proto elems _ IH|proto props _ IH] using value_ind.
  - destruct v; first [done|apply Forall_nil_2].
  - simpl. apply pread_lines; intros map.
    destruct (is_builtin _ _);
      [|destruct (is_function _); apply Forall_nil_2].
    apply pread_lines; intros _.
    apply pbind_lines; [|intros; apply Forall_nil_2].
    generalize 0%nat. induction IH as [|e r He _ IHr]; intros idx.
    + apply Forall_nil_2.
    + destruct e as [item|]; simpl.
      * apply pbind_lines; [by apply He|]. intros item'.
        apply pbind_lines; [apply IHr|]. intros; apply Forall_nil_2.
      * destruct (has_property _ _); [apply Forall_nil_2|].
        apply pbind_lines; [apply IHr|]. intros; apply Forall_nil_2.
  - simpl. generalize (VObject VObjectPrototype []).
    induction IH as [|p r Hp _ IHr]; intros acc; [apply Forall_nil_2|].
    destruct p as [[key|id] [] s]; simpl; try apply IHr.
    destruct (isIndexedKey key) eqn:Hkey.
    + apply pbind_lines; [|intros; apply IHr].
      apply Forall_cons_2; [by exists key|apply Forall_nil_2].
    + destruct s as [v|v|e]; [| |apply Forall_nil_2];
        (apply pbind_lines; [by apply Hp|]; intros v';
         apply pread_lines; intros acc'; apply IHr).
Qed.

(** X12: [optimize] touches nothing of the instance (neither the warning
    buffer nor any array a result holds); its only effect is to print, and
    every line it prints is "Skipping indexed property: " followed by a key
    that passes the indexed-key test.  What it returns and prints depends
    on the tree only. *)
Theorem optimize_only_prints obj st :
  let st' := (optimize obj st).2 in
  heap st' = heap st
  ∧ this_warnings st' = this_warnings st
  ∧ this_strictMode st' = this_strictMode st
  ∧ serializer_calls st' = serializer_calls st
  ∧ ∃ lines,
      console st' = console st ++ lines
      ∧ Forall (fun line =>
                  ∃ key, line = "Skipping indexed property: " +:+ key
                         ∧ isIndexedKey key = true) lines
      ∧ ∀ st2, (optimize obj st2).1 = (optimize obj st).1
               ∧ console (optimize obj st2).2 = console st2 ++ lines.
Proof.
  rewrite (optimize_prints obj st). cbn [fst snd].
  split_and!; try done.
  exists (optimized obj).2. split_and!; [done|apply optimized_lines|].
  intros st2. by rewrite (optimize_prints obj st2).
Qed.

(** ** optimize on plain data *)

Lemma plain_data_settled obj :
  plain_data obj = true → wf obj → without_key "__proto__" obj → settled obj.
Proof.
  induction obj as [v Hv|proto elems _ IH|proto props _ IH] using value_ind;
    intros Hplain Hwf Hkey.
  - destruct v; try done;
      by (eexists; split; [reflexivity|by apply struct_eq_leaf]).
  - destruct (plain_data_array _ _ Hplain) as [-> Hpe].
    pose proof (wf_elems _ _ Hwf) as Hwe.
    pose proof (without_key_elems _ _ _ Hkey) as Hke.
    assert (Hsettled : Forall (fun e => ∀ v, e = Some v → settled v) elems).
    { clear Hplain Hwf Hkey.
      induction elems as [|e r IHr]; [apply Forall_nil_2|].
      apply Forall_cons in IH as [IHe IH]. apply Forall_cons in Hpe as [Hp Hpe].
      apply Forall_cons in Hwe as [Hw Hwe]. apply Forall_cons in Hke as [Hk Hke].
      apply Forall_cons_2; [|by apply IHr].
      intros v Hv. by apply (IHe v Hv); [apply Hp|apply Hw|apply Hk]. }
    destruct (elems_second elems Hsettled 0%nat) as (elems'' & Hsecond & Hsame).
    exists (VArray VArrayPrototype elems''). split; [|by apply struct_eq_array].
    by rewrite optimized_plain_array, Hsecond.
  - destruct (plain_data_object _ _ Hplain) as [-> Hpp].
    destruct (wf_props _ _ Hwf) as [Hnd Hwp].
    destruct (without_key_props _ _ _ Hkey) as [Hno Hkp].
    assert (Hps : Forall (fun p => ∃ k v, p = mkProp (KString k) true (Data v)
                                          ∧ isIndexedKey k = false
                                          ∧ k ≠ "__proto__" ∧ settled v) props).
    { apply List.Forall_forall. intros p Hin.
      rewrite List.Forall_forall in IH, Hpp, Hwp, Hkp.
      destruct (Hpp p Hin) as (k & v & -> & Hi & _ & Hv).
      exists k, v. split_and!; [done|done| |].
      - intros ->. apply Hno. apply in_map_iff.
        by exists (mkProp (KString "__proto__") true (Data v)).
      - apply (IH _ Hin v eq_refl Hv).
        + by apply (Hwp _ Hin).
        + by apply (Hkp _ Hin). }
    destruct (props_second props Hps Hnd [])
      as (props'' & Hsecond & _ & Hsame).
    { split; [apply NoDup_nil_2|apply Forall_nil_2]. }
    { by intros k _ []. }
    exists (VObject VObjectPrototype props''). split; [exact Hsecond|].
    apply struct_eq_object. intros k. by apply Hsame.
Qed.

(** X13: on plain data whose objects have distinct keys, none of them
    [__proto__], [optimize] returns a value structurally equal to its
    argument, prints nothing and leaves the instance as it was. *)
Theorem optimize_plain_data obj st :
  plain_data obj = true → wf obj → without_key "__proto__" obj →
  ∃ y, optimize obj st = (Normal y, st) ∧ struct_eq y obj.
Proof.
  intros Hplain Hwf Hkey.
  destruct (plain_data_settled obj Hplain Hwf Hkey) as (y & Hy & Heq).
  exists y. split; [|done].
  rewrite (optimize_prints obj st), Hy. simpl. by rewrite log_nil.
Qed.

Lemma optimize_plain_data_witness :
  ∃ y, optimize example_data (constructor false) = (Normal y, constructor false)
       ∧ struct_eq y example_data.
Proof.
  apply (optimize_plain_data example_data (constructor false)).
  - by vm_compute.
  - simpl. split_and!; try done.
    apply (bool_decide_unpack _). by vm_compute.
  - simpl. split_and!; try done. intuition discriminate.
Defined.

(** ** validate after optimize *)







(** ** Failures *)

Lemma is_builtin_function name f : is_builtin name f = true → is_function f = true.
Proof. by destruct f as [| | | | | | |[]| | | |]. Qed.

(** X15: on an array whose [forEach], own or inherited, is no function,
    [validate] throws the TypeError of the call at line 60; the buffer then
    holds the call-level warnings only. *)
Theorem validate_array_without_forEach proto elems replacer space st f :
  get (VArray proto elems) (KString "forEach") = Normal f →
  is_function f = false →
  ∃ st',
    validate (VArray proto elems) replacer space st
    = (Throw (TypeError "obj.forEach is not a function"), st')
    ∧ deref st' (this_warnings st')
      = call_level (default_param replacer VNull) (default_param space VNull).
Proof.
  intros Hget Hf.
  assert (Ht : trace_of (VArray proto elems) "root"
               = ([], Throw (TypeError "obj.forEach is not a function"))).
  { rewrite trace_of_array, Hget. simpl. rewrite Hf.
    destruct (is_builtin _ f) eqn:Hb; [|done].
    apply is_builtin_function in Hb. congruence. }
  eexists. rewrite validate_eq, Ht. split; [reflexivity|].
  rewrite deref_validated, Ht. apply app_nil_r.
Qed.

Lemma validate_array_without_forEach_witness :
  ∃ st',
    validate (VArray VNull [Some VNull]) VNull VNull (constructor false)
    = (Throw (TypeError "obj.forEach is not a function"), st').
Proof.
  destruct (validate_array_without_forEach VNull [Some VNull] VNull VNull
              (constructor false) VUndefined eq_refl eq_refl)
    as (st' & Hrun & _).
  by exists st'.
Defined.

(** X16: on an array whose [map], own or inherited, is no function,
    [optimize] throws the TypeError of the call at line 160 and changes
    nothing. *)
Theorem optimize_array_without_map proto elems st f :
  get (VArray proto elems) (KString "map") = Normal f →
  is_function f = false →
  optimize (VArray proto elems) st
  = (Throw (TypeError "obj.map is not a function"), st).
Proof.
  intros Hget Hf. rewrite (optimize_prints _ st).
  assert (Ho : optimized (VArray proto elems)
               = (Throw (TypeError "obj.map is not a function"), [])).
  { cbn [optimized]. rewrite Hget. unfold pread, pbind. rewrite Hf.
    destruct (is_builtin _ f) eqn:Hb; [|done].
    apply is_builtin_function in Hb. congruence. }
  rewrite Ho. simpl. by rewrite log_nil.
Qed.

Lemma optimize_array_without_map_witness :
  optimize (VArray VNull [Some VNull]) (constructor false)
  = (Throw (TypeError "obj.map is not a function"), constructor false).
Proof.
  exact (optimize_array_without_map VNull [Some VNull] (constructor false)
           VUndefined eq_refl eq_refl).
Defined.

Lemma stringify_validate_throws_witness :
  ∃ st1,
    stringify (fun _ _ _ => Normal (VString "{}")) throwing_sample VNull VNull
              (constructor false)
    = (Throw (UserError "boom"), st1)
    ∧ serializer_calls st1 = [].
Proof.
  eexists.
  apply (stringify_validate_throws (fun _ _ _ => Normal (VString "{}"))
           throwing_sample VNull VNull (constructor false)).
  vm_compute; reflexivity.
Defined.

(** ** benchmark *)

Lemma stringify_loop_Normal JSON_stringify obj json n st :
  JSON_stringify obj VUndefined VUndefined = Normal json →
  stringify_loop JSON_stringify obj n st
  = (Normal tt, serializer_called_times n (obj, VUndefined, VUndefined) st).
Proof.
  intros Hjson. revert st. induction n as [|n IH]; intros st.
  - unfold serializer_called_times. simpl. rewrite app_nil_r. by destruct st.
  - cbn [stringify_loop]. unfold mbind, M_bind, bind, call_JSON_stringify.
    rewrite Hjson, IH. unfold serializer_called_times. simpl.
    by rewrite <- app_assoc.
Qed.

Lemma stringify_loop_fails JSON_stringify obj n st o :
  JSON_stringify obj VUndefined VUndefined = o →
  match o with Normal _ => False | _ => True end →
  stringify_loop JSON_stringify obj (S n) st
  = (match o with
     | Normal _ => Normal tt
     | Throw e => Throw e
     | Unmodelled => Unmodelled
     end, serializer_called (obj, VUndefined, VUndefined) st).
Proof.
  intros Ho Hfail. cbn [stringify_loop].
  unfold mbind, M_bind, bind, call_JSON_stringify. rewrite Ho.
  by destruct o.
Qed.

Lemma benchmark_eq JSON_stringify start end_ obj n st :
  benchmark JSON_stringify start end_ obj (Some n) st
  = if 2 ^ 53 <? Z.of_nat n then (Unmodelled, st)
    else
      match stringify_loop JSON_stringify obj n st with
      | (Normal _, st1) =>
          match validate obj VUndefined VUndefined st1 with
          | (Normal validation, st2) =>
              let iterations := round_decimal (Z.of_nat n) 0 in
              let avgTime := js_div (js_sub end_ start) iterations in
              (Normal (Benchmark.mk iterations (js_sub end_ start) avgTime
                         (js_div (round_decimal 1000 0) avgTime) validation),
               st2)
          | (Throw e, st2) => (Throw e, st2)
          | (Unmodelled, st2) => (Unmodelled, st2)
          end
      | (Throw e, st1) => (Throw e, st1)
      | (Unmodelled, st1) => (Unmodelled, st1)
      end.
Proof.
  unfold benchmark. change (default 1000%nat (Some n)) with n.
  destruct (2 ^ 53 <? Z.of_nat n); [done|].
  unfold mbind, M_bind, bind.
  by destruct (stringify_loop _ _ _ _) as [[[]|e|] st1].
Qed.

Lemma benchmark_default JSON_stringify start end_ obj st :
  benchmark JSON_stringify start end_ obj None st
  = benchmark JSON_stringify start end_ obj (Some 1000%nat) st.
Proof. reflexivity. Qed.

(** X18: when the serializer returns on the tree, [benchmark] calls it
    once per iteration, with the tree alone (no replacer, no space), and
    then runs [validate] with neither: it completes as that [validate]
    does, the validation of its result reports the warnings of the tree
    and no call-level warning, and nothing is printed. *)
Theorem benchmark_runs JSON_stringify start end_ obj n json st :
  JSON_stringify obj VUndefined VUndefined = Normal json →
  Z.of_nat n ≤ 2 ^ 53 →
  let run := benchmark JSON_stringify start end_ obj (Some n) st in
  serializer_calls run.2
  = serializer_calls st ++ replicate n (obj, VUndefined, VUndefined)
  ∧ console run.2 = console st
  ∧ deref run.2 (this_warnings run.2) = (visit obj "root").1
  ∧ match run.1 with
    | Normal b =>
        (visit obj "root").2 = Normal tt
        ∧ deref run.2 (Result.warnings (Benchmark.validation b))
          = (visit obj "root").1
        ∧ Benchmark.totalTime b = js_sub end_ start
        ∧ Benchmark.averageTime b
          = js_div (Benchmark.totalTime b) (Benchmark.iterations b)
        ∧ Benchmark.opsPerSecond b
          = js_div (round_decimal 1000 0) (Benchmark.averageTime b)
    | Throw e => (visit obj "root").2 = Throw e
    | Unmodelled => (visit obj "root").2 = Unmodelled
    end.
Proof.
  intros Hjson Hn run. subst run. rewrite benchmark_eq.
  destruct (2 ^ 53 <? Z.of_nat n) eqn:Hbig; [apply Z.ltb_lt in Hbig; lia|].
  rewrite (stringify_loop_Normal _ _ _ _ _ Hjson), validate_eq.
  rewrite visit_trace.
  set (st1 := serializer_called_times n (obj, VUndefined, VUndefined) st).
  destruct (console_validated obj VUndefined VUndefined st1) as [Hc Hs].
  pose proof (deref_validated obj VUndefined VUndefined st1) as Hws.
  simpl in Hws.
  destruct (trace_of obj "root") as [ws o] eqn:Ht. simpl in Hws |- *.
  destruct o as [[]|e|]; cbn [fst snd]; rewrite Hc, Hs; by split_and!.
Qed.

Lemma benchmark_runs_witness :
  serializer_calls
    (benchmark (fun _ _ _ => Normal (VString "{}")) (S754_zero false)
               (S754_zero false) indexed_sample (Some 3%nat)
               (constructor false)).2
  = serializer_calls (constructor false)
    ++ replicate 3 (indexed_sample, VUndefined, VUndefined).
Proof.
  assert (Hle : Z.of_nat 3 ≤ 2 ^ 53) by (by vm_compute).
  destruct (benchmark_runs (fun _ _ _ => Normal (VString "{}"))
              (S754_zero false) (S754_zero false) indexed_sample 3
              (VString "{}") (constructor false) eq_refl Hle) as [Hcalls _].
  exact Hcalls.
Defined.

(** X19: when the serializer throws on the tree, [benchmark] with at least
    one iteration throws the same exception at the first call: no result
    is returned, [validate] is not run and the warning buffer of the
    instance stays as it was.  An omitted [iterations] stands for 1000. *)
Theorem benchmark_propagates JSON_stringify start end_ obj n e st :
  JSON_stringify obj VUndefined VUndefined = Throw e →
  Z.of_nat (S n) ≤ 2 ^ 53 →
  benchmark JSON_stringify start end_ obj (Some (S n)) st
  = (Throw e, serializer_called (obj, VUndefined, VUndefined) st)
  ∧ benchmark JSON_stringify start end_ obj None st
    = (Throw e, serializer_called (obj, VUndefined, VUndefined) st).
Proof.
  intros He Hn. rewrite benchmark_default, !benchmark_eq.
  destruct (2 ^ 53 <? Z.of_nat (S n)) eqn:Hbig;
    [apply Z.ltb_lt in Hbig; lia|].
  change (2 ^ 53 <? Z.of_nat 1000) with false. cbv iota.
  change 1000%nat with (S 999).
  by rewrite !(stringify_loop_fails _ _ _ _ _ He I).
Qed.

Lemma benchmark_propagates_witness :
  benchmark (fun _ _ _ => Throw (TypeError "cyclic object value"))
            (S754_zero false) (S754_zero false) indexed_sample (Some 2%nat)
            (constructor false)
  = (Throw (TypeError "cyclic object value"),
     serializer_called (indexed_sample, VUndefined, VUndefined)
                       (constructor false)).
Proof.
  apply (benchmark_propagates
           (fun _ _ _ => Throw (TypeError "cyclic object value"))
           (S754_zero false) (S754_zero false) indexed_sample 1
           (TypeError "cyclic object value") (constructor false) eq_refl).
  by vm_compute.
Defined.

(** X20: with [iterations] 0 the serializer is not called and the average
    is a division by zero: a total time of zero gives NaN for
    [averageTime] and [opsPerSecond]; a finite total time other than zero
    gives an infinite [averageTime] and an [opsPerSecond] of zero. *)
Theorem benchmark_zero_iterations JSON_stringify start end_ obj st b st' :
  benchmark JSON_stringify start end_ obj (Some 0%nat) st = (Normal b, st') →
  serializer_calls st' = serializer_calls st
  ∧ Benchmark.totalTime b = js_sub end_ start
  ∧ (∀ s, Benchmark.totalTime b = S754_zero s →
          Benchmark.averageTime b = S754_nan
          ∧ Benchmark.opsPerSecond b = S754_nan)
  ∧ (∀ s m e, Benchmark.totalTime b = S754_finite s m e →
              Benchmark.averageTime b = S754_infinity s
              ∧ Benchmark.opsPerSecond b = S754_zero s).
Proof.
  rewrite benchmark_eq.
  change (2 ^ 53 <? Z.of_nat 0) with false. cbv iota.
  cbn [stringify_loop ret]. unfold ret. rewrite validate_eq.
  destruct (console_validated obj VUndefined VUndefined st) as [_ Hs].
  destruct (trace_of obj "root").2; [|done..].
  intros [= <- <-]. cbn [Benchmark.totalTime Benchmark.averageTime
                         Benchmark.opsPerSecond].
  split_and!; [done|done| |].
  - intros s ->. done.
  - intros s m e ->. by destruct s.
Qed.

Lemma benchmark_zero_iterations_witness :
  ∃ b st',
    benchmark (fun _ _ _ => Normal (VString "{}")) (S754_zero false)
              (S754_zero false) indexed_sample (Some 0%nat) (constructor false)
    = (Normal b, st')
    ∧ Benchmark.averageTime b = S754_nan.
Proof.
  eexists _, _. split; [vm_compute; reflexivity|].
  destruct (benchmark_zero_iterations (fun _ _ _ => Normal (VString "{}"))
              (S754_zero false) (S754_zero false) indexed_sample
              (constructor false) _ _ eq_refl) as (_ & _ & Hzero & _).
  exact (proj1 (Hzero false eq_refl)).
Defined.

(** ** optimize on arrays *)



(** ** The indexed-key test on numerals *)

(** X21: the test of lines 93 and 168 accepts the decimal numeral of every
    integer from 0 to 4095 and of 2^53; it rejects the numeral of
    2^53 + 1, a canonical integer that is no Number, and the numerals "-0",
    "+1", "0x10", ".5" and the empty string, and accepts "0.5" and
    "Infinity". *)
Theorem indexed_test_on_numerals :
  (∀ n, (n < 4096)%nat → isIndexedKey (string_of_nat n) = true)
  ∧ isIndexedKey "9007199254740992" = true
  ∧ is_canonical_integer "9007199254740993" = true
  ∧ isIndexedKey "9007199254740993" = false
  ∧ Forall (fun key => isIndexedKey key = false)
           ["-0"; "+1"; "0x10"; ".5"; ""; " 1"; "1e21"]
  ∧ Forall (fun key => isIndexedKey key = true) ["0.5"; "Infinity"; "1e+21"].
Proof.
  assert (Hall : forallb (fun n => isIndexedKey (string_of_nat n))
                         (seq 0 4096) = true) by (vm_compute; reflexivity).
  refine (conj _ (conj _ (conj _ (conj _ (conj _ _))))).
  - rewrite forallb_forall in Hall. intros n Hn. apply Hall, in_seq. lia.
  - vm_compute; reflexivity.
  - vm_compute; reflexivity.
  - vm_compute; reflexivity.
  - repeat (apply Forall_cons_2; [vm_compute; reflexivity|]).
    apply Forall_nil_2.
  - repeat (apply Forall_cons_2; [vm_compute; reflexivity|]).
    apply Forall_nil_2.
Qed.

(** ** Getters that throw *)

Lemma properties_trace_readable path ps :
  (∀ key s, In (mkProp (KString key) true s) ps →
            ∃ v, slot_value s = Some v ∧ readable v = true) →
  (properties_trace path ps).2 = Normal tt.
Proof.
  induction ps as [|p r IH]; intros Hps; [done|].
  assert (Hr : (properties_trace path r).2 = Normal tt).
  { apply IH. intros key s Hin. apply (Hps key s). by right. }
  destruct p as [[key|id] [] s]; simpl; try done.
  destruct (Hps key s (or_introl eq_refl)) as (v & Hs & Hv).
  apply andthen_snd_Normal; [|done].
  destruct s as [x|x|x]; simpl in Hs; [| |done]; injection Hs as ->;
    by apply readable_trace.
Qed.

Lemma properties_trace_throws path before key e after :
  (properties_trace path before).2 = Normal tt →
  (properties_trace path
     (before ++ mkProp (KString key) true (AccessorThrows e) :: after)).2
  = Throw e.
Proof.
  induction before as [|p r IH]; intros Hb; [done|].
  destruct p as [[k|id] [] s]; simpl in Hb |- *; try (by apply IH).
  apply andthen_Normal_inv in Hb as (Hs & Hr & _).
  unfold andthen. rewrite Hs. cbn [snd]. by apply IH.
Qed.

(** X23: [validate] propagates what a getter throws when the traversal
    reads it: [obj.toJSON] (line 67), [proto.toJSON] on a prototype other
    than [Object.prototype] and [Array.prototype] (line 79), and the own
    enumerable property [obj[key]] (line 134) once the checks at the node
    and the visits of the properties before it have completed.  No result
    is returned. *)
Theorem validate_propagates_getter proto props replacer space st e :
  let obj := VObject proto props in
  get obj (KString "toJSON") = Throw e
  ∨ (∃ toJSON, get obj (KString "toJSON") = Normal toJSON)
    ∧ custom_prototype obj = true
    ∧ get proto (KString "toJSON") = Throw e
  ∨ (node_checks obj "root" st).1 = Normal tt
    ∧ (∃ before key after,
         props = before
                 ++ mkProp (KString key) true (AccessorThrows e) :: after
         ∧ ∀ k s, In (mkProp (KString k) true s) before →
                  ∃ v, slot_value s = Some v ∧ readable v = true) →
  (validate obj replacer space st).1 = Throw e.
Proof.
  intros obj Hcase. rewrite validate_eq. cbn [fst].
  assert (Ht : (trace_of obj "root").2 = Throw e); [|by rewrite Ht].
  unfold obj. rewrite trace_of_object. fold obj.
  destruct Hcase as [Hget|[((t & Hget) & Hc & Hp)|(Hn & b & k & a & -> & Hb)]].
  - unfold node_trace. by rewrite Hget.
  - unfold node_trace. rewrite Hget, Hc.
    change (Object_getPrototypeOf obj) with proto. by rewrite Hp.
  - apply node_checks_completes in Hn. unfold andthen. rewrite Hn. cbn [snd].
    apply properties_trace_throws. by apply properties_trace_readable.
Qed.

Lemma validate_propagates_getter_witness :
  (validate (VObject VObjectPrototype
               [data_prop "a" VNull;
                mkProp (KString "b") true (AccessorThrows (UserError "boom"))])
            VNull VNull (constructor false)).1
  = Throw (UserError "boom").
Proof.
  apply (validate_propagates_getter VObjectPrototype
           [data_prop "a" VNull;
            mkProp (KString "b") true (AccessorThrows (UserError "boom"))]
           VNull VNull (constructor false) (UserError "boom")).
  right. right. split; [reflexivity|].
  exists [data_prop "a" VNull], "b", []. split; [reflexivity|].
  intros k s [[= <- <-]|[]]. by exists VNull.
Defined.
